(** * Lollms VS Code extension: a shallow embedding of its core and its properties

    The development follows the extension's single source file: the
    policy store ([ContextStateManager]) and its persistence, the
    context assembler ([handleGenerateContext],
    [generateMarkdownTreeFromUris]) and the stream relay
    ([handleChatRequest]); then the decorations and the sidebar, the
    commands that reach the store, and the helpers [getNonce],
    [findCommonBasePath] and [extractSignatures].  The first part holds
    the definitions, under the names of the source; the second part
    holds the facts about them.

    Representation.
    - A JavaScript string is the list of its UTF-16 code units
      ([Js.str]); a [Uint8Array] is a list of bytes.
    - The [Map] of the store is the list of its entries in insertion
      order, as a JavaScript [Map] iterates.
    - Asynchronous calls are run to their end one after the other; what
      a call shows, fires or posts is returned as a list, in order.
      [console.error] is left out.
    - The platform is POSIX ([path.sep] is the slash).  A file URI is
      identified with its [fsPath]; [uri.toString()] is a function of
      that path, a parameter of the development.
    - What the outside gives is a parameter too: the file tree that
      [vscode.workspace.fs] shows when a call is made, what the calls on
      the state file do, what [fetch] answers, and the reads of the
      response body (finitely many).  The state file lies in the
      workspace: [withStateFile] is the tree after a call that has
      written it. *)

From Stdlib Require Import Ascii String Strings.Byte.
From Stdlib Require Import List NArith Arith Lia Bool Sorted Permutation.
Import ListNotations.

Set Implicit Arguments.
Set Warnings "-register-all".

(* ================================================================== *)
(** * JavaScript strings and the built-ins the source calls            *)
(* ================================================================== *)

Module Js.

Open Scope N_scope.

(** A string: its UTF-16 code units. *)
Definition str := list N.

(** ** [TextDecoder] (UTF-8, non-fatal, BOM stripped) *)

Record utf8 := { cp : N; need : nat; lo : N; hi : N }.

Definition utf8_idle : utf8 := {| cp := 0; need := 0; lo := 0x80; hi := 0xBF |}.

Definition between (a b c : N) : bool := (a <=? b) && (b <=? c).

(** A byte read while no sequence is open. *)
Definition utf8_lead (b : N) : list N * utf8 :=
  if b <=? 0x7F then ([b], utf8_idle)
  else if between 0xC2 b 0xDF then
    ([], {| cp := N.land b 0x1F; need := 1; lo := 0x80; hi := 0xBF |})
  else if between 0xE0 b 0xEF then
    ([], {| cp := N.land b 0xF; need := 2;
            lo := if b =? 0xE0 then 0xA0 else 0x80;
            hi := if b =? 0xED then 0x9F else 0xBF |})
  else if between 0xF0 b 0xF4 then
    ([], {| cp := N.land b 0x7; need := 3;
            lo := if b =? 0xF0 then 0x90 else 0x80;
            hi := if b =? 0xF4 then 0x8F else 0xBF |})
  else ([0xFFFD], utf8_idle).

(** One byte of the decoder: the code points it emits and the next state.
    A byte that cannot continue the open sequence ends it with U+FFFD and
    is then read again as a lead byte. *)
Definition utf8_step (s : utf8) (b : N) : list N * utf8 :=
  match need s with
  | O => utf8_lead b
  | S k =>
      if between (lo s) b (hi s) then
        let c := N.lor (N.shiftl (cp s) 6) (N.land b 0x3F) in
        match k with
        | O => ([c], utf8_idle)
        | S _ => ([], {| cp := c; need := k; lo := 0x80; hi := 0xBF |})
        end
      else
        let '(out, s') := utf8_lead b in (0xFFFD :: out, s')
  end.

Fixpoint utf8_run (s : utf8) (bytes : list N) : list N :=
  match bytes with
  | [] => match need s with O => [] | S _ => [0xFFFD] end
  | b :: rest => let '(out, s') := utf8_step s b in out ++ utf8_run s' rest
  end.

(** A code point as UTF-16 code units. *)
Definition utf16 (c : N) : str :=
  if c <? 0x10000 then [c]
  else let d := c - 0x10000 in
       [0xD800 + N.shiftr d 10; 0xDC00 + N.land d 0x3FF].

Definition strip_bom (cps : list N) : list N :=
  match cps with
  | 0xFEFF :: rest => rest
  | _ => cps
  end.

(** [new TextDecoder().decode(value)]: every call decodes on its own
    (no [stream] option), so a sequence cut by the end of [value] is
    replaced by U+FFFD. *)
Definition decode (value : list byte) : str :=
  flat_map utf16 (strip_bom (utf8_run utf8_idle (map Byte.to_N value))).

(** ** Literals *)

(** The code units of a literal of this file (written in UTF-8). *)
Definition lit (s : string) : str := decode (list_byte_of_string s).

(** A literal in which every apostrophe stands for a double quote. *)
Definition dq (s : string) : str :=
  map (fun c => if c =? 39 then 34 else c) (lit s).

(** ** Comparisons *)

Fixpoint eqb (a b : str) : bool :=
  match a, b with
  | [], [] => true
  | x :: a', y :: b' => (x =? y) && eqb a' b'
  | _, _ => false
  end.

(** [a < b] as the default [Array.prototype.sort] compares strings:
    code unit by code unit, a proper prefix first. *)
Fixpoint ltb (a b : str) : bool :=
  match a, b with
  | _, [] => false
  | [], _ :: _ => true
  | x :: a', y :: b' => (x <? y) || ((x =? y) && ltb a' b')
  end.

Definition leb (a b : str) : bool := negb (ltb b a).

(** ** [String.prototype] *)

Fixpoint startsWith (s prefix : str) : bool :=
  match prefix, s with
  | [], _ => true
  | p :: prefix', c :: s' => (c =? p) && startsWith s' prefix'
  | _ :: _, [] => false
  end.

Definition substring (s : str) (from : nat) : str := skipn from s.

(** WhiteSpace and LineTerminator of ECMAScript. *)
Definition isWhite (c : N) : bool :=
  existsb (N.eqb c)
    [0x09; 0x0A; 0x0B; 0x0C; 0x0D; 0x20; 0xA0; 0x1680; 0x2028; 0x2029;
     0x202F; 0x205F; 0x3000; 0xFEFF]
  || between 0x2000 c 0x200A.

Fixpoint trimStart (s : str) : str :=
  match s with
  | c :: s' => if isWhite c then trimStart s' else s
  | [] => []
  end.

Definition trim (s : str) : str := rev (trimStart (rev (trimStart s))).

(** [s.split(sep)] for a separator that is not empty: the separators are
    found from the left and do not overlap.  [skip] counts the code
    units of a separator still to be passed over, [cur] is the piece
    being read, reversed. *)
Fixpoint split_go (sep : str) (s : str) (skip : nat) (cur : str) : list str :=
  match s with
  | [] => [rev cur]
  | c :: s' =>
      match skip with
      | S k => split_go sep s' k cur
      | O =>
          if startsWith s sep
          then rev cur :: split_go sep s' (pred (length sep)) []
          else split_go sep s' O (c :: cur)
      end
  end.

(** With the empty separator [split] yields the code units one by one. *)
Definition split (s sep : str) : list str :=
  match sep with
  | [] => map (fun c => [c]) s
  | _ :: _ => split_go sep s O []
  end.

Fixpoint join (parts : list str) (sep : str) : str :=
  match parts with
  | [] => []
  | [p] => p
  | p :: rest => p ++ sep ++ join rest sep
  end.

(** ** [Array.prototype.sort()] on strings, default order *)

Fixpoint insert (x : str) (l : list str) : list str :=
  match l with
  | [] => [x]
  | y :: l' => if leb x y then x :: l else y :: insert x l'
  end.

Definition sort (l : list str) : list str := fold_right insert [] l.

(** ** Numbers in template literals *)

Definition digit (d : N) : N := 48 + d.

Fixpoint decimal_go (fuel : nat) (n : N) (acc : str) : str :=
  match fuel with
  | O => acc
  | S f =>
      let acc' := digit (n mod 10) :: acc in
      if n <? 10 then acc' else decimal_go f (n / 10) acc'
  end.

(** The decimal text of a natural number, as [`${n}`] prints it. *)
Definition decimal (n : N) : str := decimal_go (S (N.to_nat (N.log2 n))) n [].

End Js.

Abbreviation str := Js.str.
Abbreviation lit := Js.lit.

(* ================================================================== *)
(** * [Map<string, V>]                                                  *)
(* ================================================================== *)

(** A JavaScript [Map] with string keys: the entries in insertion
    order, no key twice. *)
Module JsMap.

Section Ops.
Variable V : Type.

Definition t := list (str * V).

Fixpoint get (m : t) (k : str) : option V :=
  match m with
  | [] => None
  | (k', v) :: m' => if Js.eqb k' k then Some v else get m' k
  end.

(** [set] keeps the place of a key that is present and appends a new one. *)
Fixpoint set (m : t) (k : str) (v : V) : t :=
  match m with
  | [] => [(k, v)]
  | (k', v') :: m' => if Js.eqb k' k then (k', v) :: m' else (k', v') :: set m' k v
  end.

Definition delete (m : t) (k : str) : t :=
  filter (fun e => negb (Js.eqb (fst e) k)) m.

(** [new Map(entries)] *)
Definition ofEntries (entries : list (str * V)) : t :=
  fold_left (fun m e => set m (fst e) (snd e)) entries [].

(** [Array.from(m.entries())] *)
Definition entries (m : t) : list (str * V) := m.

Definition keys (m : t) : list str := map fst m.

End Ops.

End JsMap.

(* ================================================================== *)
(** * [path] (POSIX) and file URIs                                      *)
(* ================================================================== *)

Module Path.

Open Scope N_scope.

Definition slash : N := 47.

(** [path.sep] *)
Definition sep : str := [slash].

(** The scan of [dirname] from the end of the path towards index 1:
    [l] holds the code units still to be read, last one first.  The
    result is what stands before the slash where the scan stops. *)
Fixpoint scanEnd (matchedSlash : bool) (l : str) : option str :=
  match l with
  | [] => None
  | c :: l' =>
      if c =? slash
      then (if matchedSlash then scanEnd true l' else Some l')
      else scanEnd false l'
  end.

(** [path.dirname] *)
Definition dirname (path : str) : str :=
  match path with
  | [] => lit "."
  | c0 :: rest =>
      let hasRoot := c0 =? slash in
      match scanEnd true (rev rest) with
      | None => if hasRoot then lit "/" else lit "."
      | Some before =>
          match before with
          | [] => if hasRoot then lit "//" else [c0]
          | _ :: _ => c0 :: rev before
          end
      end
  end.

(** The scan of [basename] from the end: trailing slashes are passed
    over, then the code units up to the next slash are collected. *)
Fixpoint scanBase (matchedSlash : bool) (l : str) (acc : str) : str :=
  match l with
  | [] => acc
  | c :: l' =>
      if c =? slash
      then (if matchedSlash then scanBase true l' acc else acc)
      else scanBase false l' (c :: acc)
  end.

(** [path.basename] with no suffix *)
Definition basename (path : str) : str := scanBase true (rev path) [].

(** The segments of an absolute path after [path.resolve]: empty
    segments and [.] are dropped, [..] removes the segment before it
    (none at the root). [acc] is reversed. *)
Fixpoint normalize_go (parts : list str) (acc : list str) : list str :=
  match parts with
  | [] => rev acc
  | p :: parts' =>
      if Js.eqb p [] || Js.eqb p (lit ".") then normalize_go parts' acc
      else if Js.eqb p (lit "..") then normalize_go parts' (tl acc)
      else normalize_go parts' (p :: acc)
  end.

Definition segments (path : str) : list str :=
  normalize_go (Js.split path sep) [].

(** What is left of two lists after their longest common prefix. *)
Fixpoint dropCommon (a b : list str) : list str * list str :=
  match a, b with
  | x :: a', y :: b' => if Js.eqb x y then dropCommon a' b' else (a, b)
  | _, _ => (a, b)
  end.

(** [path.relative(from, to)] for absolute paths (an [fsPath] is one):
    both are resolved, one [..] climbs out of every segment of [from]
    past the common prefix, and the rest of [to] follows. *)
Definition relative (from to : str) : str :=
  let '(up, down) := dropCommon (segments from) (segments to) in
  Js.join (map (fun _ => lit "..") up ++ down) sep.

(** [Uri.joinPath(uri, name)] for a normalized path and the name of a
    directory entry: the name is appended after one separator. *)
Definition joinPath (base name : str) : str :=
  if Js.eqb base sep then base ++ name else base ++ sep ++ name.

(** What the ancestor walk of a path still has to climb. *)
Definition climb (path : str) : nat :=
  if Js.eqb (dirname path) path then 0%nat else (2 * length path + 1)%nat.

End Path.

(* ================================================================== *)
(** * The policy store: [ContextStateManager]                          *)
(* ================================================================== *)

(** A file URI, identified with its [fsPath]. *)
Definition Uri := str.

(** [type FileState = 'fullContent' | 'signatures' | 'excluded'], and
    ['treeOnly'] for a path with no entry.  At run time these are
    strings, and the map holds whatever string was loaded. *)
Definition fullContent : str := lit "fullContent".
Definition signatures : str := lit "signatures".
Definition excluded : str := lit "excluded".
Definition treeOnly : str := lit "treeOnly".

(** The four policies of the specification and their tags. *)
Inductive Policy := TreeOnly | FullContent | SignaturesOnly | Excluded.

Definition tag (p : Policy) : str :=
  match p with
  | TreeOnly => treeOnly
  | FullContent => fullContent
  | SignaturesOnly => signatures
  | Excluded => excluded
  end.

(** The explicit entry of a policy: none for [TreeOnly]. *)
Definition entry (p : Policy) : option str :=
  match p with
  | TreeOnly => None
  | _ => Some (tag p)
  end.

Section Store.

(** [Uri.file(path).toString()], the key of a path in the map. *)
Variable uriString : str -> str.

Definition FileStates := JsMap.t str.

(** [this._fileStates.get(key) === 'excluded'] *)
Definition isExcluded (m : FileStates) (key : str) : bool :=
  match JsMap.get m key with
  | Some v => Js.eqb v excluded
  | None => false
  end.

(** The [while] loop of [getState]: [true] when it returns ['excluded'],
    [false] when it ends because [parentPath === currentPath]. *)
Fixpoint walkUp (fuel : nat) (m : FileStates) (currentPath : str) : bool :=
  match fuel with
  | O => false
  | S fuel' =>
      let parentPath := Path.dirname currentPath in
      if Js.eqb parentPath currentPath then false
      else if isExcluded m (uriString parentPath) then true
      else walkUp fuel' m parentPath
  end.

(** The loop, with fuel for every step it can take: [walk_unfold] below
    shows that [walk] satisfies the equation of the loop at every path,
    so the fuel never runs out. *)
Definition walk (m : FileStates) (path : str) : bool :=
  walkUp (Path.climb path) m path.

(** [v || 'treeOnly'] *)
Definition orTreeOnly (v : option str) : str :=
  match v with
  | Some (c :: s) => c :: s
  | Some [] | None => treeOnly
  end.

Definition getState (m : FileStates) (uri : Uri) : str :=
  if isExcluded m (uriString uri) then excluded
  else if walk m uri then excluded
  else orTreeOnly (JsMap.get m (uriString uri)).

End Store.

(* ================================================================== *)
(** * [JSON]                                                            *)
(* ================================================================== *)

Module Json.

Open Scope N_scope.

(** A parsed JSON text.  A number keeps the text of its literal, off
    which [isZero] reads whether its double is zero.  An object keeps
    its members as written; of two members with one key the later
    counts. *)
Inductive value :=
| JNull
| JBool (b : bool)
| JNum (text : str)
| JStr (s : str)
| JArr (items : list value)
| JObj (members : list (str * value)).

(** ** [JSON.stringify] of strings *)

Definition hexDigit (d : N) : N := if d <? 10 then 48 + d else 87 + d.

(** [\uXXXX], lower-case digits. *)
Definition unicodeEscape (c : N) : str :=
  [92; 117; hexDigit (c / 4096 mod 16); hexDigit (c / 256 mod 16);
   hexDigit (c / 16 mod 16); hexDigit (c mod 16)].

Definition isHigh (c : N) : bool := Js.between 0xD800 c 0xDBFF.
Definition isLow (c : N) : bool := Js.between 0xDC00 c 0xDFFF.

(** One code unit that is not half of a surrogate pair. *)
Definition quoteUnit (c : N) : str :=
  if c =? 8 then [92; 98]
  else if c =? 9 then [92; 116]
  else if c =? 10 then [92; 110]
  else if c =? 12 then [92; 102]
  else if c =? 13 then [92; 114]
  else if c =? 34 then [92; 34]
  else if c =? 92 then [92; 92]
  else if (c <? 32) || isHigh c || isLow c then unicodeEscape c
  else [c].

(** The inside of a quoted string: a surrogate pair is kept, a lone
    surrogate is escaped. *)
Fixpoint quoteBody (s : str) : str :=
  match s with
  | [] => []
  | c :: s' =>
      match s' with
      | d :: s'' =>
          if isHigh c && isLow d then c :: d :: quoteBody s''
          else quoteUnit c ++ quoteBody s'
      | [] => quoteUnit c
      end
  end.

Definition quote (s : str) : str := 34 :: quoteBody s ++ [34].

(** [JSON.stringify(entries)] for an array of [[key, value]] pairs of
    strings, with no indentation. *)
Definition stringifyPair (e : str * str) : str :=
  [91] ++ quote (fst e) ++ [44] ++ quote (snd e) ++ [93].

Definition stringifyEntries (entries : list (str * str)) : str :=
  [91] ++ Js.join (map stringifyPair entries) [44] ++ [93].

(** ** [JSON.parse]

    The parser reads the text one code unit at a time.  Its state is
    what it is reading ([mode]) and the arrays and objects that are
    open, innermost first ([frame]s). *)

Inductive frame :=
| InArray (done : list value)
| InObject (done : list (str * value)) (key : str).

Inductive numState :=
| NMinus | NZero | NInt | NDot | NFrac | NExp | NExpSign | NExpDigits.

Inductive mode :=
| MValue (orClose : bool)
| MKey (orClose : bool)
| MColon
| MAfter
| MString (isKey : bool) (acc : str)
| MEscape (isKey : bool) (acc : str)
| MHex (isKey : bool) (acc : str) (more : nat) (code : N)
| MNumber (st : numState) (acc : str)
| MLiteral (rest : str) (v : value)
| MDone (v : value).

Record state := { reading : mode; stack : list frame }.

Definition initial : state := {| reading := MValue false; stack := [] |}.

Definition isWs (c : N) : bool :=
  (c =? 32) || (c =? 9) || (c =? 10) || (c =? 13).

Definition isDigit (c : N) : bool := Js.between 48 c 57.

(** A value is complete: it is the result, or it joins the innermost
    open array or object. *)
Definition complete (v : value) (st : list frame) : state :=
  match st with
  | [] => {| reading := MDone v; stack := [] |}
  | InArray done :: st' =>
      {| reading := MAfter; stack := InArray (v :: done) :: st' |}
  | InObject done key :: st' =>
      {| reading := MAfter; stack := InObject ((key, v) :: done) key :: st' |}
  end.

Definition closeArray (st : list frame) : option state :=
  match st with
  | InArray done :: st' => Some (complete (JArr (rev done)) st')
  | _ => None
  end.

Definition closeObject (st : list frame) : option state :=
  match st with
  | InObject done _ :: st' => Some (complete (JObj (rev done)) st')
  | _ => None
  end.

Definition stringDone (isKey : bool) (s : str) (st : list frame) : option state :=
  if isKey then
    match st with
    | InObject done _ :: st' =>
        Some {| reading := MColon; stack := InObject done s :: st' |}
    | _ => None
    end
  else Some (complete (JStr s) st).

(** The first code unit of a value. *)
Definition startValue (c : N) (st : list frame) : option state :=
  if c =? 123 then Some {| reading := MKey true; stack := InObject [] [] :: st |}
  else if c =? 91 then Some {| reading := MValue true; stack := InArray [] :: st |}
  else if c =? 34 then Some {| reading := MString false []; stack := st |}
  else if c =? 45 then Some {| reading := MNumber NMinus [c]; stack := st |}
  else if c =? 48 then Some {| reading := MNumber NZero [c]; stack := st |}
  else if isDigit c then Some {| reading := MNumber NInt [c]; stack := st |}
  else if c =? 116 then Some {| reading := MLiteral (lit "rue") (JBool true); stack := st |}
  else if c =? 102 then Some {| reading := MLiteral (lit "alse") (JBool false); stack := st |}
  else if c =? 110 then Some {| reading := MLiteral (lit "ull") JNull; stack := st |}
  else None.

(** After a value: a comma, the closing bracket, or nothing more. *)
Definition afterValue (s : state) (c : N) : option state :=
  match reading s with
  | MAfter =>
      if isWs c then Some s
      else match stack s with
           | InArray _ :: _ =>
               if c =? 44 then Some {| reading := MValue false; stack := stack s |}
               else if c =? 93 then closeArray (stack s)
               else None
           | InObject _ _ :: _ =>
               if c =? 44 then Some {| reading := MKey false; stack := stack s |}
               else if c =? 125 then closeObject (stack s)
               else None
           | [] => None
           end
  | MDone _ => if isWs c then Some s else None
  | _ => None
  end.

Definition isExpMark (c : N) : bool := (c =? 101) || (c =? 69).

Definition numStep (n : numState) (c : N) : option numState :=
  match n with
  | NMinus => if c =? 48 then Some NZero else if isDigit c then Some NInt else None
  | NZero => if c =? 46 then Some NDot else if isExpMark c then Some NExp else None
  | NInt =>
      if isDigit c then Some NInt
      else if c =? 46 then Some NDot
      else if isExpMark c then Some NExp else None
  | NDot => if isDigit c then Some NFrac else None
  | NFrac => if isDigit c then Some NFrac else if isExpMark c then Some NExp else None
  | NExp =>
      if (c =? 43) || (c =? 45) then Some NExpSign
      else if isDigit c then Some NExpDigits else None
  | NExpSign => if isDigit c then Some NExpDigits else None
  | NExpDigits => if isDigit c then Some NExpDigits else None
  end.

Definition numEnds (n : numState) : bool :=
  match n with
  | NZero | NInt | NFrac | NExpDigits => true
  | _ => false
  end.

Definition hexValue (c : N) : option N :=
  if isDigit c then Some (c - 48)
  else if Js.between 97 c 102 then Some (c - 87)
  else if Js.between 65 c 70 then Some (c - 55)
  else None.

Definition escapeValue (c : N) : option N :=
  if c =? 34 then Some 34
  else if c =? 92 then Some 92
  else if c =? 47 then Some 47
  else if c =? 98 then Some 8
  else if c =? 102 then Some 12
  else if c =? 110 then Some 10
  else if c =? 114 then Some 13
  else if c =? 116 then Some 9
  else None.

(** One code unit of the text; [None] is a [SyntaxError]. *)
Definition step (s : state) (c : N) : option state :=
  match reading s with
  | MValue orClose =>
      if isWs c then Some s
      else if orClose && (c =? 93) then closeArray (stack s)
      else startValue c (stack s)
  | MKey orClose =>
      if isWs c then Some s
      else if c =? 34 then Some {| reading := MString true []; stack := stack s |}
      else if orClose && (c =? 125) then closeObject (stack s)
      else None
  | MColon =>
      if isWs c then Some s
      else if c =? 58 then Some {| reading := MValue false; stack := stack s |}
      else None
  | MAfter | MDone _ => afterValue s c
  | MString k acc =>
      if c =? 34 then stringDone k (rev acc) (stack s)
      else if c =? 92 then Some {| reading := MEscape k acc; stack := stack s |}
      else if c <? 32 then None
      else Some {| reading := MString k (c :: acc); stack := stack s |}
  | MEscape k acc =>
      if c =? 117 then Some {| reading := MHex k acc 4 0; stack := stack s |}
      else match escapeValue c with
           | Some e => Some {| reading := MString k (e :: acc); stack := stack s |}
           | None => None
           end
  | MHex k acc more code =>
      match hexValue c, more with
      | Some d, S O =>
          Some {| reading := MString k (code * 16 + d :: acc); stack := stack s |}
      | Some d, S more' =>
          Some {| reading := MHex k acc more' (code * 16 + d); stack := stack s |}
      | _, _ => None
      end
  | MNumber n acc =>
      match numStep n c with
      | Some n' => Some {| reading := MNumber n' (c :: acc); stack := stack s |}
      | None =>
          if numEnds n then afterValue (complete (JNum (rev acc)) (stack s)) c
          else None
      end
  | MLiteral rest v =>
      match rest with
      | r :: rest' =>
          if c =? r then
            match rest' with
            | [] => Some (complete v (stack s))
            | _ :: _ => Some {| reading := MLiteral rest' v; stack := stack s |}
            end
          else None
      | [] => None
      end
  end.

Fixpoint run (s : state) (text : str) : option state :=
  match text with
  | [] => Some s
  | c :: text' =>
      match step s c with
      | Some s' => run s' text'
      | None => None
      end
  end.

(** The end of the text. *)
Definition finish (s : state) : option value :=
  match reading s, stack s with
  | MDone v, _ => Some v
  | MNumber n acc, [] => if numEnds n then Some (JNum (rev acc)) else None
  | _, _ => None
  end.

(** [JSON.parse(text)]; [None] when it throws. *)
Definition parse (text : str) : option value :=
  match run initial text with
  | Some s => finish s
  | None => None
  end.

(** ** Reading a parsed value *)

(** [v.name] for an own member of an object; the later of two members
    with one key.  [None] is [undefined]. *)
Fixpoint lookup (members : list (str * value)) (name : str) : option value :=
  match members with
  | [] => None
  | (k, v) :: rest =>
      match lookup rest name with
      | Some v' => Some v'
      | None => if Js.eqb k name then Some v else None
      end
  end.

(** [v.name], [v] neither [null] nor [undefined], for a name that no
    array, string, number or boolean has as a property. *)
Definition member (v : value) (name : str) : option value :=
  match v with
  | JObj members => lookup members name
  | _ => None
  end.

(** [v[0]], [v] neither [null] nor [undefined]. *)
Definition first (v : value) : option value :=
  match v with
  | JArr items => hd_error items
  | JStr (c :: _) => Some (JStr [c])
  | JObj members => lookup members (lit "0")
  | _ => None
  end.

(** [v?.x]: [undefined] when [v] is [null] or [undefined]. *)
Definition optional (v : option value) (get : value -> option value) : option value :=
  match v with
  | None | Some JNull => None
  | Some v' => get v'
  end.

(** The digits at the head of a text as a number, how many they are,
    and what follows them. *)
Fixpoint digits (text : str) (value : N) (count : N) : N * N * str :=
  match text with
  | c :: text' =>
      if isDigit c then digits text' (10 * value + (c - 48)) (count + 1)
      else (value, count, text)
  | [] => (value, count, [])
  end.

(** Is the number of a literal zero?  The literal reads
    [m * 10 ^ e], [m] being its digits before the exponent mark, taken
    as one integer, and [e] its exponent less the count of the digits
    behind the point.  [JSON.parse] gives the nearest double, ties to
    the even one: zero when [m] is zero, and when [m * 10 ^ e] is at
    most [2 ^ -1075], half of the least double above zero. *)
Definition isZero (text : str) : bool :=
  let unsigned := match text with 45 :: rest => rest | _ => text end in
  let '(whole, _, afterWhole) := digits unsigned 0 0 in
  let '(m, behind, afterFraction) :=
    match afterWhole with
    | 46 :: rest => digits rest whole 0
    | _ => (whole, 0, afterWhole)
    end in
  let '(negative, exponent) :=
    match afterFraction with
    | _ :: 45 :: rest => (true, fst (fst (digits rest 0 0)))
    | _ :: 43 :: rest => (false, fst (fst (digits rest 0 0)))
    | _ :: rest => (false, fst (fst (digits rest 0 0)))
    | [] => (false, 0)
    end in
  (m =? 0)
  || (if negative then m * 2 ^ 1075 <=? 10 ^ (exponent + behind)
      else (exponent <? behind) && (m * 2 ^ 1075 <=? 10 ^ (behind - exponent))).

(** Truthiness of an expression's value. *)
Definition truthy (v : option value) : bool :=
  match v with
  | None | Some JNull => false
  | Some (JBool b) => b
  | Some (JNum text) => negb (isZero text)
  | Some (JStr s) => negb (Js.eqb s [])
  | Some (JArr _) | Some (JObj _) => true
  end.

End Json.

(* ================================================================== *)
(** * The workspace file system                                        *)
(* ================================================================== *)

(** What [vscode.workspace.fs] answers at a path, with all that lies
    beneath it. *)
Inductive Node :=
| (** [stat] says [FileType.File] *)
  File
| (** [stat] says [FileType.Directory]; [readDirectory] gives the
      entries by name, or throws ([None]) *)
  Directory (listing : option (list (str * Node)))
| (** [stat] gives another type (a symbolic link, unknown) *)
  Other
| (** [stat] throws *)
  Missing.

(** [stat] at the paths handed to the extension from outside. *)
Definition FileSystem := Uri -> Node.

(** [getAllFileUris([uri])], [node] being what is found at [uri]: a
    file is kept, a directory is listed and its entries are expanded in
    turn, anything else (a failure included, which the [catch] absorbs)
    gives nothing. *)
Fixpoint filesBelow (uri : Uri) (node : Node) : list Uri :=
  match node with
  | File => [uri]
  | Directory (Some entries) =>
      flat_map (fun e => filesBelow (Path.joinPath uri (fst e)) (snd e)) entries
  | Directory None | Other | Missing => []
  end.

Definition getAllFileUris (fs : FileSystem) (uris : list Uri) : list Uri :=
  flat_map (fun uri => filesBelow uri (fs uri)) uris.

(* ================================================================== *)
(** * The state file and what the user is shown                        *)
(* ================================================================== *)

(** The directory [.lollms] and the file [context_state.json] in it.
    The file is given by the text it holds: [Buffer.from(data, 'utf-8')]
    and [Buffer.from(bytes).toString('utf-8')] are inverse to each
    other on texts with no lone surrogate, as every [JSON.stringify]
    result is.  The three flags say which calls throw.  Both lie in
    the workspace tree: [withStateFile] below is the tree with them. *)
Record Disk := {
  dirExists : bool;
  stateFile : option str;
  mkdirThrows : bool;
  writeThrows : bool;
  readThrows : bool
}.

(** What a call makes visible outside the manager ([console.error] is
    left out). *)
Inductive Effect :=
| (** [vscode.window.showErrorMessage] *)
  ShowError (message : str)
| (** [this._onDidChange.fire] *)
  Fire (uris : list Uri).

Record Manager := {
  fileStates : FileStates;
  stateFilePath : option str
}.

Definition withStates (mgr : Manager) (m : FileStates) : Manager :=
  {| fileStates := m; stateFilePath := stateFilePath mgr |}.

Definition saveFailed : str := lit "Lollms: Failed to save context state.".
Definition loadFailed : str :=
  lit "Lollms: Could not load context state from .lollms folder.".

(** [saveState] *)
Definition saveState (mgr : Manager) (disk : Disk) : Disk * list Effect :=
  match stateFilePath mgr with
  | None => (disk, [])
  | Some _ =>
      if negb (dirExists disk) && mkdirThrows disk then (disk, [ShowError saveFailed])
      else
        let made :=
          {| dirExists := true; stateFile := stateFile disk;
             mkdirThrows := mkdirThrows disk; writeThrows := writeThrows disk;
             readThrows := readThrows disk |} in
        if writeThrows disk then (made, [ShowError saveFailed])
        else
          let data := Json.stringifyEntries (JsMap.entries (fileStates mgr)) in
          ({| dirExists := true; stateFile := Some data;
              mkdirThrows := mkdirThrows disk; writeThrows := writeThrows disk;
              readThrows := readThrows disk |}, [])
  end.

(** What [new Map<string, FileState>(entries)] makes of a parsed text. *)
Inductive Entries :=
| (** of every entry, the properties [0] and [1] are strings *)
  Typed (entries : list (str * str))
| (** a [TypeError]: the value cannot be iterated, or an entry is not an
      object *)
  Throws
| (** [new Map] accepts the value, but a key or a value is not a string *)
  Untyped.

(** One entry: the key is [item[0]] and the value [item[1]], of an
    array or of any other object. *)
Definition entryOf (item : Json.value) : Entries :=
  match item with
  | Json.JArr (Json.JStr k :: Json.JStr v :: _) => Typed [(k, v)]
  | Json.JArr _ => Untyped
  | Json.JObj members =>
      match Json.lookup members (lit "0"), Json.lookup members (lit "1") with
      | Some (Json.JStr k), Some (Json.JStr v) => Typed [(k, v)]
      | _, _ => Untyped
      end
  | _ => Throws
  end.

(** The entries are read in order; the first that is no object throws. *)
Fixpoint entriesOfItems (items : list Json.value) : Entries :=
  match items with
  | [] => Typed []
  | item :: rest =>
      match entryOf item with
      | Throws => Throws
      | Untyped =>
          match entriesOfItems rest with
          | Throws => Throws
          | _ => Untyped
          end
      | Typed e =>
          match entriesOfItems rest with
          | Typed es => Typed (e ++ es)
          | other => other
          end
      end
  end.

Definition entriesOf (parsed : Json.value) : Entries :=
  match parsed with
  | Json.JArr items => entriesOfItems items
  | Json.JNull | Json.JStr [] => Typed []
  | _ => Throws
  end.

(** [loadState].  [None]: the file parses to entries that are not pairs
    of strings; the map the source then builds is not a
    [Map<string, string>], and this model does not describe it. *)
Definition loadState (mgr : Manager) (disk : Disk) : option (Manager * list Effect) :=
  match stateFilePath mgr, stateFile disk with
  | None, _ | _, None => Some (mgr, [])
  | Some _, Some text =>
      let reset := Some (withStates mgr [], [ShowError loadFailed]) in
      if readThrows disk then reset
      else match Json.parse text with
           | None => reset
           | Some parsed =>
               match entriesOf parsed with
               | Throws => reset
               | Typed entries =>
                   Some (withStates mgr (JsMap.ofEntries entries), [Fire []])
               | Untyped => None
               end
           end
  end.

Section Manager.

Variable uriString : str -> str.

(** The body of [allFileUris.forEach] in [setState]. *)
Definition applyState (state : str) (m : FileStates) (uri : Uri) : FileStates :=
  if Js.eqb state treeOnly then JsMap.delete m (uriString uri)
  else JsMap.set m (uriString uri) state.

(** [setState]: the manager and the disk after the call, and what it
    showed and fired, in order. *)
Definition setState (fs : FileSystem) (mgr : Manager) (disk : Disk)
    (uris : list Uri) (state : str) : Manager * Disk * list Effect :=
  let allFileUris := getAllFileUris fs uris in
  let mgr' := withStates mgr (fold_left (applyState state) allFileUris (fileStates mgr)) in
  let '(disk', shown) := saveState mgr' disk in
  (mgr', disk', shown ++ [Fire allFileUris]).

Definition nextState (currentState : option str) : str :=
  match currentState with
  | Some v =>
      if Js.eqb v fullContent then signatures
      else if Js.eqb v signatures then treeOnly
      else fullContent
  | None => fullContent
  end.

(** [cycleState] *)
Definition cycleState (fs : FileSystem) (mgr : Manager) (disk : Disk) (uri : Uri)
    : Manager * Disk * list Effect :=
  let currentState := JsMap.get (fileStates mgr) (uriString uri) in
  setState fs mgr disk [uri] (nextState currentState).

End Manager.

(* ================================================================== *)
(** * The state file in the workspace                                  *)
(* ================================================================== *)

(** [stateFilePath] lies beneath the first workspace folder, so that
    what [saveState] makes there is found by every later walk of the
    tree: [mkdirSync] makes the directory [.lollms], [writeFile] the
    file [context_state.json]. *)

(** [names] without [prefix], when it starts with it. *)
Fixpoint below (prefix names : list str) : option (list str) :=
  match prefix, names with
  | [], _ => Some names
  | p :: prefix', n :: names' => if Js.eqb p n then below prefix' names' else None
  | _ :: _, [] => None
  end.

(** The node after the path [names] beneath it was made: a directory
    where nothing was along the path ([recursive]), and at its end a
    file ([isFile]) or a directory, where nothing was.  A new entry is
    listed after the others (the order of a listing is the host's).
    What stands in the way is left as it is: the call throws there. *)
Fixpoint made (isFile : bool) (names : list str) (node : Node) : Node :=
  match names with
  | [] =>
      match node with
      | Missing => if isFile then File else Directory (Some [])
      | _ => node
      end
  | name :: rest =>
      match node with
      | Directory (Some entries) =>
          Directory (Some
            (if existsb (fun e => Js.eqb (fst e) name) entries
             then map (fun e => if Js.eqb (fst e) name
                                then (fst e, made isFile rest (snd e)) else e)
                    entries
             else entries ++ [(name, made isFile rest Missing)]))
      | Missing => Directory (Some [(name, made isFile rest Missing)])
      | File | Other | Directory None => node
      end
  end.

(** The tree [fs] with the state file as [disk] holds it: what
    [vscode.workspace.fs] shows after a call that found the tree [fs]
    and left the disk as [disk]. *)
Definition withStateFile (fs : FileSystem) (mgr : Manager) (disk : Disk) : FileSystem :=
  fun uri =>
    match stateFilePath mgr with
    | None => fs uri
    | Some path =>
        match stateFile disk, dirExists disk with
        | Some _, _ =>
            match below (Path.segments uri) (Path.segments path) with
            | Some names => made true names (fs uri)
            | None => fs uri
            end
        | None, true =>
            match below (Path.segments uri) (Path.segments (Path.dirname path)) with
            | Some names => made false names (fs uri)
            | None => fs uri
            end
        | None, false => fs uri
        end
    end.

(* ================================================================== *)
(** * The context assembler                                            *)
(* ================================================================== *)

(** [type FileTree = { [key: string]: FileTree }]: an object by its own
    members.  The model is of parts that no object inherits, with
    [Object.prototype] as the engine made it: at one of its names
    ([inherited] below) [level[part]] is not [undefined] in an empty
    object, what is found there is shared by all objects and outlives
    the call, and [addPath] does not say what the source then does.
    The properties that say which paths the tree holds are stated for
    paths with no such part. *)
Inductive FileTree := Level (members : list (str * FileTree)).

Definition membersOf (t : FileTree) : list (str * FileTree) :=
  match t with Level members => members end.

(** [Object.keys(level)] *)
Definition keysOf (t : FileTree) : list str := map fst (membersOf t).

Fixpoint member (members : list (str * FileTree)) (part : str) : option FileTree :=
  match members with
  | [] => None
  | (k, sub) :: rest => if Js.eqb k part then Some sub else member rest part
  end.

Fixpoint setMember (members : list (str * FileTree)) (part : str) (sub : FileTree)
    : list (str * FileTree) :=
  match members with
  | [] => [(part, sub)]
  | (k, old) :: rest =>
      if Js.eqb k part then (k, sub) :: rest else (k, old) :: setMember rest part sub
  end.

(** [parts.reduce((level, part) => (level[part] = level[part] || {}), tree)]:
    the tree after the members along [parts] have been made. *)
Fixpoint addPath (parts : list str) (tree : FileTree) : FileTree :=
  match parts with
  | [] => tree
  | part :: rest =>
      let sub := match member (membersOf tree) part with
                 | Some s => s
                 | None => Level []
                 end in
      Level (setMember (membersOf tree) part (addPath rest sub))
  end.

(** The names of the properties of [Object.prototype], which every
    object inherits. *)
Definition inheritedNames : list str :=
  [lit "constructor"; lit "__defineGetter__"; lit "__defineSetter__";
   lit "hasOwnProperty"; lit "__lookupGetter__"; lit "__lookupSetter__";
   lit "isPrototypeOf"; lit "propertyIsEnumerable"; lit "toString";
   lit "valueOf"; lit "__proto__"; lit "toLocaleString"].

Definition inherited (part : str) : bool := existsb (Js.eqb part) inheritedNames.

(** [a.flatMap((x, i) => f(x, i))], [i] counted from [start]. *)
Fixpoint flatMapi (A B : Type) (f : A -> nat -> list B) (start : nat) (a : list A)
    : list B :=
  match a with
  | [] => []
  | x :: a' => f x start ++ flatMapi f (S start) a'
  end.

(** [k(level[entry])] for a member that is there. *)
Definition atMember (A : Type) (k : FileTree -> A) (none : A) (entry : str)
    : list (str * FileTree) -> A :=
  fix go (members : list (str * FileTree)) : A :=
    match members with
    | [] => none
    | (name, sub) :: rest => if Js.eqb name entry then k sub else go rest
    end.

Definition branch : str := lit "├─ ".
Definition corner : str := lit "└─ ".
Definition bar : str := lit "│  ".
Definition blank : str := lit "   ".
Definition folder : str := lit "📁".
Definition page : str := lit "📄".

Definition badgeOf (state : str) : str :=
  if Js.eqb state fullContent then lit " [+]"
  else if Js.eqb state signatures then lit " [S]"
  else [].

(** [s.replace(/\\/g, '/')] *)
Definition forwardSlashes (s : str) : str :=
  map (fun c => if N.eqb c 92 then Path.slash else c) s.

(** [a || b] on strings *)
Definition orElse (a b : str) : str :=
  match a with
  | [] => b
  | _ :: _ => a
  end.

(** What the panel posts to the webview. *)
Inductive Message :=
| ContextLoading
| GenerateContextError (error : str)
| GenerateContext (markdown : str) (files : list str)
| ChatChunk (chunk : Json.value)
| ChatError (error : str)
| ChatEnd.

Section Assembler.

Variable uriString : str -> str.

(** The store that [ContextStateManager.getInstance()] holds. *)
Variable states : FileStates.

(** The line of one entry, without what stands below it. *)
Definition entryLine (isLast isDir : bool) (entry : str) (state : str) : str :=
  (if isLast then corner else branch)
    ++ (if isDir then folder else page) ++ lit " " ++ entry ++ badgeOf state.

(** [buildLines] *)
Fixpoint buildLines (level : FileTree) (currentPath : Uri) : list str :=
  match level with
  | Level members =>
      let entries := Js.sort (map fst members) in
      flatMapi
        (fun entry i =>
           let uri := Path.joinPath currentPath entry in
           let state := getState uriString states uri in
           let isLast := Nat.eqb i (length entries - 1) in
           let isDir :=
             atMember (fun sub => negb (Nat.eqb (length (membersOf sub)) 0))
               false entry members in
           let subLines :=
             atMember (fun sub =>
                         if negb (Nat.eqb (length (membersOf sub)) 0)
                         then buildLines sub uri else [])
               [] entry members in
           entryLine isLast isDir entry state
             :: map (fun s => (if isLast then blank else bar) ++ s) subLines)
        0 entries
  end.

(** [vscode.workspace.name] *)
Variable workspaceName : option str.

(** The tree that [uris.forEach] builds. *)
Definition treeOf (uris : list Uri) (rootUri : Uri) : FileTree :=
  fold_left
    (fun tree uri =>
       let relativePath := Path.relative rootUri uri in
       match relativePath with
       | [] => tree
       | _ :: _ => addPath (Js.split relativePath Path.sep) tree
       end)
    uris (Level []).

Definition newline : str := [10%N].

(** [generateMarkdownTreeFromUris] *)
Definition generateMarkdownTreeFromUris (uris : list Uri) (rootUri : Uri) : str :=
  let tree := treeOf uris rootUri in
  let rootName :=
    orElse (Path.basename rootUri)
      (orElse (match workspaceName with Some n => n | None => [] end)
         (lit "Project")) in
  Js.join ((folder ++ lit " " ++ rootName ++ lit "/") :: buildLines tree rootUri)
    newline.

(** [extractSignatures] and [path.extname]: how a file's text is cut
    down to its signatures and how its extension is read bear on no
    property below. *)
Variable extractSignatures : str -> str -> str.
Variable extname : str -> str.


(** [vscode.workspace.fs.readFile(uri)]: the bytes, or the message of
    the error it throws. *)
Variable readFile : Uri -> list byte + str.


(** The files that get a section. *)
Definition hasContent (uri : Uri) : bool :=
  let state := getState uriString states uri in
  Js.eqb state fullContent || Js.eqb state signatures.

Definition includedFilesInTree (fs : FileSystem) (rootUri : Uri) : list Uri :=
  filter (fun uri => negb (Js.eqb (getState uriString states uri) excluded))
    (getAllFileUris fs [rootUri]).

Definition sectionFiles (fs : FileSystem) (rootUri : Uri) : list Uri :=
  filter hasContent (includedFilesInTree fs rootUri).


Definition blankLine : str := [10%N; 10%N].



End Assembler.

(* ================================================================== *)
(** * The stream relay                                                 *)
(* ================================================================== *)

(** What [reader.read()] gives, call after call. *)
Inductive Stream :=
| (** [done] *)
  Finished
| (** the read rejects, with an error of this message *)
  ReadThrows (message : str)
| (** a value, and what the later reads give *)
  Chunk (value : list byte) (rest : Stream).

Record Response := {
  ok : bool;
  status : N;
  body : option Stream
}.

(** What [fetch] does with the request. *)
Inductive Fetched :=
| FetchThrows (message : str)
| Responds (response : Response).

Definition dataPrefix : str := lit "data: ".
Definition doneMark : str := lit "[DONE]".

(** [parsed.choices?.[0]?.delta?.content]; [None] when reading
    [parsed.choices] throws, [parsed] being [null]. *)
Definition deltaContent (parsed : Json.value) : option (option Json.value) :=
  match parsed with
  | Json.JNull => None
  | _ =>
      let choices := Json.member parsed (lit "choices") in
      let choice := Json.optional choices Json.first in
      let delta := Json.optional choice (fun v => Json.member v (lit "delta")) in
      Some (Json.optional delta (fun v => Json.member v (lit "content")))
  end.

(** The body of the [forEach] in [handleChatRequest], for one frame.
    Both failures inside the [try] end in the [catch], which logs. *)
Definition relayFrame (l : str) : list Message :=
  let jsonStr := Js.substring l 5 in
  if Js.eqb (Js.trim jsonStr) doneMark then []
  else match Json.parse jsonStr with
       | None => []
       | Some parsed =>
           match deltaContent parsed with
           | Some (Some content) =>
               if Json.truthy (Some content) then [ChatChunk content] else []
           | Some None | None => []
           end
       end.

(** One turn of the [while] loop, after a read that is not [done]. *)
Definition relayRead (value : list byte) : list Message :=
  flat_map relayFrame
    (filter (fun l => Js.startsWith l dataPrefix)
       (Js.split (Js.decode value) blankLine)).

(** The [while] loop: what is posted up to the end of the stream; a
    read that throws leaves the loop for the [catch]. *)
Fixpoint relayStream (s : Stream) : list Message :=
  match s with
  | Finished => []
  | ReadThrows message => [ChatError message]
  | Chunk value rest => relayRead value ++ relayStream rest
  end.

Definition notConfigured : str := lit "Lollms host not configured.".

(** The URL of the request. *)
Definition completionsUrl (host : str) : str := host ++ lit "/v1/chat/completions".

(** The [try] block of [handleChatRequest] with its [catch]: what is
    posted from the request to the end of the stream, or to the error.
    [fetch] is what answers the request made to the URL. *)
Definition attempt (fetch : str -> Fetched) (url : str) : list Message :=
  match fetch url with
  | FetchThrows message => [ChatError message]
  | Responds response =>
      match ok response, body response with
      | true, Some stream => relayStream stream
      | _, _ => [ChatError (lit "API error: " ++ Js.decimal (status response))]
      end
  end.

(** [handleChatRequest]: [host] is [config.get('host')]; the messages
    posted, in order. *)
Definition handleChatRequest (host : option str) (fetch : str -> Fetched)
    : list Message :=
  match host with
  | None | Some [] => [ChatError notConfigured]
  | Some (c :: h) => attempt fetch (completionsUrl (c :: h)) ++ [ChatEnd]
  end.

(* ================================================================== *)
(** * The decorations of the explorer: [LollmsFileDecorationProvider]  *)
(* ================================================================== *)

(** [new vscode.FileDecoration(badge, tooltip, color)], the colour by
    the id of its [ThemeColor]. *)
Record FileDecoration := {
  decorationBadge : str;
  tooltip : str;
  color : str
}.

(** [provideFileDecoration]; [None] is [undefined]. *)
Definition provideFileDecoration (uriString : str -> str) (states : FileStates)
    (uri : Uri) : option FileDecoration :=
  let state := getState uriString states uri in
  if Js.eqb state fullContent then
    Some {| decorationBadge := lit "+"; tooltip := lit "Include Full Content";
            color := lit "gitDecoration.addedResourceForeground" |}
  else if Js.eqb state signatures then
    Some {| decorationBadge := lit "S"; tooltip := lit "Include Signatures Only";
            color := lit "gitDecoration.modifiedResourceForeground" |}
  else if Js.eqb state excluded then
    Some {| decorationBadge := lit "✗"; tooltip := lit "Excluded from Context";
            color := lit "gitDecoration.untrackedResourceForeground" |}
  else None.

(** What the provider fires when the store fires [uris]:
    [uris.length > 0 ? uris : undefined]. *)
Definition onDidChangeFileDecorations (uris : list Uri) : option (list Uri) :=
  match uris with
  | [] => None
  | _ :: _ => Some uris
  end.

(* ================================================================== *)
(** * The sidebar: [LollmsSidebarProvider]                             *)
(* ================================================================== *)

(** [vscode.workspace.fs.readDirectory(uri)]: the entries of a
    directory, [None] when the call throws.  (An entry stands with the
    node found at it; its [FileType] is [Directory] when the node is
    one.  A symbolic link to a directory, which [readDirectory] would
    list, is not described: [Other] nodes hold nothing.) *)
Definition readDirectory (fs : FileSystem) (uri : Uri) : option (list (str * Node)) :=
  match fs uri with
  | Directory listing => listing
  | File | Other | Missing => None
  end.

Inductive ThemeIcon :=
| (** ['file-code'] *) FileCode
| (** ['symbol-function'] *) SymbolFunction
| (** [ThemeIcon.Folder] *) FolderIcon
| (** [ThemeIcon.File] *) FileIcon.

(** A [vscode.TreeItem], by the properties the provider sets.
    [collapsible]: the state is [Collapsed], not [None].  [command]: the
    argument of the item's command, which is always
    [lollms_to_vs_code.cycleContextState]. *)
Record TreeItem := {
  label : str;
  collapsible : bool;
  resourceUri : option Uri;
  command : option Uri;
  description : option str;
  iconPath : option ThemeIcon
}.

(** The item shown when no folder is open. *)
Definition openFolderItem : TreeItem :=
  {| label := lit "Please open a folder to use Lollms."; collapsible := false;
     resourceUri := None; command := None; description := None; iconPath := None |}.

Section Sidebar.

Variable uriString : str -> str.
Variable states : FileStates.

(** The sign of [a.localeCompare(b)], which the locale of the host
    decides. *)
Variable localeCompare : str -> str -> comparison.

(** The body of the loop of [getDirectoryContents] for one entry: the
    item pushed, if any. *)
Definition itemOf (dirUri : Uri) (e : str * Node) : list TreeItem :=
  let name := fst e in
  let uri := Path.joinPath dirUri name in
  if Js.eqb (getState uriString states uri) excluded then []
  else
    let isDirectory := match snd e with Directory _ => true | _ => false end in
    let state := getState uriString states uri in
    [{| label := name;
        collapsible := isDirectory;
        resourceUri := Some uri;
        command := Some uri;
        description :=
          if Js.eqb state fullContent then Some (lit "[+]")
          else if Js.eqb state signatures then Some (lit "[S]")
          else None;
        iconPath :=
          Some (if Js.eqb state fullContent then FileCode
                else if Js.eqb state signatures then SymbolFunction
                else if isDirectory then FolderIcon else FileIcon) |}].

(** The comparator of the final [sort]: a directory before anything
    else, then by label. *)
Definition compareItems (a b : TreeItem) : comparison :=
  if Bool.eqb (collapsible a) (collapsible b)
  then localeCompare (label a) (label b)
  else if collapsible a then Lt else Gt.

(** [items.sort(compare)]: the sort is stable, so with a comparator
    that orders the items consistently the result is the one of
    inserting each item before the first that compares greater. *)
Fixpoint insertItem (x : TreeItem) (l : list TreeItem) : list TreeItem :=
  match l with
  | [] => [x]
  | y :: l' =>
      match compareItems x y with
      | Gt => y :: insertItem x l'
      | _ => x :: l
      end
  end.

Definition sortItems (items : list TreeItem) : list TreeItem :=
  fold_right insertItem [] items.

(** [getDirectoryContents]; [None] when [readDirectory] throws and the
    promise is rejected. *)
Definition getDirectoryContents (fs : FileSystem) (dirUri : Uri)
    : option (list TreeItem) :=
  match readDirectory fs dirUri with
  | Some entries => Some (sortItems (flat_map (itemOf dirUri) entries))
  | None => None
  end.

(** [getChildren]: of the root when [element] is [None].  Reading
    [workspaceFolders[0].uri] in an empty array throws, and so does
    listing at an item with no [resourceUri]. *)
Definition getChildren (fs : FileSystem) (workspaceFolders : option (list Uri))
    (element : option TreeItem) : option (list TreeItem) :=
  match workspaceFolders with
  | None => Some [openFolderItem]
  | Some folders =>
      match element with
      | Some item =>
          match resourceUri item with
          | Some rootUri => getDirectoryContents fs rootUri
          | None => None
          end
      | None =>
          match folders with
          | rootUri :: _ => getDirectoryContents fs rootUri
          | [] => None
          end
      end
  end.

End Sidebar.
(* ================================================================== *)
(** * The commands that reach the store                                *)
(* ================================================================== *)

(** The commands of [activate] that call the store, and the webview's
    [removeFile] message, with their arguments.  A command of the
    [setContext] family gets the URI it was invoked on (that of the tree
    item, when invoked from the sidebar) and, from a multiple selection
    in the explorer, the selected URIs.  [removeFile] gets a path, of
    which it makes the URI with [vscode.Uri.file]. *)
Inductive Command :=
| cycleContextState (uri : Uri)
| setContextFull (uriOrTreeItem : Uri) (uris : option (list Uri))
| setContextSignatures (uriOrTreeItem : Uri) (uris : option (list Uri))
| setContextTreeOnly (uriOrTreeItem : Uri) (uris : option (list Uri))
| setContextExcluded (uriOrTreeItem : Uri) (uris : option (list Uri))
| removeFile (path : Uri).

(** [uris || [uriOrTreeItem]]: an array is truthy, the empty one too. *)
Definition selection (uriOrTreeItem : Uri) (uris : option (list Uri)) : list Uri :=
  match uris with
  | Some selected => selected
  | None => [uriOrTreeItem]
  end.

Section Commands.

Variable uriString : str -> str.

(** What a command does to the store. *)
Definition runCommand (fs : FileSystem) (mgr : Manager) (disk : Disk) (c : Command)
    : Manager * Disk * list Effect :=
  match c with
  | cycleContextState uri => cycleState uriString fs mgr disk uri
  | setContextFull target uris =>
      setState uriString fs mgr disk (selection target uris) fullContent
  | setContextSignatures target uris =>
      setState uriString fs mgr disk (selection target uris) signatures
  | setContextTreeOnly target uris =>
      setState uriString fs mgr disk (selection target uris) treeOnly
  | setContextExcluded target uris =>
      setState uriString fs mgr disk (selection target uris) excluded
  | removeFile path => setState uriString fs mgr disk [path] treeOnly
  end.

(** Commands run one after the other, each on the file system of its
    time. *)
Fixpoint runCommands (steps : list (FileSystem * Command)) (mgr : Manager) (disk : Disk)
    : Manager * Disk :=
  match steps with
  | [] => (mgr, disk)
  | (fs, c) :: rest =>
      let '(mgr', disk', _) := runCommand fs mgr disk c in
      runCommands rest mgr' disk'
  end.

End Commands.
(* ================================================================== *)
(** * [getNonce]                                                       *)
(* ================================================================== *)

Definition nonceAlphabet : str :=
  lit "ABCDEFGHIJKLMNOPQRSTUVWXYZabcdefghijklmnopqrstuvwxyz0123456789".

(** [s.charAt(i)]: the empty string past the end. *)
Definition charAt (s : str) (i : nat) : str :=
  match nth_error s i with
  | Some c => [c]
  | None => []
  end.

(** [getNonce]; [random i] is what [Math.floor(Math.random() * 62)]
    gives in turn [i] of the loop. *)
Definition getNonce (random : nat -> nat) : str :=
  fold_left (fun t i => t ++ charAt nonceAlphabet (random i)) (seq 0 32) [].

(** A letter of the Latin alphabet or a digit. *)
Definition isAlphanumeric (c : N) : bool :=
  Js.between 65 c 90 || Js.between 97 c 122 || Js.between 48 c 57.
(* ================================================================== *)
(** * [findCommonBasePath]                                             *)
(* ================================================================== *)

(** The loop [while (i < first.length && first[i] === last[i]) i++]
    followed by [first.slice(0, i)]. *)
Fixpoint commonParts (first last : list str) : list str :=
  match first, last with
  | x :: first', y :: last' =>
      if Js.eqb x y then x :: commonParts first' last' else []
  | _, _ => []
  end.

(** [findCommonBasePath]; [workspaceFolders] is what
    [vscode.workspace.workspaceFolders] holds, by the [fsPath] of each
    folder. *)
Definition findCommonBasePath (workspaceFolders : option (list Uri))
    (files : list str) : str :=
  match files with
  | [] =>
      match workspaceFolders with
      | Some (folder :: _) => folder
      | Some [] | None => []
      end
  | [file] => Path.dirname file
  | _ :: _ :: _ =>
      let sorted := Js.sort files in
      let first := Js.split (hd [] sorted) Path.sep in
      let last := Js.split (List.last sorted []) Path.sep in
      Js.join (commonParts first last) Path.sep
  end.
(* ================================================================== *)
(** * Regular expressions, as [extractSignatures] uses them            *)
(* ================================================================== *)

(** The backtracking matcher of ECMAScript for the patterns of this
    file (code units, no [i], [s] or [u] flag): a pattern is matched
    from a place of the input and hands the place it reached to a
    continuation, which may refuse it; the alternatives are then tried
    in the order the language fixes.  In all these patterns a star or
    a plus, greedy or lazy, stands on a class of characters, and no
    pattern reads a group again. *)
Module RegExp.

Open Scope N_scope.

Inductive regex :=
| (** a pattern character *)
  Chr (c : N)
| (** a class: [\s], [\w], [.], [[...]] *)
  Class (member : N -> bool)
| (** [ab] *)
  Seq (a b : regex)
| (** [a|b] *)
  Alt (a b : regex)
| (** [a?] *)
  Opt (a : regex)
| (** a class under a star: greedy, or lazy (with the question mark) *)
  Many (greedy : bool) (member : N -> bool)
| (** the capturing group of number [n] *)
  Group (n : nat) (a : regex)
| (** [^] *)
  Bol
| (** [$] *)
  Eol
| (** the empty pattern *)
  Empty.

(** [abc]: the characters one after the other. *)
Definition text (s : str) : regex := fold_right (fun c r => Seq (Chr c) r) Empty s.

(** The parts of a pattern, one after the other. *)
Definition seq (parts : list regex) : regex := fold_right Seq Empty parts.

(** [c+] *)
Definition some (member : N -> bool) : regex := Seq (Class member) (Many true member).

(** LineTerminator *)
Definition isLineTerminator (c : N) : bool :=
  (c =? 0x0A) || (c =? 0x0D) || (c =? 0x2028) || (c =? 0x2029).

(** [.] *)
Definition dot (c : N) : bool := negb (isLineTerminator c).

(** [\s] *)
Definition space : N -> bool := Js.isWhite.

(** [\w] *)
Definition word (c : N) : bool :=
  Js.between 97 c 122 || Js.between 65 c 90 || Js.between 48 c 57 || (c =? 95).

(** [[a-zA-Z_]] *)
Definition letter (c : N) : bool :=
  Js.between 97 c 122 || Js.between 65 c 90 || (c =? 95).

(** [[\w$]] *)
Definition wordOrDollar (c : N) : bool := word c || (c =? 36).

(** A place in the input: what was passed, last code unit first, what
    is still to be read, and the groups captured so far. *)
Record state := {
  passed : str;
  ahead : str;
  captures : list (nat * str)
}.

Definition step (x : state) (c : N) (s : str) : state :=
  {| passed := c :: passed x; ahead := s; captures := captures x |}.

(** What was read between the place [x] and the later place [y]. *)
Definition between (x y : state) : str :=
  rev (firstn (length (passed y) - length (passed x)) (passed y)).

(** A class under the greedy star: one more character first, the
    continuation when that fails. *)
Fixpoint manyGreedy (member : N -> bool) (passed ahead : str)
    (captures : list (nat * str)) (k : state -> option state) : option state :=
  let here := {| passed := passed; ahead := ahead; captures := captures |} in
  match ahead with
  | c :: s =>
      if member c then
        match manyGreedy member (c :: passed) s captures k with
        | Some r => Some r
        | None => k here
        end
      else k here
  | [] => k here
  end.

(** A class under the lazy star: the continuation first, one more
    character when it fails. *)
Fixpoint manyLazy (member : N -> bool) (passed ahead : str)
    (captures : list (nat * str)) (k : state -> option state) : option state :=
  let here := {| passed := passed; ahead := ahead; captures := captures |} in
  match k here with
  | Some r => Some r
  | None =>
      match ahead with
      | c :: s => if member c then manyLazy member (c :: passed) s captures k else None
      | [] => None
      end
  end.

Section Matcher.

(** The flag [m]. *)
Variable multiline : bool.

Definition atLineStart (x : state) : bool :=
  match passed x with
  | [] => true
  | c :: _ => multiline && isLineTerminator c
  end.

Definition atLineEnd (x : state) : bool :=
  match ahead x with
  | [] => true
  | c :: _ => multiline && isLineTerminator c
  end.

(** The matcher of a pattern: from [x], with the continuation [k]. *)
Fixpoint matcher (r : regex) (x : state) (k : state -> option state) : option state :=
  match r with
  | Chr c =>
      match ahead x with
      | a :: s => if a =? c then k (step x a s) else None
      | [] => None
      end
  | Class member =>
      match ahead x with
      | a :: s => if member a then k (step x a s) else None
      | [] => None
      end
  | Seq a b => matcher a x (fun y => matcher b y k)
  | Alt a b =>
      match matcher a x k with
      | Some r => Some r
      | None => matcher b x k
      end
  | Opt a =>
      match matcher a x
              (fun y => if Nat.eqb (length (ahead y)) (length (ahead x))
                        then None else k y) with
      | Some r => Some r
      | None => k x
      end
  | Many true member => manyGreedy member (passed x) (ahead x) (captures x) k
  | Many false member => manyLazy member (passed x) (ahead x) (captures x) k
  | Group n a =>
      matcher a x
        (fun y => k {| passed := passed y; ahead := ahead y;
                       captures := (n, between x y) :: captures y |})
  | Bol => if atLineStart x then k x else None
  | Eol => if atLineEnd x then k x else None
  | Empty => k x
  end.

(** [exec]: the first place from which the pattern matches, and the
    place where the match ends. *)
Fixpoint search (r : regex) (passed ahead : str) : option (state * state) :=
  let here := {| passed := passed; ahead := ahead; captures := [] |} in
  match matcher r here Some with
  | Some y => Some (here, y)
  | None =>
      match ahead with
      | c :: s => search r (c :: passed) s
      | [] => None
      end
  end.

End Matcher.

(** [match[n]] of a group that took part in the match. *)
Fixpoint capture (n : nat) (captures : list (nat * str)) : str :=
  match captures with
  | [] => []
  | (i, s) :: rest => if Nat.eqb i n then s else capture n rest
  end.

(** [s.match(r)] for a pattern without the flag [g]: [match[0]] and the
    groups. *)
Definition exec (r : regex) (s : str) : option (str * list (nat * str)) :=
  match search false r [] s with
  | Some (x, y) => Some (between x y, captures y)
  | None => None
  end.

(** [s.replace(r, '')] for a pattern without the flag [g]. *)
Definition remove (r : regex) (s : str) : str :=
  match search false r [] s with
  | Some (x, y) => rev (passed x) ++ ahead y
  | None => s
  end.

(** The loop [while ((match = r.exec(code)) !== null) push(match[0])]
    for a pattern with the flags [g] and [m], from [lastIndex] on:
    every match sets [lastIndex] to its end.  [None]: [lastIndex] does
    not move at a match and the loop goes on for ever (or the turns
    counted by [fuel] are used up). *)
Fixpoint matches (fuel : nat) (r : regex) (passed ahead : str) : option (list str) :=
  match fuel with
  | O => None
  | S fuel' =>
      match search true r passed ahead with
      | None => Some []
      | Some (x, y) =>
          if Nat.ltb (length (RegExp.ahead y)) (length ahead)
          then match matches fuel' r (RegExp.passed y) (RegExp.ahead y) with
               | Some found => Some (between x y :: found)
               | None => None
               end
          else None
      end
  end.

End RegExp.

(* ================================================================== *)
(** * [extractSignatures]                                              *)
(* ================================================================== *)

Module Signatures.

Import RegExp.

(** [classRegex], part by part:  ^  \s*  class  \s+  ( [a-zA-Z_] \w* ) *)
Definition classRegex : regex :=
  seq [Bol; Many true space; text (lit "class"); some space;
       Group 1 (Seq (Class letter) (Many true word))].

(** [funcRegex], part by part:
    ^  \s*  (?: async \s+ )?  def  \s+  ( [a-zA-Z_] \w* )  \s*  \(  ( .*? )  \)  : *)
Definition funcRegex : regex :=
  seq [Bol; Many true space; Opt (Seq (text (lit "async")) (some space));
       text (lit "def"); some space;
       Group 1 (Seq (Class letter) (Many true word));
       Many true space; Chr 40; Group 2 (Many false dot); Chr 41; Chr 58].

(** The pattern of the [replace] in the Python branch:  :  \s*  $ *)
Definition colonAtEnd : regex := seq [Chr 58; Many true space; Eol].

(** The first of [patterns] (flags [g] and [m]), part by part:
    ^  (?: export \s+ )?  ( async \s+ )?  function  \s+  ( [\w$]+ )  \s*  \(  .*?  \) *)
Definition functionPattern : regex :=
  seq [Bol; Opt (Seq (text (lit "export")) (some space));
       Opt (Group 1 (Seq (text (lit "async")) (some space)));
       text (lit "function"); some space; Group 2 (some wordOrDollar);
       Many true space; Chr 40; Many false dot; Chr 41].

(** The second:  ^  (?: export \s+ )?  class  \s+  ( [\w$]+ ) *)
Definition classPattern : regex :=
  seq [Bol; Opt (Seq (text (lit "export")) (some space));
       text (lit "class"); some space; Group 1 (some wordOrDollar)].

(** The third:
    ^  (?: export \s+ )?  (?: const | let | var )  \s+  ( [\w$]+ )  \s*  =  \s*
    (?: async )?  \s*  \(  .*?  \)  \s*  => *)
Definition arrowPattern : regex :=
  seq [Bol; Opt (Seq (text (lit "export")) (some space));
       Alt (text (lit "const")) (Alt (text (lit "let")) (text (lit "var")));
       some space; Group 1 (some wordOrDollar);
       Many true space; Chr 61; Many true space; Opt (text (lit "async"));
       Many true space; Chr 40; Many false dot; Chr 41;
       Many true space; Chr 61; Chr 62].

(** The pattern of the [replace] in the JavaScript branch:  \s*  =  \s*  .*  $ *)
Definition fromEquals : regex :=
  seq [Many true space; Chr 61; Many true space; Many true dot; Eol].

(** The body of the loop over the lines of a Python file: what is
    pushed for one line. *)
Definition pythonLine (line : str) : list str :=
  match exec classRegex line with
  | Some (_, groups) => [lit "class " ++ capture 1 groups ++ lit ": ..."]
  | None =>
      match exec funcRegex line with
      | Some (whole, _) => [remove colonAtEnd whole]
      | None => []
      end
  end.

Definition pythonSignatures (code : str) : list str :=
  flat_map pythonLine (Js.split code newline).

(** The loop over one pattern of the JavaScript branch. *)
Definition patternSignatures (pattern : regex) (code : str) : option (list str) :=
  match matches (S (length code)) pattern [] code with
  | Some found => Some (map (remove fromEquals) found)
  | None => None
  end.

(** The loop over the three patterns, in their order. *)
Definition scriptSignatures (code : str) : option (list str) :=
  match patternSignatures functionPattern code,
        patternSignatures classPattern code,
        patternSignatures arrowPattern code with
  | Some functions, Some classes, Some arrows => Some (functions ++ classes ++ arrows)
  | _, _, _ => None
  end.

(** [['.js', '.ts', '.jsx', '.tsx'].includes(extension)] *)
Definition isScript (extension : str) : bool :=
  existsb (Js.eqb extension) [lit ".js"; lit ".ts"; lit ".jsx"; lit ".tsx"].

(** [extractSignatures]; [None] when a loop of the JavaScript branch
    does not end. *)
Definition extractSignatures (code extension : str) : option str :=
  if Js.eqb extension (lit ".py") then
    Some (orElse (Js.join (pythonSignatures code) newline)
            (lit "No Python signatures found."))
  else if isScript extension then
    match scriptSignatures code with
    | Some signatures =>
        Some (orElse (Js.join signatures newline)
                (lit "No JavaScript/TypeScript signatures found."))
    | None => None
    end
  else Some (lit "Signature extraction not supported for this file type.").

End Signatures.
(* ================================================================== *)
(** * The webview: the remove button of a section                      *)
(* ================================================================== *)

(** [s.endsWith(suffix)] *)
Definition endsWith (s suffix : str) : bool := Js.startsWith (rev s) (rev suffix).

(** In [renderLiveContext], the path that the remove button of a
    heading gets.  [relativePath] is the text of the code element of
    the heading ([codeEl.textContent]): what [marked] has made of the
    heading, which this development does not describe.  The path is
    the first of [files] that ends, with its backslashes turned into
    slashes, with this text; there is no button when nothing is found
    ([if (fullPath)]). *)
Definition removeTarget (files : list str) (relativePath : str) : option str :=
  match find (fun f => endsWith (forwardSlashes f) relativePath) files with
  | Some (c :: f) => Some (c :: f)
  | Some [] | None => None
  end.
(* ================================================================== *)
(** * The webview: the controls of the chat                            *)
(* ================================================================== *)

(** What the message listener of the webview reads and writes of the
    chat controls: whether the send button and the input are disabled
    ([None]: the element is not in the page), and whether an answer is
    being written ([currentAiBubble] is not [null]).  What the bubbles
    hold is left out; [marked.parse] is taken to return. *)
Record Chat := {
  chatSendBtn : option bool;
  chatInput : option bool;
  currentAiBubble : bool
}.

(** [if (element) element.disabled = value] *)
Definition setDisabled (element : option bool) (value : bool) : option bool :=
  match element with
  | Some _ => Some value
  | None => None
  end.

(** [finalizeAiMessage], run to its end. *)
Definition finalizeAiMessage (chat : Chat) : Chat :=
  {| chatSendBtn := setDisabled (chatSendBtn chat) false;
     chatInput := setDisabled (chatInput chat) false;
     currentAiBubble := false |}.

Section Webview.

(** Is [chatMessagesContainer] in the page?  Without it
    [renderChatMessage] returns [null]. *)
Variable chatMessagesContainer : bool.

(** [appendAiMessageChunk] *)
Definition appendAiMessageChunk (chat : Chat) : Chat :=
  {| chatSendBtn := chatSendBtn chat;
     chatInput := chatInput chat;
     currentAiBubble := currentAiBubble chat || chatMessagesContainer |}.

(** [appendErrorMessage]: the bubble of the error is not kept in
    [currentAiBubble]. *)
Definition appendErrorMessage (chat : Chat) : Chat := finalizeAiMessage chat.

(** The listener of [message], for the messages that the panel posts. *)
Definition onMessage (chat : Chat) (message : Message) : Chat :=
  match message with
  | ContextLoading => chat
  | GenerateContextError error =>
      let failed := match error with [] => false | _ :: _ => true end in
      {| chatSendBtn := setDisabled (chatSendBtn chat) failed;
         chatInput := setDisabled (chatInput chat) failed;
         currentAiBubble := currentAiBubble chat |}
  | GenerateContext _ _ =>
      {| chatSendBtn := setDisabled (chatSendBtn chat) false;
         chatInput := setDisabled (chatInput chat) false;
         currentAiBubble := currentAiBubble chat |}
  | ChatChunk _ => appendAiMessageChunk chat
  | ChatError _ => appendErrorMessage chat
  | ChatEnd => finalizeAiMessage chat
  end.

(** The messages of a call of the panel, received in their order. *)
Definition received (chat : Chat) (messages : list Message) : Chat :=
  fold_left onMessage messages chat.

(** The [submit] listener of the chat form, when it sends the request:
    the send button is disabled and no answer is open. *)
Definition submitted (chat : Chat) : Chat :=
  {| chatSendBtn := setDisabled (chatSendBtn chat) true;
     chatInput := chatInput chat;
     currentAiBubble := false |}.

End Webview.

(* ================================================================== *)
(** * Notions for the properties                                       *)
(* ================================================================== *)

(** ** Cycling, as the specification words it *)

(** The round of the three states; an entry that is none of them
    goes to [FullContent], as [nextState] has it. *)
Definition succPolicy (p : Policy) : Policy :=
  match p with
  | TreeOnly => FullContent
  | FullContent => SignaturesOnly
  | SignaturesOnly => TreeOnly
  | Excluded => FullContent
  end.

Section Cycles.

Variable uriString : str -> str.

(** The manager and the disk after [n] calls of [cycleState] on [uri]. *)
Fixpoint cycles (n : nat) (fs : FileSystem) (mgr : Manager) (disk : Disk) (uri : Uri)
    : Manager * Disk :=
  match n with
  | O => (mgr, disk)
  | S n' =>
      let '(mgr', disk') := cycles n' fs mgr disk uri in
      let '(mgr'', disk'', _) := cycleState uriString fs mgr' disk' uri in
      (mgr'', disk'')
  end.

(** The explicit entry of a path. *)
Definition explicit (mgr : Manager) (uri : Uri) : option str :=
  JsMap.get (fileStates mgr) (uriString uri).

End Cycles.

(** The cycles of a directory, one on each of the trees in turn. *)
Definition cyclesOn (d : Uri) (trees : list FileSystem) : list (FileSystem * Command) :=
  map (fun tree => (tree, cycleContextState d)) trees.

(** ** What lies beneath a path *)

(** [FileAt uri node f]: [f] is a regular file found by walking down
    from [uri], where [node] stands, through directories that can be
    listed. *)
Inductive FileAt : Uri -> Node -> Uri -> Prop :=
| file_here uri : FileAt uri File uri
| file_inside uri entries name child f :
    In (name, child) entries ->
    FileAt (Path.joinPath uri name) child f ->
    FileAt uri (Directory (Some entries)) f.

(** A name that a directory entry can have. *)
Definition validName (name : str) : Prop :=
  name <> [] /\ ~ In Path.slash name /\ name <> lit "." /\ name <> lit "..".

(** A tree as a file system holds it: valid names, no name twice in a
    directory. *)
Inductive WellFormed : Node -> Prop :=
| wf_file : WellFormed File
| wf_other : WellFormed Other
| wf_missing : WellFormed Missing
| wf_unlisted : WellFormed (Directory None)
| wf_directory entries :
    NoDup (map fst entries) ->
    (forall name child, In (name, child) entries ->
       validName name /\ WellFormed child) ->
    WellFormed (Directory (Some entries)).

(** The change notifications among the effects of a call. *)
Fixpoint fired (effects : list Effect) : list (list Uri) :=
  match effects with
  | [] => []
  | Fire uris :: rest => uris :: fired rest
  | ShowError _ :: rest => fired rest
  end.

(** ** Parts that are own members *)

(** No part of the relative path of any of [uris] is a name that every
    object inherits: [addPath] makes an own member for each of them. *)
Definition ownParts (rootUri : Uri) (uris : list Uri) : Prop :=
  forallb
    (fun uri =>
       forallb (fun part => negb (inherited part))
         (Js.split (Path.relative rootUri uri) Path.sep))
    uris = true.

(** ** A small workspace, for the examples *)

Module Demo.

(** Keys as VS Code prints the URI of a plain path. *)
Definition key (path : str) : str := lit "file://" ++ path.

(** [/w] holds [a.py] and the directory [d] with [x.js] and [y.js]. *)
Definition tree : Node :=
  Directory (Some [(lit "a.py", File);
                   (lit "d", Directory (Some [(lit "x.js", File); (lit "y.js", File)]))]).

Fixpoint walkDown (node : Node) (names : list str) : Node :=
  match names with
  | [] => node
  | name :: rest =>
      match node with
      | Directory (Some entries) =>
          (fix find (es : list (str * Node)) : Node :=
             match es with
             | [] => Missing
             | (n, child) :: es' =>
                 if Js.eqb n name then walkDown child rest else find es'
             end) entries
      | _ => Missing
      end
  end.

Definition fs : FileSystem :=
  fun uri =>
    match Path.segments uri with
    | w :: names => if Js.eqb w (lit "w") then walkDown tree names else Missing
    | [] => Missing
    end.



Definition disk : Disk :=
  {| dirExists := false; stateFile := None;
     mkdirThrows := false; writeThrows := false; readThrows := false |}.

Definition manager : Manager :=
  {| fileStates := []; stateFilePath := Some (lit "/w/.lollms/context_state.json") |}.



End Demo.

(** ** The response body of the specification's example *)

Module Sse.

(** The bytes of a literal in which every apostrophe stands for a double
    quote. *)
Definition bytes (s : string) : list byte :=
  map (fun b => match b with x27 => x22 | _ => b end) (list_byte_of_string s).

(** The frame that carries the fragment, without the blank line. *)
Definition frameHi : list byte :=
  bytes "data: {'choices':[{'delta':{'content':'Hi'}}]}".

Definition frameDone : list byte := bytes "data: [DONE]".

Definition blankLine : list byte := [x0a; x0a].

(** Both frames, each ended by a blank line. *)
Definition responseBody : list byte := frameHi ++ blankLine ++ frameDone ++ blankLine.

(** The message that forwards the fragment. *)
Definition hi : Message := ChatChunk (Json.JStr (lit "Hi")).

(** A stream that delivers the given reads and ends. *)
Definition reads (chunks : list (list byte)) : Stream :=
  fold_right Chunk Finished chunks.

(** A server that answers every request with a successful response
    whose body arrives in the given reads. *)
Definition serves (chunks : list (list byte)) : str -> Fetched :=
  fun _ => Responds {| ok := true; status := 200; body := Some (reads chunks) |}.

(** The bytes of the body from [from] on, [count] of them. *)
Definition slice (from count : nat) : list byte := firstn count (skipn from responseBody).

(** What one read that holds this slice of the body makes the relay
    post: the fragment when the slice starts the body and reaches the
    end of the first frame. *)
Definition expected (from count : nat) : list Message :=
  if Nat.eqb from 0 && Nat.leb (length frameHi) count then [hi] else [].

Definition messageEqb (a b : Message) : bool :=
  match a, b with
  | ChatChunk (Json.JStr s), ChatChunk (Json.JStr t) => Js.eqb s t
  | _, _ => false
  end.

Fixpoint sameMessages (a b : list Message) : bool :=
  match a, b with
  | [], [] => true
  | x :: a', y :: b' => messageEqb x y && sameMessages a' b'
  | _, _ => false
  end.

(** [relayRead] agrees with [expected] on every slice that starts at
    [from]. *)
Definition checkFrom (from : nat) : bool :=
  forallb (fun count => sameMessages (relayRead (slice from count)) (expected from count))
    (seq 0 (S (length responseBody - from))).

Definition checkAll : bool := forallb checkFrom (seq 0 (S (length responseBody))).

Fixpoint sameBytes (a b : list byte) : bool :=
  match a, b with
  | [], [] => true
  | x :: a', y :: b' => Byte.eqb x y && sameBytes a' b'
  | _, _ => false
  end.

(** The first frame stands at the start of the body and nowhere else. *)
Definition frameOnlyAtStart : bool :=
  forallb (fun from => negb (sameBytes (slice (S from) (length frameHi)) frameHi))
    (seq 0 (length responseBody)).

(** Does the first read that is not empty hold the whole first frame? *)
Fixpoint firstFrameWhole (chunks : list (list byte)) : bool :=
  match chunks with
  | [] => false
  | [] :: rest => firstFrameWhole rest
  | (b :: c) :: _ => Nat.leb (length frameHi) (length (b :: c))
  end.

End Sse.

Definition isChatEnd (m : Message) : bool :=
  match m with ChatEnd => true | _ => false end.

Definition isChatError (m : Message) : bool :=
  match m with ChatError _ => true | _ => false end.

Definition isChatChunk (m : Message) : bool :=
  match m with ChatChunk _ => true | _ => false end.


(** ** The rendered tree, as the specification describes it *)

(** An object has no member twice, at any depth. *)
Inductive UniqueKeys : FileTree -> Prop :=
| unique_level members :
    NoDup (map fst members) ->
    (forall name sub, In (name, sub) members -> UniqueKeys sub) ->
    UniqueKeys (Level members).

(** Names in ascending order of their code units. *)
Definition ascending (entries : list (str * FileTree)) : Prop :=
  StronglySorted (fun a b => Js.ltb (fst a) (fst b) = true) entries.

(** The badge of a policy. *)
Definition badge (p : Policy) : str :=
  match p with
  | FullContent => lit " [+]"
  | SignaturesOnly => lit " [S]"
  | TreeOnly | Excluded => []
  end.

Section TreeSpec.

Variable uriString : str -> str.
Variable states : FileStates.

(** [Lines ordered path lines]: [lines] render the entries [ordered], in
    this order, as the entries of the directory [path]: for every entry
    its own line (connector, glyph, a space, the name, the badge of its
    effective policy), then the lines of what it holds, each behind a
    continuation prefix.  The connector and the prefix are those of the
    last entry when no entry follows; the glyph is the folder when the
    entry holds something.
    [LevelLines level path lines]: [lines] render the members of
    [level], taken in ascending order of their names. *)
Inductive Lines : list (str * FileTree) -> Uri -> list str -> Prop :=
| lines_none path : Lines [] path []
| lines_entry name sub rest path below others :
    LevelLines sub (Path.joinPath path name) below ->
    Lines rest path others ->
    Lines ((name, sub) :: rest) path
      (((match rest with [] => corner | _ :: _ => branch end)
          ++ (match membersOf sub with [] => page | _ :: _ => folder end)
          ++ lit " " ++ name
          ++ badgeOf (getState uriString states (Path.joinPath path name)))
       :: map (fun s => (match rest with [] => blank | _ :: _ => bar end) ++ s) below
       ++ others)
with LevelLines : FileTree -> Uri -> list str -> Prop :=
| lines_level members ordered path lines :
    Permutation ordered members ->
    ascending ordered ->
    Lines ordered path lines ->
    LevelLines (Level members) path lines.

End TreeSpec.

(** ** The lines of the tree, with their paths *)

Section Drawn.

Variable uriString : str -> str.
Variable states : FileStates.

(** The lines of [buildLines], each with the URI it is the line of:
    [uri] in the callback of [flatMap]. *)
Fixpoint drawn (level : FileTree) (currentPath : Uri) : list (Uri * str) :=
  match level with
  | Level members =>
      let entries := Js.sort (map fst members) in
      flatMapi
        (fun entry i =>
           let uri := Path.joinPath currentPath entry in
           let state := getState uriString states uri in
           let isLast := Nat.eqb i (length entries - 1) in
           let isDir :=
             atMember (fun sub => negb (Nat.eqb (length (membersOf sub)) 0))
               false entry members in
           let subLines :=
             atMember (fun sub =>
                         if negb (Nat.eqb (length (membersOf sub)) 0)
                         then drawn sub uri else [])
               [] entry members in
           (uri, entryLine isLast isDir entry state)
             :: map (fun s => (fst s, (if isLast then blank else bar) ++ snd s))
                  subLines)
        0 entries
  end.

End Drawn.

(** ** Paths by names *)

(** [Descends node names node']: [node'] is reached from [node] by
    going down the entries named [names], one after the other. *)
Inductive Descends : Node -> list str -> Node -> Prop :=
| descends_here node : Descends node [] node
| descends_step entries name child names node' :
    In (name, child) entries ->
    Descends child names node' ->
    Descends (Directory (Some entries)) (name :: names) node'.

(** The URI reached from [uri] by joining the names in turn. *)
Definition joinAll (uri : Uri) (names : list str) : Uri :=
  fold_left Path.joinPath names uri.

(** Does the tree hold the path [parts], member in member? *)
Fixpoint inTree (tree : FileTree) (parts : list str) : bool :=
  match parts with
  | [] => true
  | part :: rest =>
      match member (membersOf tree) part with
      | Some sub => inTree sub rest
      | None => false
      end
  end.

(** ** The typed map *)

(** One of the three tags of [FileState]. *)
Definition knownTag (v : str) : Prop :=
  v = fullContent \/ v = signatures \/ v = excluded.

(** The map as [Map<string, FileState>] types it: no key twice, every
    value one of the three tags. *)
Definition wellTyped (m : FileStates) : Prop :=
  NoDup (JsMap.keys m) /\ Forall knownTag (map snd m).

(* ================================================================== *)
(** * Facts about strings and paths                                    *)
(* ================================================================== *)

Lemma eqb_eq (a b : str) : Js.eqb a b = true <-> a = b.
Proof.
  revert b; induction a as [|x a IH]; intros [|y b]; simpl; split;
    try congruence; try reflexivity.
  - intros H. apply andb_true_iff in H as [Hx Hab].
    apply N.eqb_eq in Hx. apply IH in Hab. congruence.
  - intros H. injection H as -> ->. rewrite N.eqb_refl. simpl. now apply IH.
Qed.

Lemma eqb_refl (a : str) : Js.eqb a a = true.
Proof. now apply eqb_eq. Qed.

Lemma eqb_neq (a b : str) : Js.eqb a b = false <-> a <> b.
Proof.
  split.
  - intros H E. apply eqb_eq in E. congruence.
  - intros H. destruct (Js.eqb a b) eqn:E; [|reflexivity].
    apply eqb_eq in E. contradiction.
Qed.

Lemma eqb_sym (a b : str) : Js.eqb a b = Js.eqb b a.
Proof.
  destruct (Js.eqb a b) eqn:E.
  - apply eqb_eq in E. subst. symmetry. apply eqb_refl.
  - symmetry. apply eqb_neq. apply eqb_neq in E. congruence.
Qed.

(** Where the scan of [dirname] stops, less of the path is left; when it
    started behind the last code unit, at least two were passed. *)
Lemma scanEnd_shorter (l : str) :
  forall b r, Path.scanEnd b l = Some r ->
    length r < length l /\ (b = true -> length r + 2 <= length l).
Proof.
  induction l as [|c l IH]; intros b r H; simpl in H; [discriminate|].
  destruct (N.eqb c Path.slash).
  - destruct b.
    + apply IH in H as [H1 H2]. simpl. split; [lia|]. intros _. specialize (H2 eq_refl). lia.
    + injection H as <-. simpl. split; [lia|discriminate].
  - apply IH in H as [H1 _]. simpl. split; [lia|]. intros _. lia.
Qed.

Lemma climb_bound (p : str) : Path.climb p <= 2 * length p + 1.
Proof. unfold Path.climb. destruct (Js.eqb _ _); lia. Qed.

(** Every step of the ancestor walk that is not the last one brings the
    path closer to the root. *)
Lemma dirname_climb (p : str) :
  Path.dirname p <> p -> Path.climb (Path.dirname p) < Path.climb p.
Proof.
  intros Hne.
  assert (Hp : Path.climb p = 2 * length p + 1).
  { unfold Path.climb. apply eqb_neq in Hne. now rewrite Hne. }
  rewrite Hp. clear Hp.
  destruct p as [|c0 rest]; [vm_compute; lia|].
  unfold Path.dirname in *.
  destruct (Path.scanEnd true (rev rest)) as [before|] eqn:Hscan.
  - apply scanEnd_shorter in Hscan as [Hlt Hge]. specialize (Hge eq_refl).
    rewrite length_rev in Hlt, Hge.
    destruct before as [|x before].
    + destruct (N.eqb c0 Path.slash).
      * change (Path.climb (lit "//")) with 5. simpl in *. lia.
      * pose proof (climb_bound [c0]) as Hb. simpl in *. lia.
    + pose proof (climb_bound (c0 :: rev (x :: before))) as Hb.
      change (length (c0 :: rev (x :: before)))
        with (S (length (rev (x :: before)))) in Hb.
      rewrite length_rev in Hb. simpl length in *. lia.
  - destruct (N.eqb c0 Path.slash).
    + change (Path.climb (lit "/")) with 0. simpl. lia.
    + change (Path.climb (lit ".")) with 0. simpl. lia.
Qed.

(** The ancestors of a path, nearest first: [parents k p] is the path
    [k] directories up. *)
Definition parents (k : nat) (p : str) : str := Nat.iter k Path.dirname p.

Lemma parents_S (k : nat) (p : str) :
  parents (S k) p = parents k (Path.dirname p).
Proof. unfold parents. apply Nat.iter_succ_r. Qed.

Lemma parents_fixed (k : nat) (p : str) :
  Path.dirname p = p -> parents k p = p.
Proof.
  intros H. induction k as [|k IH]; [reflexivity|].
  unfold parents in *. simpl. now rewrite IH.
Qed.

(** The walk reaches, within [climb p] steps, a path that is its own
    parent, and no path before it is. *)
Lemma walk_reaches_root (p : str) :
  exists n, n <= Path.climb p
    /\ Path.dirname (parents n p) = parents n p
    /\ forall k, k < n -> Path.dirname (parents k p) <> parents k p.
Proof.
  remember (Path.climb p) as c eqn:Hc.
  revert p Hc. induction c as [c IH] using lt_wf_ind. intros p Hc.
  destruct (Js.eqb (Path.dirname p) p) eqn:E.
  - exists 0. apply eqb_eq in E. repeat split; [lia|exact E|]. intros k Hk. lia.
  - apply eqb_neq in E. pose proof (dirname_climb E) as Hlt.
    destruct (IH (Path.climb (Path.dirname p)) ltac:(lia) _ eq_refl)
      as (n & Hn & Hfix & Hbefore).
    exists (S n). repeat split.
    + lia.
    + now rewrite parents_S.
    + intros [|k] Hk; [exact E|]. rewrite parents_S. apply Hbefore. lia.
Qed.

(* ================================================================== *)
(** * The effective policy                                             *)
(* ================================================================== *)

Section Effective.

Variable uriString : str -> str.

(** More fuel than the climb changes nothing. *)
Lemma walkUp_fuel (m : FileStates) :
  forall f g p, Path.climb p <= f -> Path.climb p <= g ->
    walkUp uriString f m p = walkUp uriString g m p.
Proof.
  induction f as [|f IH]; intros g p Hf Hg.
  - destruct g as [|g]; [reflexivity|]. simpl.
    destruct (Js.eqb (Path.dirname p) p) eqn:E; [reflexivity|].
    apply eqb_neq in E. apply dirname_climb in E. lia.
  - simpl. destruct (Js.eqb (Path.dirname p) p) eqn:E.
    + destruct g as [|g]; simpl; [reflexivity|]. now rewrite E.
    + pose proof E as E'. apply eqb_neq in E'. apply dirname_climb in E'.
      destruct g as [|g]; [lia|]. simpl. rewrite E.
      destruct (isExcluded m (uriString (Path.dirname p))); [reflexivity|].
      apply IH; lia.
Qed.

(** The loop equation of [getState]'s [while]: [walk] is the loop, for
    every path. *)
Lemma walk_unfold (m : FileStates) (p : str) :
  walk uriString m p =
    if Js.eqb (Path.dirname p) p then false
    else if isExcluded m (uriString (Path.dirname p)) then true
    else walk uriString m (Path.dirname p).
Proof.
  unfold walk at 1.
  destruct (Js.eqb (Path.dirname p) p) eqn:E.
  - unfold Path.climb. rewrite E. reflexivity.
  - pose proof E as E'. apply eqb_neq in E'. apply dirname_climb in E'.
    destruct (Path.climb p) as [|c] eqn:Hc; [lia|].
    simpl. rewrite E.
    destruct (isExcluded m (uriString (Path.dirname p))); [reflexivity|].
    unfold walk. apply walkUp_fuel; lia.
Qed.

(** Some path from [p] upwards, [p] included, is explicitly excluded. *)
Definition excludedOnPath (m : FileStates) (p : str) : Prop :=
  exists k, JsMap.get m (uriString (parents k p)) = Some excluded.

Lemma isExcluded_true (m : FileStates) (key : str) :
  isExcluded m key = true <-> JsMap.get m key = Some excluded.
Proof.
  unfold isExcluded. destruct (JsMap.get m key) as [v|].
  - rewrite eqb_eq. split; congruence.
  - split; discriminate.
Qed.

Lemma walk_finds (m : FileStates) (p : str) :
  isExcluded m (uriString p) || walk uriString m p = true
  <-> excludedOnPath m p.
Proof.
  remember (Path.climb p) as c eqn:Hc.
  revert p Hc. induction c as [c IH] using lt_wf_ind. intros p Hc.
  rewrite walk_unfold.
  destruct (Js.eqb (Path.dirname p) p) eqn:E.
  - apply eqb_eq in E. rewrite orb_false_r, isExcluded_true. split.
    + intros H. now exists 0.
    + intros [k Hk]. now rewrite parents_fixed in Hk.
  - pose proof E as E'. apply eqb_neq in E'. apply dirname_climb in E'.
    specialize (IH (Path.climb (Path.dirname p)) ltac:(lia) (Path.dirname p) eq_refl).
    split.
    + intros H. apply orb_true_iff in H as [H|H].
      * exists 0. now apply isExcluded_true.
      * assert (Hup : excludedOnPath m (Path.dirname p)).
        { apply IH. destruct (isExcluded m (uriString (Path.dirname p)));
            [reflexivity|exact H]. }
        destruct Hup as [k Hk]. exists (S k). now rewrite parents_S.
    + intros [[|k] Hk].
      * apply isExcluded_true in Hk. simpl in Hk. now rewrite Hk.
      * rewrite parents_S in Hk.
        assert (Hup : excludedOnPath m (Path.dirname p)) by now exists k.
        apply IH in Hup. apply orb_true_iff. right.
        destruct (isExcluded m (uriString (Path.dirname p))); [reflexivity|].
        exact Hup.
Qed.

(** C2. The effective policy of a path is ['excluded'] as soon as the
    path itself or one of its ancestor directories is explicitly
    excluded, whatever the path's own entry; otherwise it is the path's
    own entry, and ['treeOnly'] when it has none.  The ancestor walk
    ends: after finitely many steps it stands on a path that is its own
    parent, and it stops at the first such path. *)
Theorem getState_effective (m : FileStates) (p : Uri) :
  (excludedOnPath m p -> getState uriString m p = excluded)
  /\ (~ excludedOnPath m p ->
        (JsMap.get m (uriString p) = None -> getState uriString m p = treeOnly)
        /\ (forall v, JsMap.get m (uriString p) = Some v -> v <> [] ->
              getState uriString m p = v))
  /\ (exists n, n <= Path.climb p
        /\ Path.dirname (parents n p) = parents n p
        /\ forall k, k < n -> Path.dirname (parents k p) <> parents k p).
Proof.
  split; [|split].
  - intros H. apply walk_finds in H. unfold getState.
    destruct (isExcluded m (uriString p)); [reflexivity|].
    simpl in H. now rewrite H.
  - intros H.
    assert (Hno : isExcluded m (uriString p) || walk uriString m p = false).
    { destruct (isExcluded m (uriString p) || walk uriString m p) eqn:E;
        [|reflexivity]. apply walk_finds in E. contradiction. }
    apply orb_false_iff in Hno as [Hown Hwalk].
    unfold getState. rewrite Hown, Hwalk. split.
    + intros ->. reflexivity.
    + intros v -> Hv. destruct v; [contradiction|reflexivity].
  - apply walk_reaches_root.
Qed.

End Effective.

(* ================================================================== *)
(** * The map                                                          *)
(* ================================================================== *)

Section MapFacts.

Variable V : Type.
Implicit Types (m : JsMap.t V) (k : str) (v : V).

Lemma get_set_same m k v : JsMap.get (JsMap.set m k v) k = Some v.
Proof.
  induction m as [|[k' v'] m IH]; simpl.
  - now rewrite eqb_refl.
  - destruct (Js.eqb k' k) eqn:E; simpl; rewrite E; [reflexivity|exact IH].
Qed.

Lemma get_set_other m k k' v :
  k' <> k -> JsMap.get (JsMap.set m k v) k' = JsMap.get m k'.
Proof.
  intros Hne. induction m as [|[k0 v0] m IH]; simpl.
  - assert (E : Js.eqb k k' = false) by (apply eqb_neq; congruence).
    now rewrite E.
  - destruct (Js.eqb k0 k) eqn:E; simpl.
    + apply eqb_eq in E. subst k0.
      assert (E : Js.eqb k k' = false) by (apply eqb_neq; congruence).
      now rewrite E.
    + now rewrite IH.
Qed.

Lemma get_delete_same m k : JsMap.get (JsMap.delete m k) k = None.
Proof.
  unfold JsMap.delete.
  induction m as [|[k' v'] m IH]; simpl; [reflexivity|].
  destruct (Js.eqb k' k) eqn:E; simpl; [exact IH|]. now rewrite E.
Qed.

Lemma get_delete_other m k k' :
  k' <> k -> JsMap.get (JsMap.delete m k) k' = JsMap.get m k'.
Proof.
  intros Hne. unfold JsMap.delete.
  induction m as [|[k0 v0] m IH]; simpl; [reflexivity|].
  destruct (Js.eqb k0 k) eqn:E; simpl.
  - apply eqb_eq in E. subst k0.
    assert (E' : Js.eqb k k' = false) by (apply eqb_neq; congruence).
    now rewrite E'.
  - now rewrite IH.
Qed.

Lemma get_not_key m k : ~ In k (JsMap.keys m) -> JsMap.get m k = None.
Proof.
  induction m as [|[k' v'] m IH]; simpl; [reflexivity|]. intros H.
  destruct (Js.eqb k' k) eqn:E.
  - apply eqb_eq in E. tauto.
  - apply IH. tauto.
Qed.

Lemma set_fresh m k v :
  ~ In k (JsMap.keys m) -> JsMap.set m k v = m ++ [(k, v)].
Proof.
  induction m as [|[k' v'] m IH]; simpl; [reflexivity|]. intros H.
  destruct (Js.eqb k' k) eqn:E.
  - apply eqb_eq in E. tauto.
  - rewrite IH; [reflexivity|tauto].
Qed.

(** [new Map(entries)] of entries with distinct keys holds them as
    they come. *)
Lemma ofEntries_distinct (es : list (str * V)) :
  NoDup (map fst es) -> JsMap.ofEntries es = es.
Proof.
  unfold JsMap.ofEntries.
  assert (H : forall acc, NoDup (map fst (acc ++ es)) ->
            fold_left (fun m e => JsMap.set m (fst e) (snd e)) es acc = acc ++ es).
  { induction es as [|[k v] es IH]; intros acc Hnd; simpl.
    - now rewrite app_nil_r.
    - rewrite set_fresh.
      + rewrite IH; rewrite <- app_assoc; [reflexivity|exact Hnd].
      + rewrite map_app in Hnd. simpl in Hnd.
        apply NoDup_remove_2 in Hnd. intros Hin. apply Hnd.
        apply in_or_app. left. exact Hin. }
  intros Hnd. now apply (H []).
Qed.

End MapFacts.

(* ================================================================== *)
(** * [setState] and [cycleState]                                      *)
(* ================================================================== *)

(** What [setState] leaves at the key of a file it reaches. *)
Definition stored (state : str) : option str :=
  if Js.eqb state treeOnly then None else Some state.

Lemma stored_tag (p : Policy) : stored (tag p) = entry p.
Proof. destruct p; reflexivity. Qed.

Lemma nextState_entry (p : Policy) : nextState (entry p) = tag (succPolicy p).
Proof. destruct p; reflexivity. Qed.

Lemma withStates_same (mgr : Manager) : withStates mgr (fileStates mgr) = mgr.
Proof. destruct mgr; reflexivity. Qed.

Lemma fired_app (a b : list Effect) : fired (a ++ b) = fired a ++ fired b.
Proof.
  induction a as [|[message|uris] a IH]; simpl; [reflexivity|exact IH|].
  now rewrite IH.
Qed.

(** [saveState] fires no change notification. *)
Lemma saveState_fired (mgr : Manager) (disk : Disk) :
  fired (snd (saveState mgr disk)) = [].
Proof.
  unfold saveState. destruct (stateFilePath mgr); [|reflexivity].
  destruct (negb (dirExists disk) && mkdirThrows disk); [reflexivity|].
  destruct (writeThrows disk); reflexivity.
Qed.

(** With a state file path and a disk that takes the calls, [saveState]
    writes the entries and shows nothing. *)
Lemma saveState_writes (mgr : Manager) (disk : Disk) :
  stateFilePath mgr <> None ->
  mkdirThrows disk = false -> writeThrows disk = false ->
  stateFile (fst (saveState mgr disk))
  = Some (Json.stringifyEntries (JsMap.entries (fileStates mgr)))
  /\ readThrows (fst (saveState mgr disk)) = readThrows disk
  /\ snd (saveState mgr disk) = [].
Proof.
  intros Hpath Hmk Hwr. unfold saveState.
  destruct (stateFilePath mgr); [|contradiction].
  rewrite Hmk, Hwr, andb_false_r. simpl. repeat split.
Qed.

Section ManagerFacts.

Variable uriString : str -> str.

Lemma applyState_same (state : str) (m : FileStates) (uri : Uri) :
  JsMap.get (applyState uriString state m uri) (uriString uri) = stored state.
Proof.
  unfold applyState, stored. destruct (Js.eqb state treeOnly).
  - apply get_delete_same.
  - apply get_set_same.
Qed.

Lemma applyState_other (state : str) (m : FileStates) (uri : Uri) (k : str) :
  k <> uriString uri ->
  JsMap.get (applyState uriString state m uri) k = JsMap.get m k.
Proof.
  intros H. unfold applyState. destruct (Js.eqb state treeOnly).
  - now apply get_delete_other.
  - now apply get_set_other.
Qed.

(** The loop of [setState] changes no key but those of the files it
    runs over. *)
Lemma forEach_other (state : str) (files : list Uri) (k : str) :
  (forall f, In f files -> uriString f <> k) ->
  forall m, JsMap.get (fold_left (applyState uriString state) files m) k
            = JsMap.get m k.
Proof.
  induction files as [|x files IH]; intros H m; simpl; [reflexivity|].
  rewrite IH.
  - apply applyState_other. intros E. apply (H x); [now left|now symmetry].
  - intros f Hf. apply H. now right.
Qed.

(** ... and leaves the state at the key of each of them. *)
Lemma forEach_same (state : str) (files : list Uri) (f : Uri) :
  In f files ->
  forall m, JsMap.get (fold_left (applyState uriString state) files m) (uriString f)
            = stored state.
Proof.
  induction files as [|x files IH] using rev_ind; intros Hin m; [destruct Hin|].
  rewrite fold_left_app. simpl.
  destruct (Js.eqb (uriString x) (uriString f)) eqn:E.
  - apply eqb_eq in E. rewrite <- E. apply applyState_same.
  - apply eqb_neq in E. rewrite applyState_other by congruence.
    apply IH. apply in_app_or in Hin as [Hin|[Hin|[]]]; [exact Hin|].
    subst x. contradiction.
Qed.

Lemma setState_states (fs : FileSystem) (mgr : Manager) (disk : Disk)
    (uris : list Uri) (state : str) :
  fileStates (fst (fst (setState uriString fs mgr disk uris state)))
  = fold_left (applyState uriString state) (getAllFileUris fs uris) (fileStates mgr).
Proof.
  unfold setState. destruct (saveState _ disk) as [disk' shown]. reflexivity.
Qed.

Lemma getAllFileUris_file (fs : FileSystem) (uri : Uri) :
  fs uri = File -> getAllFileUris fs [uri] = [uri].
Proof. intros H. unfold getAllFileUris. simpl. now rewrite H. Qed.

(** One call of [cycleState] on a file: its entry moves one step, the
    other entries stay. *)
Lemma cycleState_file (fs : FileSystem) (mgr : Manager) (disk : Disk)
    (uri : Uri) (p : Policy) :
  fs uri = File ->
  explicit uriString mgr uri = entry p ->
  let mgr' := fst (fst (cycleState uriString fs mgr disk uri)) in
  explicit uriString mgr' uri = entry (succPolicy p)
  /\ forall k, k <> uriString uri ->
       JsMap.get (fileStates mgr') k = JsMap.get (fileStates mgr) k.
Proof.
  intros Hfile Hp mgr'. subst mgr'. unfold explicit, cycleState in *.
  rewrite setState_states, getAllFileUris_file by exact Hfile.
  rewrite Hp, nextState_entry. simpl fold_left. split.
  - rewrite applyState_same. apply stored_tag.
  - intros k Hk. now apply applyState_other.
Qed.

Lemma cycles_S (n : nat) (fs : FileSystem) (mgr : Manager) (disk : Disk) (uri : Uri) :
  fst (cycles uriString (S n) fs mgr disk uri)
  = fst (fst (cycleState uriString fs
                (fst (cycles uriString n fs mgr disk uri))
                (snd (cycles uriString n fs mgr disk uri)) uri)).
Proof.
  simpl. destruct (cycles uriString n fs mgr disk uri) as [mgr' disk'].
  cbn [fst snd].
  destruct (cycleState uriString fs mgr' disk' uri) as [[mgr'' disk''] eff].
  reflexivity.
Qed.

Lemma cycles_file (fs : FileSystem) (mgr : Manager) (disk : Disk)
    (uri : Uri) (p : Policy) :
  fs uri = File ->
  explicit uriString mgr uri = entry p ->
  forall n,
    explicit uriString (fst (cycles uriString n fs mgr disk uri)) uri
    = entry (Nat.iter n succPolicy p)
    /\ forall k, k <> uriString uri ->
         JsMap.get (fileStates (fst (cycles uriString n fs mgr disk uri))) k
         = JsMap.get (fileStates mgr) k.
Proof.
  intros Hfile Hp. induction n as [|n [IH1 IH2]].
  - simpl. split; [exact Hp|reflexivity].
  - rewrite cycles_S.
    destruct (cycleState_file fs
                (fst (cycles uriString n fs mgr disk uri))
                (snd (cycles uriString n fs mgr disk uri)) uri
                (Nat.iter n succPolicy p) Hfile IH1) as [H1 H2].
    split.
    + exact H1.
    + intros k Hk. rewrite H2 by exact Hk. now apply IH2.
Qed.

(** C3, as the code has it.  For a path that is a regular file, whose
    own entry is absent ([TreeOnly]), ['fullContent'] or ['signatures']
    (whether or not an ancestor is excluded): the entry after [n] calls
    of [cycleState] is the one [n] steps further in the round
    TreeOnly, FullContent, SignaturesOnly, TreeOnly; so the three
    states are visited in this order, none is skipped, and after three
    calls the entry, and every other entry of the map, is what it was. *)
Theorem cycleState_round (fs : FileSystem) (mgr : Manager) (disk : Disk)
    (uri : Uri) (p : Policy) :
  fs uri = File ->
  p <> Excluded ->
  explicit uriString mgr uri = entry p ->
  let after n := fst (cycles uriString n fs mgr disk uri) in
  explicit uriString (after 1) uri = entry (succPolicy p)
  /\ explicit uriString (after 2) uri = entry (succPolicy (succPolicy p))
  /\ explicit uriString (after 3) uri = entry p
  /\ (forall k, JsMap.get (fileStates (after 3)) k = JsMap.get (fileStates mgr) k)
  /\ (forall n, explicit uriString (after n) uri = entry (Nat.iter n succPolicy p)).
Proof.
  intros Hfile Hne Hp after. subst after. cbv beta.
  pose proof (cycles_file fs mgr disk uri p Hfile Hp) as H.
  assert (H3 : explicit uriString (fst (cycles uriString 3 fs mgr disk uri)) uri
               = entry p).
  { rewrite (proj1 (H 3)). destruct p; try reflexivity. contradiction. }
  split; [apply (H 1)|]. split; [apply (H 2)|]. split; [exact H3|]. split.
  - intros k. destruct (Js.eqb k (uriString uri)) eqn:E.
    + apply eqb_eq in E. subst k. unfold explicit in H3. rewrite H3.
      symmetry. exact Hp.
    + apply eqb_neq in E. now apply (proj2 (H 3)).
  - intros n. apply (H n).
Qed.

End ManagerFacts.

Lemma cycleState_round_witness :
  Demo.fs (lit "/w/a.py") = File
  /\ explicit Demo.key Demo.manager (lit "/w/a.py") = entry TreeOnly
  /\ explicit Demo.key
       (fst (cycles Demo.key 1 Demo.fs Demo.manager Demo.disk (lit "/w/a.py")))
       (lit "/w/a.py") = Some fullContent
  /\ explicit Demo.key
       (fst (cycles Demo.key 3 Demo.fs Demo.manager Demo.disk (lit "/w/a.py")))
       (lit "/w/a.py") = None.
Proof.
  assert (Hfile : Demo.fs (lit "/w/a.py") = File) by reflexivity.
  assert (Hentry : explicit Demo.key Demo.manager (lit "/w/a.py") = entry TreeOnly)
    by reflexivity.
  assert (Hne : TreeOnly <> Excluded) by discriminate.
  destruct (cycleState_round Demo.key Demo.fs Demo.manager Demo.disk
              (lit "/w/a.py") Hfile Hne Hentry) as (H1 & _ & H3 & _).
  repeat split; assumption.
Defined.

(** C3, as stated, fails on a directory: [cycleState] on [/w/d], which
    has no entry and no excluded ancestor, leaves [/w/d] without an
    entry, call after call (it never reaches ['fullContent']); what
    changes is the entry of every file beneath, set to ['fullContent']
    each time, also when it was ['signatures'] before.  It also fails
    on a file whose own entry is ['excluded'] (nothing is inherited):
    three calls leave it without an entry. *)
Lemma cycleState_directory_counterexample :
  let d := lit "/w/d" in
  let x := lit "/w/d/x.js" in
  let a := lit "/w/a.py" in
  let start := withStates Demo.manager
                 [(Demo.key x, signatures); (Demo.key a, excluded)] in
  let after uri n := fst (cycles Demo.key n Demo.fs start Demo.disk uri) in
  getState Demo.key (fileStates start) d = treeOnly
  /\ explicit Demo.key start d = entry TreeOnly
  /\ explicit Demo.key (after d 1) d = None
  /\ explicit Demo.key (after d 1) d <> entry (succPolicy TreeOnly)
  /\ explicit Demo.key (after d 2) d = None
  /\ explicit Demo.key (after d 1) x = Some fullContent
  /\ explicit Demo.key (after d 2) x = Some fullContent
  /\ explicit Demo.key start a = Some excluded
  /\ explicit Demo.key (after a 3) a = None.
Proof. vm_compute. repeat split; try reflexivity. discriminate. Qed.

Section SetStateFacts.

Variable uriString : str -> str.

Lemma getAllFileUris_missing (fs : FileSystem) (uris : list Uri) :
  (forall u, In u uris -> fs u = Missing) -> getAllFileUris fs uris = [].
Proof.
  intros H. unfold getAllFileUris. induction uris as [|u uris IH]; [reflexivity|].
  simpl. rewrite (H u) by now left. simpl. apply IH.
  intros u' Hu'. apply H. now right.
Qed.

(** C10. When [stat] throws for every URI handed to [setState], the map
    stays as it is, and the call still runs to its end: [saveState]
    runs on the unchanged map, exactly as after any other call, and one
    change notification is fired, with no path in it.  With a state
    file path and a disk that takes the write, the state file is
    written anew with the entries of the unchanged map and nothing else
    is shown or fired. *)
Theorem setState_nothing_found (fs : FileSystem) (mgr : Manager) (disk : Disk)
    (uris : list Uri) (state : str) :
  (forall u, In u uris -> fs u = Missing) ->
  let result := setState uriString fs mgr disk uris state in
  fst (fst result) = mgr
  /\ snd (fst result) = fst (saveState mgr disk)
  /\ snd result = snd (saveState mgr disk) ++ [Fire []]
  /\ fired (snd result) = [[]]
  /\ (stateFilePath mgr <> None ->
      mkdirThrows disk = false -> writeThrows disk = false ->
      stateFile (snd (fst result))
        = Some (Json.stringifyEntries (JsMap.entries (fileStates mgr)))
      /\ snd result = [Fire []]).
Proof.
  intros Hmissing result. subst result. unfold setState.
  rewrite (getAllFileUris_missing fs uris Hmissing). simpl fold_left.
  rewrite withStates_same.
  pose proof (saveState_fired mgr disk) as Hfired.
  pose proof (saveState_writes mgr disk) as Hwrites.
  destruct (saveState mgr disk) as [disk' shown]. cbn [fst snd] in *.
  split; [reflexivity|]. split; [reflexivity|]. split; [reflexivity|]. split.
  - now rewrite fired_app, Hfired.
  - intros Hpath Hmk Hwr. destruct (Hwrites Hpath Hmk Hwr) as (Hfile & _ & ->).
    now split.
Qed.

End SetStateFacts.

Lemma setState_nothing_found_witness :
  (forall u, In u [lit "/nowhere"; lit "/w/gone.txt"] -> Demo.fs u = Missing)
  /\ let result :=
       setState Demo.key Demo.fs Demo.manager Demo.disk
         [lit "/nowhere"; lit "/w/gone.txt"] excluded in
     fst (fst result) = Demo.manager
     /\ fired (snd result) = [[]]
     /\ stateFile (snd (fst result)) = Some (lit "[]").
Proof.
  assert (Hmissing : forall u, In u [lit "/nowhere"; lit "/w/gone.txt"] ->
                               Demo.fs u = Missing).
  { intros u [<-|[<-|[]]]; reflexivity. }
  split; [exact Hmissing|].
  destruct (setState_nothing_found Demo.key Demo.fs Demo.manager Demo.disk
              [lit "/nowhere"; lit "/w/gone.txt"] excluded Hmissing)
    as (H1 & _ & _ & H4 & H5).
  destruct H5 as [H5 _]; [discriminate|reflexivity|reflexivity|].
  repeat split; assumption.
Defined.

(* ================================================================== *)
(** * The files beneath a path                                         *)
(* ================================================================== *)

(** Induction on a node, with the entries of a directory. *)
Fixpoint Node_nested_ind (P : Node -> Prop)
    (Hfile : P File) (Hother : P Other) (Hmissing : P Missing)
    (Hunlisted : P (Directory None))
    (Hdir : forall entries, Forall (fun e => P (snd e)) entries ->
                            P (Directory (Some entries)))
    (node : Node) : P node :=
  match node with
  | File => Hfile
  | Other => Hother
  | Missing => Hmissing
  | Directory None => Hunlisted
  | Directory (Some entries) =>
      Hdir entries
        ((fix all (es : list (str * Node)) : Forall (fun e => P (snd e)) es :=
            match es with
            | [] => Forall_nil _
            | e :: es' =>
                Forall_cons e
                  (Node_nested_ind P Hfile Hother Hmissing Hunlisted Hdir (snd e))
                  (all es')
            end) entries)
  end.

Lemma filesBelow_FileAt (node : Node) :
  forall uri f, In f (filesBelow uri node) <-> FileAt uri node f.
Proof.
  induction node as [| | | |entries IH] using Node_nested_ind; intros uri f.
  - simpl. split.
    + intros [<-|[]]. constructor.
    + intros H. inversion H. now left.
  - simpl. split; [tauto|]. intros H. inversion H.
  - simpl. split; [tauto|]. intros H. inversion H.
  - simpl. split; [tauto|]. intros H. inversion H.
  - simpl. rewrite in_flat_map. split.
    + intros [[name child] [Hin Hf]]. simpl in Hf.
      rewrite Forall_forall in IH. apply (IH _ Hin) in Hf.
      econstructor; eassumption.
    + intros H. inversion H as [|? ? name child ? Hin Hf]; subst.
      exists (name, child). split; [exact Hin|].
      rewrite Forall_forall in IH. now apply (IH _ Hin).
Qed.

Lemma joinPath_length (base name : str) :
  length base + length name <= length (Path.joinPath base name).
Proof.
  unfold Path.joinPath. destruct (Js.eqb base Path.sep);
    repeat rewrite length_app; simpl; lia.
Qed.

Lemma FileAt_length (uri : Uri) (node : Node) (f : Uri) :
  FileAt uri node f -> length uri <= length f.
Proof.
  induction 1 as [|uri entries name child f Hin Hf IH]; [lia|].
  pose proof (joinPath_length uri name). lia.
Qed.

(** A file beneath a directory has a longer path than the directory. *)
Lemma FileAt_directory_longer (uri : Uri) (entries : list (str * Node)) (f : Uri) :
  (forall name child, In (name, child) entries -> name <> []) ->
  FileAt uri (Directory (Some entries)) f -> length uri < length f.
Proof.
  intros Hnames H. inversion H as [|? ? name child ? Hin Hf]; subst.
  apply FileAt_length in Hf. pose proof (joinPath_length uri name).
  specialize (Hnames _ _ Hin). destruct name; [contradiction|]. simpl in *. lia.
Qed.

Lemma getAllFileUris_FileAt (fs : FileSystem) (uris : list Uri) (f : Uri) :
  In f (getAllFileUris fs uris) <-> exists uri, In uri uris /\ FileAt uri (fs uri) f.
Proof.
  unfold getAllFileUris. rewrite in_flat_map. split.
  - intros [uri [Hin Hf]]. exists uri. split; [exact Hin|]. now apply filesBelow_FileAt.
  - intros [uri [Hin Hf]]. exists uri. split; [exact Hin|]. now apply filesBelow_FileAt.
Qed.

(** A directory that can be listed is none of the files found beneath
    it: they are longer paths. *)
Lemma directory_not_found (fs : FileSystem) (d : Uri) (entries : list (str * Node)) :
  fs d = Directory (Some entries) -> WellFormed (fs d) ->
  ~ In d (getAllFileUris fs [d]).
Proof.
  intros Hd Hwf Hf.
  unfold getAllFileUris in Hf. simpl in Hf. rewrite app_nil_r in Hf.
  apply filesBelow_FileAt in Hf. rewrite Hd in Hf, Hwf.
  apply FileAt_directory_longer in Hf; [lia|].
  intros name child Hin. inversion Hwf as [| | | |? ? Hall]; subst.
  apply (Hall _ _ Hin).
Qed.

Section SetStateKeys.

Variable uriString : str -> str.

(** C9. [setState] writes at the keys of files, and at the key of every
    file beneath the URIs it is given.  The files it runs over are
    those that lie beneath one of the URIs, through directories that
    can be listed, no more and no fewer; after the call the key of each
    of them holds the state (or nothing, for ['treeOnly']), and every
    key that is the key of none of them holds what it held.  So a
    directory handed to [setState] gets no entry of its own: its files
    are longer paths, with other keys; and where the file system
    answers [File] at every file it lists, no path at which it answers
    anything else gains or loses an entry. *)
Theorem setState_writes_file_keys (fs : FileSystem) (mgr : Manager) (disk : Disk)
    (uris : list Uri) (state : str) :
  let after := fileStates (fst (fst (setState uriString fs mgr disk uris state))) in
  (forall f, In f (getAllFileUris fs uris)
             <-> exists uri, In uri uris /\ FileAt uri (fs uri) f)
  /\ (forall uri f, In uri uris -> FileAt uri (fs uri) f ->
        JsMap.get after (uriString f) = stored state)
  /\ (forall k, (forall uri f, In uri uris -> FileAt uri (fs uri) f -> uriString f <> k) ->
        JsMap.get after k = JsMap.get (fileStates mgr) k)
  /\ (forall d entries,
        uris = [d] -> fs d = Directory (Some entries) ->
        WellFormed (fs d) ->
        (forall a b, uriString a = uriString b -> a = b) ->
        JsMap.get after (uriString d) = JsMap.get (fileStates mgr) (uriString d))
  /\ ((forall a b, uriString a = uriString b -> a = b) ->
      (forall uri f, In uri uris -> FileAt uri (fs uri) f -> fs f = File) ->
      forall d, fs d <> File ->
        JsMap.get after (uriString d) = JsMap.get (fileStates mgr) (uriString d)).
Proof.
  intros after. subst after. rewrite setState_states.
  split; [|split; [|split; [|split]]].
  - intros f. apply getAllFileUris_FileAt.
  - intros uri f Hin Hf. apply forEach_same.
    apply getAllFileUris_FileAt. now exists uri.
  - intros k Hk. apply forEach_other. intros f Hf.
    apply getAllFileUris_FileAt in Hf as [uri [Hin Hf]]. now apply (Hk uri).
  - intros d entries -> Hd Hwf Hinj. apply forEach_other.
    intros f Hf E. apply Hinj in E. subst f.
    now apply (@directory_not_found fs d entries Hd Hwf).
  - intros Hinj Hfiles d Hd. apply forEach_other. intros f Hf E.
    apply Hinj in E. subst f.
    apply getAllFileUris_FileAt in Hf as [uri [Hin Hf]].
    apply Hd. now apply (Hfiles uri).
Qed.

End SetStateKeys.

Lemma setState_writes_file_keys_witness :
  let after :=
    fileStates (fst (fst (setState Demo.key Demo.fs Demo.manager Demo.disk
                            [lit "/w/d"] excluded))) in
  FileAt (lit "/w/d") (Demo.fs (lit "/w/d")) (lit "/w/d/x.js")
  /\ In (lit "/w/d/x.js") (getAllFileUris Demo.fs [lit "/w/d"])
  /\ JsMap.get after (Demo.key (lit "/w/d/x.js")) = Some excluded
  /\ Demo.fs (lit "/w/d") <> File
  /\ JsMap.get after (Demo.key (lit "/w/d")) = None
  /\ JsMap.get after (Demo.key (lit "/w/a.py")) = None.
Proof.
  intros after.
  assert (Hx : FileAt (lit "/w/d") (Demo.fs (lit "/w/d")) (lit "/w/d/x.js")).
  { change (Demo.fs (lit "/w/d"))
      with (Directory (Some [(lit "x.js", File); (lit "y.js", File)])).
    apply file_inside with (name := lit "x.js") (child := File); [now left|].
    apply file_here. }
  assert (Hinj : forall a b, Demo.key a = Demo.key b -> a = b).
  { intros a b H. unfold Demo.key in H. now apply app_inv_head in H. }
  assert (Hfiles : forall uri f, In uri [lit "/w/d"] -> FileAt uri (Demo.fs uri) f ->
                                 Demo.fs f = File).
  { intros uri f [<-|[]] Hf. apply filesBelow_FileAt in Hf.
    destruct Hf as [<-|[<-|[]]]; reflexivity. }
  assert (Hd : Demo.fs (lit "/w/d") <> File) by discriminate.
  destruct (setState_writes_file_keys Demo.key Demo.fs Demo.manager Demo.disk
              [lit "/w/d"] excluded) as (H1 & H2 & H3 & _ & H5).
  split; [exact Hx|]. split.
  - apply H1. exists (lit "/w/d"). split; [now left|exact Hx].
  - split; [exact (H2 _ _ (or_introl eq_refl) Hx)|]. split; [exact Hd|]. split.
    + exact (H5 Hinj Hfiles _ Hd).
    + apply (H3 (Demo.key (lit "/w/a.py"))).
      intros uri f [<-|[]] Hf E. apply Hinj in E. subst f.
      apply filesBelow_FileAt in Hf. destruct Hf as [Hf|[Hf|[]]]; discriminate.
Defined.

(* ================================================================== *)
(** * [JSON.parse] reads back what [JSON.stringify] wrote              *)
(* ================================================================== *)

Module JsonFacts.

Import Json.
Open Scope N_scope.

Lemma run_app (s : state) (a b : str) :
  run s (a ++ b) = match run s a with Some s' => run s' b | None => None end.
Proof.
  revert s. induction a as [|c a IH]; intros s; simpl; [reflexivity|].
  destruct (step s c); [apply IH|reflexivity].
Qed.

Definition inString (k : bool) (acc : str) (st : list frame) : state :=
  {| reading := MString k acc; stack := st |}.

(** A code unit that stands for itself inside a string. *)
Lemma step_plain (k : bool) (acc : str) (st : list frame) (c : N) :
  c <> 34 -> c <> 92 -> 32 <= c ->
  step (inString k acc st) c = Some (inString k (c :: acc) st).
Proof.
  intros H1 H2 H3. unfold step, inString. simpl.
  apply N.eqb_neq in H1, H2. rewrite H1, H2.
  assert (E : (c <? 32) = false) by (apply N.ltb_ge; exact H3).
  now rewrite E.
Qed.

(** A two-unit escape. *)
Lemma run_escape (k : bool) (acc : str) (st : list frame) (c e : N) :
  c <> 117 -> escapeValue c = Some e ->
  run (inString k acc st) [92; c] = Some (inString k (e :: acc) st).
Proof.
  intros Hu He. simpl. unfold step at 1. simpl.
  apply N.eqb_neq in Hu. rewrite Hu, He. reflexivity.
Qed.

(** The four digits of [\uXXXX] give the code unit back. *)
Lemma hexValue_hexDigit (d : N) : d < 16 -> hexValue (hexDigit d) = Some d.
Proof.
  intros H.
  assert (E : d = 0 \/ d = 1 \/ d = 2 \/ d = 3 \/ d = 4 \/ d = 5 \/ d = 6
              \/ d = 7 \/ d = 8 \/ d = 9 \/ d = 10 \/ d = 11 \/ d = 12
              \/ d = 13 \/ d = 14 \/ d = 15) by lia.
  repeat (destruct E as [->|E]; [reflexivity|]). subst d. reflexivity.
Qed.

Lemma nibbles (c : N) :
  c < 65536 ->
  (((0 * 16 + c / 4096 mod 16) * 16 + c / 256 mod 16) * 16 + c / 16 mod 16) * 16
  + c mod 16 = c.
Proof.
  intros H.
  change 4096 with (16 * 16 * 16). change 256 with (16 * 16).
  rewrite <- !N.Div0.div_div.
  pose proof (N.div_mod c 16 ltac:(discriminate)) as E0.
  pose proof (N.div_mod (c / 16) 16 ltac:(discriminate)) as E1.
  pose proof (N.div_mod (c / 16 / 16) 16 ltac:(discriminate)) as E2.
  pose proof (N.div_mod (c / 16 / 16 / 16) 16 ltac:(discriminate)) as E3.
  pose proof (N.mod_lt c 16 ltac:(discriminate)) as L0.
  pose proof (N.mod_lt (c / 16) 16 ltac:(discriminate)) as L1.
  pose proof (N.mod_lt (c / 16 / 16) 16 ltac:(discriminate)) as L2.
  pose proof (N.mod_lt (c / 16 / 16 / 16) 16 ltac:(discriminate)) as L3.
  generalize dependent (c / 16 / 16 / 16 / 16). intros q4.
  generalize dependent ((c / 16 / 16 / 16) mod 16). intros d3.
  generalize dependent (c / 16 / 16 / 16). intros q3.
  generalize dependent ((c / 16 / 16) mod 16). intros d2.
  generalize dependent (c / 16 / 16). intros q2.
  generalize dependent ((c / 16) mod 16). intros d1.
  generalize dependent (c / 16). intros q1.
  generalize dependent (c mod 16). intros d0.
  intros. lia.
Qed.

Lemma run_unicodeEscape (k : bool) (acc : str) (st : list frame) (c : N) :
  c < 65536 ->
  run (inString k acc st) (unicodeEscape c) = Some (inString k (c :: acc) st).
Proof.
  intros H. apply nibbles in H.
  assert (E3 : hexValue (hexDigit (c / 4096 mod 16)) = Some (c / 4096 mod 16))
    by (apply hexValue_hexDigit, N.mod_lt; discriminate).
  assert (E2 : hexValue (hexDigit (c / 256 mod 16)) = Some (c / 256 mod 16))
    by (apply hexValue_hexDigit, N.mod_lt; discriminate).
  assert (E1 : hexValue (hexDigit (c / 16 mod 16)) = Some (c / 16 mod 16))
    by (apply hexValue_hexDigit, N.mod_lt; discriminate).
  assert (E0 : hexValue (hexDigit (c mod 16)) = Some (c mod 16))
    by (apply hexValue_hexDigit, N.mod_lt; discriminate).
  unfold unicodeEscape, run, inString.
  unfold step at 1. cbn [reading stack]. change (92 =? 34) with false.
  change (92 =? 92) with true. cbv iota.
  unfold step at 1. cbn [reading stack]. change (117 =? 117) with true. cbv iota.
  unfold step at 1. cbn [reading stack]. rewrite E3.
  unfold step at 1. cbn [reading stack]. rewrite E2.
  unfold step at 1. cbn [reading stack]. rewrite E1.
  unfold step at 1. cbn [reading stack]. rewrite E0.
  now rewrite H.
Qed.

Lemma surrogate_plain (c : N) :
  isHigh c || isLow c = true -> c <> 34 /\ c <> 92 /\ 32 <= c /\ c < 65536.
Proof.
  unfold isHigh, isLow, Js.between. intros H.
  apply orb_true_iff in H as [H|H]; apply andb_true_iff in H as [H1 H2];
    apply N.leb_le in H1, H2; lia.
Qed.

(** [quoteUnit] is read back as the code unit. *)
Lemma run_quoteUnit (k : bool) (acc : str) (st : list frame) (c : N) :
  run (inString k acc st) (quoteUnit c) = Some (inString k (c :: acc) st).
Proof.
  unfold quoteUnit.
  destruct (c =? 8) eqn:E8; [apply N.eqb_eq in E8; subst; now apply run_escape|].
  destruct (c =? 9) eqn:E9; [apply N.eqb_eq in E9; subst; now apply run_escape|].
  destruct (c =? 10) eqn:E10; [apply N.eqb_eq in E10; subst; now apply run_escape|].
  destruct (c =? 12) eqn:E12; [apply N.eqb_eq in E12; subst; now apply run_escape|].
  destruct (c =? 13) eqn:E13; [apply N.eqb_eq in E13; subst; now apply run_escape|].
  destruct (c =? 34) eqn:E34; [apply N.eqb_eq in E34; subst; now apply run_escape|].
  destruct (c =? 92) eqn:E92; [apply N.eqb_eq in E92; subst; now apply run_escape|].
  destruct ((c <? 32) || isHigh c || isLow c) eqn:E.
  - apply run_unicodeEscape.
    rewrite <- orb_assoc in E. apply orb_true_iff in E as [E|E].
    + apply N.ltb_lt in E. lia.
    + now apply surrogate_plain in E.
  - apply orb_false_iff in E as [E _]. apply orb_false_iff in E as [E _].
    apply N.ltb_ge in E. apply N.eqb_neq in E34, E92.
    simpl. now rewrite step_plain.
Qed.

(** The inside of a quoted string is read back unit by unit. *)
Lemma run_quoteBody (s : str) :
  forall k acc st rest,
    run (inString k acc st) (quoteBody s ++ rest)
    = run (inString k (rev s ++ acc) st) rest.
Proof.
  assert (H : forall n s, (length s <= n)%nat -> forall k acc st rest,
            run (inString k acc st) (quoteBody s ++ rest)
            = run (inString k (rev s ++ acc) st) rest).
  { clear s. induction n as [|n IH]; intros s Hn k acc st rest.
    - destruct s; [reflexivity|simpl in Hn; lia].
    - destruct s as [|c [|d s]]; [reflexivity| |].
      + simpl quoteBody. rewrite run_app, run_quoteUnit. reflexivity.
      + simpl quoteBody. destruct (isHigh c && isLow d) eqn:E.
        * apply andb_true_iff in E as [Ec Ed].
          assert (Hc : isHigh c || isLow c = true) by now rewrite Ec.
          assert (Hd : isHigh d || isLow d = true) by (rewrite Ed; apply orb_true_r).
          apply surrogate_plain in Hc as (c1 & c2 & c3 & _).
          apply surrogate_plain in Hd as (d1 & d2 & d3 & _).
          change ((c :: d :: quoteBody s) ++ rest)
            with (c :: d :: (quoteBody s ++ rest)).
          cbn [run]. rewrite step_plain by assumption.
          cbn [run]. rewrite step_plain by assumption.
          assert (Hs : (length s <= n)%nat) by (simpl in Hn; lia).
          rewrite (IH s Hs).
          simpl rev. repeat rewrite <- app_assoc. reflexivity.
        * rewrite <- app_assoc, run_app, run_quoteUnit.
          assert (Hs : (length (d :: s) <= n)%nat) by (simpl in Hn; simpl; lia).
          rewrite (IH (d :: s) Hs).
          change (rev (c :: d :: s)) with (rev (d :: s) ++ [c]).
          rewrite <- app_assoc. reflexivity. }
  intros. now apply (H (length s)).
Qed.

(** A quoted string where a value is expected. *)
Lemma run_quote (b : bool) (st : list frame) (s rest : str) :
  run {| reading := MValue b; stack := st |} (quote s ++ rest)
  = run (complete (JStr s) st) rest.
Proof.
  unfold quote. change ((34 :: quoteBody s ++ [34]) ++ rest)
    with (34 :: (quoteBody s ++ [34]) ++ rest).
  cbn [run]. unfold step at 1. cbn [reading stack].
  change (isWs 34) with false. cbv iota.
  rewrite andb_false_r. unfold startValue. cbn [N.eqb Pos.eqb]. cbv iota.
  rewrite <- app_assoc.
  change (run (inString false [] st) (quoteBody s ++ [34] ++ rest)
          = run (complete (JStr s) st) rest).
  rewrite run_quoteBody. change ([34] ++ rest) with (34 :: rest).
  cbn [run]. unfold step at 1, inString.
  cbn [reading stack N.eqb Pos.eqb]. cbv iota. unfold stringDone.
  rewrite app_nil_r, rev_involutive. reflexivity.
Qed.

(** The value of a pair. *)
Definition pairValue (e : str * str) : value := JArr [JStr (fst e); JStr (snd e)].

Lemma run_pair (b : bool) (done : list value) (st : list frame) (e : str * str)
    (rest : str) :
  run {| reading := MValue b; stack := InArray done :: st |} (stringifyPair e ++ rest)
  = run {| reading := MAfter; stack := InArray (pairValue e :: done) :: st |} rest.
Proof.
  unfold stringifyPair. repeat rewrite <- app_assoc.
  change ([91] ++ quote (fst e) ++ [44] ++ quote (snd e) ++ [93] ++ rest)
    with (91 :: (quote (fst e) ++ 44 :: (quote (snd e) ++ 93 :: rest))).
  cbn [run]. unfold step at 1. cbn [reading stack].
  change (isWs 91) with false. cbv iota.
  change (b && (91 =? 93)) with (b && false). rewrite andb_false_r.
  unfold startValue. cbn [N.eqb Pos.eqb]. cbv iota.
  rewrite run_quote. cbn [complete run].
  unfold step at 1. cbn [reading stack afterValue].
  change (isWs 44) with false. cbv iota. cbn [N.eqb Pos.eqb]. cbv iota.
  rewrite run_quote. cbn [complete run].
  unfold step at 1. cbn [reading stack afterValue].
  change (isWs 93) with false. cbv iota. cbn [N.eqb Pos.eqb]. cbv iota.
  reflexivity.
Qed.

Lemma run_pairs (es : list (str * str)) :
  forall b done e,
    run {| reading := MValue b; stack := [InArray done] |}
      (Js.join (map stringifyPair (e :: es)) [44] ++ [93])
    = Some {| reading := MDone (JArr (rev done ++ map pairValue (e :: es)));
              stack := [] |}.
Proof.
  induction es as [|e' es IH]; intros b done e.
  - cbn [map Js.join]. rewrite run_pair. cbn [run]. unfold step at 1.
    cbn [reading stack afterValue]. change (isWs 93) with false. cbv iota.
    cbn [N.eqb Pos.eqb]. cbv iota. reflexivity.
  - change (Js.join (map stringifyPair (e :: e' :: es)) [44])
      with (stringifyPair e ++ [44] ++ Js.join (map stringifyPair (e' :: es)) [44]).
    rewrite <- app_assoc, run_pair.
    rewrite <- app_assoc.
    change ([44] ++ Js.join (map stringifyPair (e' :: es)) [44] ++ [93])
      with (44 :: (Js.join (map stringifyPair (e' :: es)) [44] ++ [93])).
    cbn [run]. unfold step at 1.
    cbn [reading stack afterValue]. change (isWs 44) with false. cbv iota.
    cbn [N.eqb Pos.eqb]. cbv iota.
    rewrite IH. simpl rev. rewrite <- app_assoc. reflexivity.
Qed.

(** [JSON.parse(JSON.stringify(entries))] is the array of the pairs. *)
Lemma parse_stringifyEntries (es : list (str * str)) :
  parse (stringifyEntries es) = Some (JArr (map pairValue es)).
Proof.
  unfold parse, stringifyEntries.
  change ([91] ++ Js.join (map stringifyPair es) [44] ++ [93])
    with (91 :: (Js.join (map stringifyPair es) [44] ++ [93])).
  cbn [run]. unfold step at 1, initial. cbn [reading stack].
  change (isWs 91) with false. cbv iota. cbn [andb]. unfold startValue.
  cbn [N.eqb Pos.eqb]. cbv iota.
  destruct es as [|e es].
  - reflexivity.
  - rewrite run_pairs. reflexivity.
Qed.

End JsonFacts.

(* ================================================================== *)
(** * Persistence                                                      *)
(* ================================================================== *)

Lemma entriesOf_pairs (es : list (str * str)) :
  entriesOf (Json.JArr (map JsonFacts.pairValue es)) = Typed es.
Proof.
  simpl. induction es as [|[k v] es IH]; simpl; [reflexivity|].
  now rewrite IH.
Qed.

(** Loading a file that holds [JSON.stringify] of some pairs of strings
    builds the map of these pairs. *)
Lemma loadState_stringified (mgr : Manager) (disk : Disk) (es : list (str * str)) :
  stateFilePath mgr <> None ->
  stateFile disk = Some (Json.stringifyEntries es) ->
  readThrows disk = false ->
  loadState mgr disk = Some (withStates mgr (JsMap.ofEntries es), [Fire []]).
Proof.
  intros Hpath Hfile Hread. unfold loadState.
  destruct (stateFilePath mgr); [|contradiction].
  rewrite Hfile, Hread, JsonFacts.parse_stringifyEntries, entriesOf_pairs.
  reflexivity.
Qed.

(** C6. [saveState] and then [loadState] (by a manager of the same
    workspace, on a disk that takes the calls) gives back the map that
    was saved, entry for entry and in the same order, when no key
    stands twice in it, as in every [Map]: the empty map comes back
    empty, and every path has the effective policy it had. *)
Theorem save_then_load (mgr loader : Manager) (disk : Disk) :
  stateFilePath mgr <> None ->
  stateFilePath loader <> None ->
  mkdirThrows disk = false -> writeThrows disk = false -> readThrows disk = false ->
  NoDup (JsMap.keys (fileStates mgr)) ->
  let disk' := fst (saveState mgr disk) in
  loadState loader disk' = Some (withStates loader (fileStates mgr), [Fire []])
  /\ forall loaded effects,
       loadState loader disk' = Some (loaded, effects) ->
       fileStates loaded = fileStates mgr
       /\ (fileStates mgr = [] -> fileStates loaded = [])
       /\ forall uriString uri,
            getState uriString (fileStates loaded) uri
            = getState uriString (fileStates mgr) uri.
Proof.
  intros Hpath Hloader Hmk Hwr Hrd Hnd disk'.
  destruct (saveState_writes mgr disk Hpath Hmk Hwr) as (Hfile & Hread & _).
  fold disk' in Hfile, Hread.
  assert (Hload : loadState loader disk'
                  = Some (withStates loader (fileStates mgr), [Fire []])).
  { rewrite (@loadState_stringified loader disk' (JsMap.entries (fileStates mgr)))
      by (try assumption; congruence).
    unfold JsMap.entries. now rewrite ofEntries_distinct. }
  split; [exact Hload|].
  intros loaded effects H. rewrite Hload in H. injection H as <- <-.
  simpl. repeat split. intros E. exact E.
Qed.

Lemma save_then_load_witness :
  let mgr := withStates Demo.manager
               [(Demo.key (lit "/w/a.py"), fullContent);
                (Demo.key (lit "/w/d/x.js"), excluded)] in
  NoDup (JsMap.keys (fileStates mgr))
  /\ stateFile (fst (saveState mgr Demo.disk))
     = Some (Js.dq "[['file:///w/a.py','fullContent'],['file:///w/d/x.js','excluded']]")
  /\ loadState Demo.manager (fst (saveState mgr Demo.disk))
     = Some (mgr, [Fire []]).
Proof.
  cbv zeta.
  assert (Hnd : NoDup (JsMap.keys (fileStates
            (withStates Demo.manager
               [(Demo.key (lit "/w/a.py"), fullContent);
                (Demo.key (lit "/w/d/x.js"), excluded)])))).
  { repeat constructor; simpl; intuition discriminate. }
  split; [exact Hnd|]. split; [reflexivity|].
  apply (@save_then_load
           (withStates Demo.manager
              [(Demo.key (lit "/w/a.py"), fullContent);
               (Demo.key (lit "/w/d/x.js"), excluded)])
           Demo.manager Demo.disk); try reflexivity; try discriminate. exact Hnd.
Defined.

(** C7, as the code has it.  A state file whose text [JSON.parse]
    refuses, or whose value [new Map] cannot iterate as entries, empties
    the map and shows the error message; nothing of the file is kept.
    The tags themselves are not checked: a file of well-formed pairs of
    strings is loaded as written, whatever its tags are. *)
Theorem loadState_rejects_unparsable (mgr : Manager) (disk : Disk) (text : str) :
  stateFilePath mgr <> None ->
  stateFile disk = Some text ->
  (Json.parse text = None ->
     loadState mgr disk = Some (withStates mgr [], [ShowError loadFailed]))
  /\ (forall parsed, Json.parse text = Some parsed -> entriesOf parsed = Throws ->
        loadState mgr disk = Some (withStates mgr [], [ShowError loadFailed]))
  /\ (forall entries, text = Json.stringifyEntries entries ->
        readThrows disk = false ->
        loadState mgr disk
        = Some (withStates mgr (JsMap.ofEntries entries), [Fire []])).
Proof.
  intros Hpath Hfile. split; [|split].
  - intros Hparse. unfold loadState. destruct (stateFilePath mgr); [|contradiction].
    rewrite Hfile, Hparse. now destruct (readThrows disk).
  - intros parsed Hparse Hthrows. unfold loadState.
    destruct (stateFilePath mgr); [|contradiction].
    rewrite Hfile, Hparse, Hthrows. now destruct (readThrows disk).
  - intros entries -> Hread. now apply loadState_stringified.
Qed.

(** A disk whose state file holds the given text. *)
Definition diskWith (text : str) : Disk :=
  {| dirExists := true; stateFile := Some text;
     mkdirThrows := false; writeThrows := false; readThrows := false |}.

Lemma loadState_rejects_unparsable_witness :
  Json.parse (Js.dq "[['file:///w/a.py','excluded'],") = None
  /\ loadState (withStates Demo.manager [(Demo.key (lit "/w/d/x.js"), fullContent)])
       (diskWith (Js.dq "[['file:///w/a.py','excluded'],"))
     = Some (Demo.manager, [ShowError loadFailed]).
Proof.
  split; [reflexivity|].
  apply (@loadState_rejects_unparsable
           (withStates Demo.manager [(Demo.key (lit "/w/d/x.js"), fullContent)])
           (diskWith (Js.dq "[['file:///w/a.py','excluded'],"))
           (Js.dq "[['file:///w/a.py','excluded'],"));
    [discriminate|reflexivity|reflexivity].
Defined.

(** C7, as stated, fails: a state file with the tag ["bogus"] is
    loaded without any error shown; the map is not emptied, it holds the
    unknown tag, and the effective policy of the path is that tag. *)
Lemma loadState_unknown_tag_counterexample :
  let text := Js.dq "[['file:///w/a.py','bogus']]" in
  let key := Demo.key (lit "/w/a.py") in
  loadState Demo.manager (diskWith text)
  = Some (withStates Demo.manager [(key, lit "bogus")], [Fire []])
  /\ loadState Demo.manager (diskWith text)
     <> Some (withStates Demo.manager [], [ShowError loadFailed])
  /\ getState Demo.key [(key, lit "bogus")] (lit "/w/a.py") = lit "bogus".
Proof.
  cbv zeta. split; [reflexivity|]. split; [|reflexivity].
  vm_compute. discriminate.
Qed.

(* ================================================================== *)
(** * The stream relay                                                 *)
(* ================================================================== *)

Module SseFacts.

Import Sse.

Lemma checkAll_true : checkAll = true.
Proof. vm_compute. reflexivity. Qed.

Lemma frameOnlyAtStart_true : frameOnlyAtStart = true.
Proof. vm_compute. reflexivity. Qed.

Lemma sameMessages_eq (a b : list Message) : sameMessages a b = true -> a = b.
Proof.
  revert b. induction a as [|x a IH]; intros [|y b] H; simpl in H;
    try discriminate; [reflexivity|].
  apply andb_true_iff in H as [Hxy Hab]. apply IH in Hab. subst b.
  destruct x as [| | |[]| |], y as [| | |[]| |]; simpl in Hxy; try discriminate.
  apply eqb_eq in Hxy. now subst.
Qed.

Lemma sameBytes_refl (a : list byte) : sameBytes a a = true.
Proof.
  induction a as [|x a IH]; [reflexivity|]. simpl. rewrite IH, andb_true_r.
  now apply Byte.byte_dec_lb.
Qed.

(** One read that holds a slice of the body. *)
Lemma relayRead_slice (from count : nat) :
  from + count <= length responseBody ->
  relayRead (slice from count) = expected from count.
Proof.
  intros H. apply sameMessages_eq.
  pose proof checkAll_true as Hall. unfold checkAll in Hall.
  rewrite forallb_forall in Hall.
  assert (Hfrom : checkFrom from = true) by (apply Hall, in_seq; lia).
  unfold checkFrom in Hfrom. rewrite forallb_forall in Hfrom.
  apply Hfrom, in_seq. lia.
Qed.

(** A read is the slice of the body where it stands. *)
Lemma read_is_slice (c : list byte) (rest : list (list byte)) (from : nat) :
  from <= length responseBody ->
  concat (c :: rest) = skipn from responseBody ->
  c = slice from (length c)
  /\ from + length c <= length responseBody
  /\ concat rest = skipn (from + length c) responseBody.
Proof.
  intros Hfrom H. simpl in H.
  assert (Hlen : length c + length (concat rest) = length responseBody - from).
  { rewrite <- length_app, H. apply length_skipn. }
  split; [|split].
  - unfold slice. rewrite <- H. rewrite firstn_app, Nat.sub_diag, firstn_all.
    simpl. now rewrite app_nil_r.
  - lia.
  - rewrite Nat.add_comm, <- skipn_skipn, <- H.
    rewrite skipn_app, Nat.sub_diag, skipn_all. reflexivity.
Qed.

(** Reads that start past the start of the body post nothing. *)
Lemma later_reads_silent (chunks : list (list byte)) :
  forall from, 0 < from <= length responseBody ->
    concat chunks = skipn from responseBody ->
    relayStream (reads chunks) = [].
Proof.
  induction chunks as [|c rest IH]; intros from Hfrom H; [reflexivity|].
  destruct (@read_is_slice c rest from ltac:(lia) H) as (Hc & Hlen & Hrest).
  simpl. rewrite Hc, relayRead_slice by exact Hlen.
  rewrite (IH (from + length c)) by (try lia; exact Hrest).
  unfold expected. destruct from; [lia|reflexivity].
Qed.

(** What the relay posts for the body, however it is split into reads:
    the fragment when the first read that is not empty holds the whole
    first frame, and nothing otherwise. *)
Lemma relayStream_body (chunks : list (list byte)) :
  concat chunks = responseBody ->
  relayStream (reads chunks) = if firstFrameWhole chunks then [hi] else [].
Proof.
  induction chunks as [|c rest IH]; intros H; [discriminate|].
  destruct c as [|b c].
  - simpl. apply IH. exact H.
  - destruct (@read_is_slice (b :: c) rest 0 ltac:(lia) H) as (Hc & Hlen & Hrest).
    cbn [reads fold_right relayStream]. fold (reads rest).
    rewrite (later_reads_silent rest (from := 0 + length (b :: c)))
      by (try exact Hrest; simpl; simpl in Hlen; lia).
    rewrite app_nil_r, Hc, relayRead_slice by exact Hlen.
    unfold expected. cbn [Nat.eqb andb firstFrameWhole].
    rewrite <- Hc. reflexivity.
Qed.

Lemma sameBytes_slice_start (from : nat) :
  firstn (length frameHi) (skipn from responseBody) = frameHi -> from = 0.
Proof.
  intros H. destruct from as [|from]; [reflexivity|exfalso].
  destruct (Nat.lt_ge_cases from (length responseBody)) as [Hlt|Hge].
  - pose proof frameOnlyAtStart_true as Hall. unfold frameOnlyAtStart in Hall.
    rewrite forallb_forall in Hall.
    specialize (Hall from ltac:(apply in_seq; lia)).
    unfold slice in Hall. rewrite H, sameBytes_refl in Hall. discriminate.
  - rewrite skipn_all2 in H by lia. rewrite firstn_nil in H. discriminate.
Qed.

(** A read that holds the whole first frame is the first read that is
    not empty. *)
Lemma whole_frame_first (chunks : list (list byte)) :
  forall from, from <= length responseBody ->
    concat chunks = skipn from responseBody ->
    (exists c, In c chunks /\ firstn (length frameHi) c = frameHi) ->
    from = 0 /\ firstFrameWhole chunks = true.
Proof.
  induction chunks as [|c0 rest IH]; intros from Hfrom H [c [Hin Hc]];
    [destruct Hin|].
  destruct (@read_is_slice c0 rest from Hfrom H) as (Hc0 & Hlen & Hrest).
  destruct Hin as [->|Hin].
  - assert (Hlong : length frameHi <= length c).
    { pose proof (f_equal (@length byte) Hc) as Hl.
      rewrite length_firstn in Hl. lia. }
    rewrite Hc0 in Hc. unfold slice in Hc.
    rewrite firstn_firstn, Nat.min_l in Hc by exact Hlong.
    apply sameBytes_slice_start in Hc. split; [exact Hc|].
    destruct c as [|b c]; [simpl in Hlong; lia|].
    cbn [firstFrameWhole]. now apply Nat.leb_le.
  - destruct (IH (from + length c0) Hlen Hrest) as [H0 Hwhole];
      [now exists c|].
    split; [lia|]. destruct c0 as [|b c0]; [exact Hwhole|simpl in H0; lia].
Qed.

(** C1, as the code has it.  For the body of the example, split into
    reads in any way that leaves the first frame whole in one read, the
    relay posts the fragment ["Hi"] once and then the end-of-turn
    signal once, and nothing else.  (Every read is decoded and parsed
    on its own; the source keeps nothing from one read to the next.) *)
Theorem relay_whole_frame (host : str) (chunks : list (list byte)) :
  host <> [] ->
  concat chunks = responseBody ->
  (exists c, In c chunks /\ firstn (length frameHi) c = frameHi) ->
  handleChatRequest (Some host) (serves chunks) = [hi; ChatEnd].
Proof.
  intros Hhost Hbody Hwhole. destruct host as [|c h]; [contradiction|].
  unfold handleChatRequest, attempt, serves. cbn [ok body].
  rewrite relayStream_body by exact Hbody.
  destruct (whole_frame_first chunks (from := 0) ltac:(lia) Hbody Hwhole) as [_ ->].
  reflexivity.
Qed.

(** A frame cut by the end of a read is lost: whenever no read holds
    the whole first frame, only the end-of-turn signal is posted. *)
Lemma relay_cut_frame (host : str) (chunks : list (list byte)) :
  host <> [] ->
  concat chunks = responseBody ->
  firstFrameWhole chunks = false ->
  handleChatRequest (Some host) (serves chunks) = [ChatEnd].
Proof.
  intros Hhost Hbody Hcut. destruct host as [|c h]; [contradiction|].
  unfold handleChatRequest, attempt, serves. cbn [ok body].
  rewrite relayStream_body by exact Hbody. now rewrite Hcut.
Qed.

Lemma relay_whole_frame_witness :
  let chunks := [firstn 50 responseBody; skipn 50 responseBody] in
  concat chunks = responseBody
  /\ firstn (length frameHi) (firstn 50 responseBody) = frameHi
  /\ handleChatRequest (Some (lit "http://localhost:9600")) (serves chunks)
     = [hi; ChatEnd].
Proof.
  cbv zeta. split; [reflexivity|]. split; [reflexivity|].
  apply (@relay_whole_frame (lit "http://localhost:9600")
           [firstn 50 responseBody; skipn 50 responseBody]).
  - discriminate.
  - reflexivity.
  - exists (firstn 50 responseBody). split; [now left|reflexivity].
Defined.

(** C1, as stated, fails: with the body split after its twelfth byte,
    inside the first frame, the two reads give back the body, and the
    relay posts the end-of-turn signal alone; the fragment ["Hi"] is
    never forwarded. *)
Lemma relay_split_frame_counterexample :
  let chunks := [firstn 12 responseBody; skipn 12 responseBody] in
  concat chunks = responseBody
  /\ Js.decode (firstn 12 responseBody) = Js.dq "data: {'choi"
  /\ handleChatRequest (Some (lit "http://localhost:9600")) (serves chunks)
     = [ChatEnd]
  /\ ~ In hi (handleChatRequest (Some (lit "http://localhost:9600")) (serves chunks)).
Proof.
  cbv zeta. split; [reflexivity|]. split; [reflexivity|].
  split; [reflexivity|]. vm_compute. intros [H|[]]. discriminate.
Qed.

End SseFacts.

Lemma relayFrame_chunks (l : str) : forallb isChatChunk (relayFrame l) = true.
Proof.
  unfold relayFrame. destruct (Js.eqb _ doneMark); [reflexivity|].
  destruct (Json.parse _) as [parsed|]; [|reflexivity].
  destruct (deltaContent parsed) as [[content|]|]; try reflexivity.
  destruct (Json.truthy (Some content)); reflexivity.
Qed.

Lemma relayRead_chunks (value : list byte) :
  forallb isChatChunk (relayRead value) = true.
Proof.
  unfold relayRead.
  induction (filter (fun l => Js.startsWith l dataPrefix)
               (Js.split (Js.decode value) blankLine)) as [|l ls IH];
    [reflexivity|].
  simpl. rewrite forallb_app, IH, relayFrame_chunks. reflexivity.
Qed.

Lemma chunks_no_end (l : list Message) :
  forallb isChatChunk l = true ->
  filter isChatEnd l = [] /\ filter isChatError l = [].
Proof.
  induction l as [|m l IH]; intros H; [now split|].
  simpl in H. apply andb_true_iff in H as [Hm Hl].
  destruct (IH Hl) as [H1 H2]. destruct m; try discriminate. simpl. now split.
Qed.

(** The loop posts fragments, and one error when a read throws; it
    never posts the end-of-turn signal. *)
Lemma relayStream_shape (s : Stream) :
  filter isChatEnd (relayStream s) = []
  /\ length (filter isChatError (relayStream s)) <= 1.
Proof.
  induction s as [|message|value rest [IH1 IH2]]; simpl; try (split; [reflexivity|lia]).
  destruct (chunks_no_end _ (relayRead_chunks value)) as [H1 H2].
  rewrite !filter_app, H1, H2. simpl. now split.
Qed.

(** The [try] block posts no end-of-turn signal and at most one error. *)
Lemma attempt_shape (fetch : str -> Fetched) (url : str) :
  filter isChatEnd (attempt fetch url) = []
  /\ length (filter isChatError (attempt fetch url)) <= 1.
Proof.
  unfold attempt. destruct (fetch url) as [message|response].
  - split; [reflexivity|simpl; lia].
  - destruct (ok response), (body response) as [stream|];
      try (split; [reflexivity|simpl; lia]).
    apply relayStream_shape.
Qed.

(** C8, as the code has it.  For every chat request made with a host
    configured, the end-of-turn signal is posted exactly once, as the
    last message, however the request goes: when [fetch] throws or the
    response is not a success, one error and then the signal; when the
    body streams, what the loop posts (the fragments and, if a read
    throws, one error) and then the signal. *)
Theorem chat_end_once (host : str) (fetch : str -> Fetched) :
  host <> [] ->
  let posted := handleChatRequest (Some host) fetch in
  length (filter isChatEnd posted) = 1
  /\ (exists before, posted = before ++ [ChatEnd])
  /\ (forall message,
        fetch (completionsUrl host) = FetchThrows message ->
        posted = [ChatError message; ChatEnd])
  /\ (forall response,
        fetch (completionsUrl host) = Responds response ->
        ok response = false \/ body response = None ->
        posted = [ChatError (lit "API error: " ++ Js.decimal (status response));
                  ChatEnd])
  /\ (forall response stream,
        fetch (completionsUrl host) = Responds response ->
        ok response = true -> body response = Some stream ->
        posted = relayStream stream ++ [ChatEnd]
        /\ length (filter isChatError posted) <= 1).
Proof.
  intros Hhost posted. subst posted. destruct host as [|c h]; [contradiction|].
  cbn [handleChatRequest].
  destruct (attempt_shape fetch (completionsUrl (c :: h))) as [Hend Herr].
  split; [|split; [|split; [|split]]].
  - now rewrite filter_app, Hend.
  - now exists (attempt fetch (completionsUrl (c :: h))).
  - intros message E. unfold attempt. now rewrite E.
  - intros response E Hfail. unfold attempt. rewrite E.
    destruct Hfail as [Hfail|Hfail]; rewrite Hfail;
      [reflexivity|now destruct (ok response)].
  - intros response stream E Hok Hbody. split.
    + unfold attempt. now rewrite E, Hok, Hbody.
    + rewrite filter_app, length_app. simpl. lia.
Qed.

Lemma chat_end_once_witness :
  let fetch := fun _ : str =>
    Responds {| ok := false; status := 503; body := None |} in
  lit "http://localhost:9600" <> []
  /\ handleChatRequest (Some (lit "http://localhost:9600")) fetch
     = [ChatError (lit "API error: 503"); ChatEnd].
Proof.
  cbv zeta.
  assert (Hhost : lit "http://localhost:9600" <> []) by discriminate.
  split; [exact Hhost|].
  destruct (@chat_end_once (lit "http://localhost:9600")
              (fun _ => Responds {| ok := false; status := 503; body := None |})
              Hhost) as (_ & _ & _ & H & _).
  apply (H _ eq_refl). now left.
Defined.

(** C8, as stated, fails when no host is configured (the setting is
    absent or empty): the request ends at the guard, one error is
    posted and no end-of-turn signal follows. *)
Lemma chat_no_host_counterexample :
  let fetch := Sse.serves [Sse.responseBody] in
  handleChatRequest None fetch = [ChatError notConfigured]
  /\ handleChatRequest (Some []) fetch = [ChatError notConfigured]
  /\ length (filter isChatEnd (handleChatRequest None fetch)) = 0.
Proof. cbv zeta. repeat split. Qed.

(* ================================================================== *)
(** * The order of [sort]                                              *)
(* ================================================================== *)

Module SortFacts.

Open Scope N_scope.

Lemma ltb_irrefl (a : str) : Js.ltb a a = false.
Proof.
  induction a as [|x a IH]; [reflexivity|]. simpl.
  now rewrite N.ltb_irrefl, N.eqb_refl, IH.
Qed.

Lemma ltb_trans (a : str) :
  forall b c, Js.ltb a b = true -> Js.ltb b c = true -> Js.ltb a c = true.
Proof.
  induction a as [|x a IH]; intros [|y b] [|z c] Hab Hbc; simpl in *;
    try discriminate; try reflexivity.
  apply orb_true_iff in Hab, Hbc. apply orb_true_iff.
  destruct Hab as [Hxy|Hxy], Hbc as [Hyz|Hyz].
  - left. apply N.ltb_lt in Hxy, Hyz. apply N.ltb_lt. lia.
  - apply andb_true_iff in Hyz as [E _]. apply N.eqb_eq in E. subst z. now left.
  - apply andb_true_iff in Hxy as [E _]. apply N.eqb_eq in E. subst y. now left.
  - apply andb_true_iff in Hxy as [E1 H1]. apply andb_true_iff in Hyz as [E2 H2].
    apply N.eqb_eq in E1, E2. subst y z. right.
    rewrite N.eqb_refl. simpl. now apply (IH b c).
Qed.

(** Of two different strings one is before the other. *)
Lemma ltb_connex (a : str) :
  forall b, Js.ltb a b = false -> Js.ltb b a = false -> a = b.
Proof.
  induction a as [|x a IH]; intros [|y b] Hab Hba; simpl in *;
    try discriminate; [reflexivity|].
  apply orb_false_iff in Hab as [Hxy Hab], Hba as [Hyx Hba].
  apply N.ltb_ge in Hxy, Hyx. assert (x = y) by lia. subst y.
  rewrite N.eqb_refl in Hab, Hba. simpl in Hab, Hba.
  f_equal. now apply IH.
Qed.

Lemma ltb_asym (a b : str) : Js.ltb a b = true -> Js.ltb b a = false.
Proof.
  intros H. destruct (Js.ltb b a) eqn:E; [|reflexivity].
  pose proof (ltb_trans _ _ _ H E) as Haa. now rewrite ltb_irrefl in Haa.
Qed.

Lemma leb_total (a b : str) : Js.leb a b = false -> Js.leb b a = true.
Proof.
  unfold Js.leb. intros H. apply negb_false_iff in H.
  apply ltb_asym in H. now rewrite H.
Qed.

Lemma leb_trans (a b c : str) :
  Js.leb a b = true -> Js.leb b c = true -> Js.leb a c = true.
Proof.
  unfold Js.leb. intros Hab Hbc. apply negb_true_iff in Hab, Hbc.
  apply negb_true_iff. destruct (Js.ltb c a) eqn:Hca; [|reflexivity].
  destruct (Js.ltb a b) eqn:E.
  - pose proof (ltb_trans _ _ _ Hca E). congruence.
  - assert (a = b) by now apply ltb_connex. subst b. congruence.
Qed.

Definition sortedLe : list str -> Prop :=
  StronglySorted (fun a b => Js.leb a b = true).

Lemma insert_perm (x : str) (l : list str) : Permutation (Js.insert x l) (x :: l).
Proof.
  induction l as [|y l IH]; simpl; [reflexivity|].
  destruct (Js.leb x y); [reflexivity|].
  rewrite IH. apply perm_swap.
Qed.

Lemma insert_sorted (x : str) (l : list str) :
  sortedLe l -> sortedLe (Js.insert x l).
Proof.
  induction 1 as [|y l Hl IH Hy]; simpl.
  - repeat constructor.
  - destruct (Js.leb x y) eqn:E.
    + constructor; [now constructor|]. constructor; [exact E|].
      rewrite Forall_forall in *. intros z Hz. eapply leb_trans; eauto.
    + constructor; [exact IH|].
      rewrite Forall_forall in *. intros z Hz.
      apply (Permutation_in _ (insert_perm x l)) in Hz as [<-|Hz].
      * now apply leb_total.
      * now apply Hy.
Qed.

Lemma sort_perm (l : list str) : Permutation (Js.sort l) l.
Proof.
  induction l as [|x l IH]; simpl; [reflexivity|].
  unfold Js.sort in *. simpl. rewrite insert_perm. now constructor.
Qed.

Lemma sort_sorted (l : list str) : sortedLe (Js.sort l).
Proof.
  induction l as [|x l IH]; simpl; [constructor|].
  unfold Js.sort in *. simpl. now apply insert_sorted.
Qed.

(** Sorted names that are all different ascend strictly. *)
Lemma sorted_strict (l : list str) :
  NoDup l -> sortedLe l -> StronglySorted (fun a b => Js.ltb a b = true) l.
Proof.
  intros Hnd Hs. induction Hs as [|x l Hl IH Hx]; [constructor|].
  inversion Hnd as [|? ? Hnotin Hnd']; subst.
  constructor; [now apply IH|].
  rewrite Forall_forall in *. intros y Hy. specialize (Hx y Hy).
  unfold Js.leb in Hx. apply negb_true_iff in Hx.
  destruct (Js.ltb x y) eqn:E; [reflexivity|].
  assert (x = y) by now apply ltb_connex. subst y. contradiction.
Qed.

End SortFacts.

(* ================================================================== *)
(** * The rendered tree                                                *)
(* ================================================================== *)

(** Induction on a tree, with the members of a level. *)
Fixpoint FileTree_nested_ind (P : FileTree -> Prop)
    (Hlevel : forall members, Forall (fun e => P (snd e)) members -> P (Level members))
    (tree : FileTree) : P tree :=
  match tree with
  | Level members =>
      Hlevel members
        ((fix all (ms : list (str * FileTree)) : Forall (fun e => P (snd e)) ms :=
            match ms with
            | [] => Forall_nil _
            | e :: ms' =>
                Forall_cons e (FileTree_nested_ind P Hlevel (snd e)) (all ms')
            end) members)
  end.

(** [level[name]], an empty object when there is none. *)
Definition child (members : list (str * FileTree)) (name : str) : FileTree :=
  match member members name with
  | Some sub => sub
  | None => Level []
  end.

Lemma atMember_member (A : Type) (k : FileTree -> A) (none : A) (name : str)
    (members : list (str * FileTree)) :
  atMember k none name members
  = match member members name with Some sub => k sub | None => none end.
Proof.
  induction members as [|[n sub] members IH]; simpl; [reflexivity|].
  destruct (Js.eqb n name); [reflexivity|exact IH].
Qed.

Lemma member_in (members : list (str * FileTree)) (name : str) (sub : FileTree) :
  member members name = Some sub -> In (name, sub) members.
Proof.
  induction members as [|[n s] members IH]; simpl; [discriminate|].
  destruct (Js.eqb n name) eqn:E.
  - intros H. injection H as <-. apply eqb_eq in E. subst. now left.
  - intros H. right. now apply IH.
Qed.

Lemma member_key (members : list (str * FileTree)) (name : str) :
  In name (map fst members) -> exists sub, member members name = Some sub.
Proof.
  induction members as [|[n s] members IH]; simpl; [tauto|].
  destruct (Js.eqb n name) eqn:E; [now exists s|].
  intros [H|H]; [apply eqb_neq in E; contradiction|now apply IH].
Qed.

Lemma member_not_key (members : list (str * FileTree)) (name : str) :
  ~ In name (map fst members) -> member members name = None.
Proof.
  induction members as [|[n s] members IH]; simpl; [reflexivity|]. intros H.
  destruct (Js.eqb n name) eqn:E.
  - apply eqb_eq in E. tauto.
  - apply IH. tauto.
Qed.

(** With every name once, each member is found under its name. *)
Lemma children_are_members (members : list (str * FileTree)) :
  NoDup (map fst members) ->
  map (fun name => (name, child members name)) (map fst members) = members.
Proof.
  induction members as [|[n s] members IH]; simpl; [reflexivity|].
  intros Hnd. inversion Hnd as [|? ? Hnotin Hnd']; subst.
  unfold child at 1. simpl. rewrite eqb_refl. f_equal.
  rewrite <- (IH Hnd') at 2. apply map_ext_in. intros name Hname.
  unfold child. simpl.
  destruct (Js.eqb n name) eqn:E; [|reflexivity].
  apply eqb_eq in E. subst. contradiction.
Qed.

Section TreeFacts.

Variable uriString : str -> str.
Variable states : FileStates.

(** The callback of [flatMap] in [buildLines]. *)
Definition entryBlock (members : list (str * FileTree)) (path : Uri)
    (entries : list str) (entry : str) (i : nat) : list str :=
  let uri := Path.joinPath path entry in
  let state := getState uriString states uri in
  let isLast := Nat.eqb i (length entries - 1) in
  let isDir :=
    atMember (fun sub => negb (Nat.eqb (length (membersOf sub)) 0))
      false entry members in
  let subLines :=
    atMember (fun sub =>
                if negb (Nat.eqb (length (membersOf sub)) 0)
                then buildLines uriString states sub uri else [])
      [] entry members in
  entryLine isLast isDir entry state
    :: map (fun s => (if isLast then blank else bar) ++ s) subLines.

Lemma buildLines_unfold (members : list (str * FileTree)) (path : Uri) :
  buildLines uriString states (Level members) path
  = flatMapi (entryBlock members path (Js.sort (map fst members))) 0
      (Js.sort (map fst members)).
Proof. reflexivity. Qed.

(** The entries from position [length before] on, rendered by the
    callback, are the lines of these entries. *)
Lemma flatMap_lines (members : list (str * FileTree)) (path : Uri)
    (entries : list str) :
  NoDup (map fst members) ->
  (forall name sub, In (name, sub) members ->
     forall p, LevelLines uriString states sub p (buildLines uriString states sub p)) ->
  forall before rest, entries = before ++ rest ->
    (forall name, In name rest -> In name (map fst members)) ->
    Lines uriString states (map (fun name => (name, child members name)) rest) path
      (flatMapi (entryBlock members path entries) (length before) rest).
Proof.
  intros Hnd IH before rest. revert before.
  induction rest as [|name rest IHrest]; intros before Hentries Hkeys;
    [constructor|].
  cbn [map flatMapi]. unfold entryBlock at 1. cbv zeta.
  destruct (member_key members name (Hkeys name (or_introl eq_refl)))
    as [sub Hsub].
  rewrite !atMember_member. unfold child at 1. rewrite Hsub.
  assert (Hlast : Nat.eqb (length before) (length entries - 1)
                  = match rest with [] => true | _ :: _ => false end).
  { subst entries. rewrite length_app. destruct rest; simpl.
    - apply Nat.eqb_eq. lia.
    - apply Nat.eqb_neq. lia. }
  rewrite Hlast.
  assert (Hnext : Lines uriString states
                    (map (fun name => (name, child members name)) rest) path
                    (flatMapi (entryBlock members path entries)
                       (S (length before)) rest)).
  { replace (S (length before)) with (length (before ++ [name]))
      by (rewrite length_app; simpl; lia).
    apply IHrest.
    - rewrite <- app_assoc. exact Hentries.
    - intros n Hn. apply Hkeys. now right. }
  pose proof (@lines_entry uriString states name sub
                (map (fun name => (name, child members name)) rest) path)
    as Hentry.
  destruct sub as [[|m ms]].
  - specialize (Hentry [] _ (@lines_level uriString states [] [] _ []
                               (Permutation_refl [])
                               (SSorted_nil _) (lines_none uriString states _))
                  Hnext).
    destruct rest; exact Hentry.
  - specialize (Hentry _ _ (IH _ _ (member_in _ _ Hsub) (Path.joinPath path name))
                  Hnext).
    destruct rest; exact Hentry.
Qed.

(** [buildLines] renders every level in ascending order of the names. *)
Lemma buildLines_lines (tree : FileTree) :
  UniqueKeys tree ->
  forall path, LevelLines uriString states tree path
                 (buildLines uriString states tree path).
Proof.
  induction tree as [members IH] using FileTree_nested_ind.
  intros Hunique path. inversion Hunique as [? Hnd Hsubs]; subst.
  pose proof (SortFacts.sort_perm (map fst members)) as Hperm.
  apply lines_level
    with (ordered := map (fun name => (name, child members name))
                       (Js.sort (map fst members))).
  - rewrite <- (children_are_members members Hnd) at 2.
    now apply Permutation_map.
  - unfold ascending.
    assert (Hs : StronglySorted (fun a b => Js.ltb a b = true)
                   (Js.sort (map fst members))).
    { apply SortFacts.sorted_strict; [|apply SortFacts.sort_sorted].
      apply (Permutation_NoDup (Permutation_sym Hperm) Hnd). }
    clear Hperm.
    induction Hs as [|x l Hl IHl Hx]; [constructor|].
    simpl. constructor; [exact IHl|].
    rewrite Forall_forall in *. intros [n s] Hin.
    apply in_map_iff in Hin as [y [E Hy]]. injection E as <- <-. simpl.
    now apply Hx.
  - rewrite buildLines_unfold.
    apply (@flatMap_lines members path (Js.sort (map fst members)) Hnd)
      with (before := []).
    + intros name sub Hin p. rewrite Forall_forall in IH.
      apply (IH (name, sub) Hin). now apply (Hsubs name sub).
    + reflexivity.
    + intros name Hin. now apply (Permutation_in _ Hperm).
Qed.

End TreeFacts.

Lemma setMember_in (members : list (str * FileTree)) (part : str) (sub : FileTree) :
  forall name s, In (name, s) (setMember members part sub) ->
    (name = part /\ s = sub) \/ In (name, s) members.
Proof.
  induction members as [|[n old] members IH]; simpl; intros name s H.
  - destruct H as [H|[]]. injection H as <- <-. now left.
  - destruct (Js.eqb n part) eqn:E.
    + destruct H as [H|H].
      * injection H as <- <-. apply eqb_eq in E. now left.
      * right. now right.
    + destruct H as [H|H]; [right; now left|].
      destruct (IH _ _ H) as [H'|H']; [now left|right; now right].
Qed.

Lemma setMember_keys (members : list (str * FileTree)) (part : str) (sub : FileTree) :
  NoDup (map fst members) -> NoDup (map fst (setMember members part sub)).
Proof.
  induction members as [|[n old] members IH]; simpl; intros Hnd.
  - repeat constructor. tauto.
  - inversion Hnd as [|? ? Hnotin Hnd']; subst.
    destruct (Js.eqb n part) eqn:E; simpl; [exact Hnd|].
    constructor; [|now apply IH].
    intros Hin. apply in_map_iff in Hin as [[n' s'] [Hn Hin]]. simpl in Hn. subst n'.
    apply setMember_in in Hin as [[Hn _]|Hin].
    + apply eqb_neq in E. contradiction.
    + apply Hnotin. apply in_map_iff. now exists (n, s').
Qed.

Lemma addPath_unique (parts : list str) :
  forall tree, UniqueKeys tree -> UniqueKeys (addPath parts tree).
Proof.
  induction parts as [|part rest IH]; intros tree Hunique; [exact Hunique|].
  destruct tree as [members]. inversion Hunique as [? Hnd Hsubs]; subst.
  cbn [addPath membersOf]. constructor.
  - now apply setMember_keys.
  - intros name s Hin. apply setMember_in in Hin as [[_ ->]|Hin].
    + apply IH. destruct (member members part) as [sub|] eqn:E.
      * apply (Hsubs part). now apply member_in.
      * constructor; [constructor|]. intros ? ? [].
    + now apply (Hsubs name).
Qed.

Lemma treeOf_unique (uris : list Uri) (rootUri : Uri) :
  UniqueKeys (treeOf uris rootUri).
Proof.
  unfold treeOf.
  assert (H : forall tree, UniqueKeys tree ->
            UniqueKeys
              (fold_left
                 (fun tree uri =>
                    match Path.relative rootUri uri with
                    | [] => tree
                    | _ :: _ =>
                        addPath (Js.split (Path.relative rootUri uri) Path.sep) tree
                    end) uris tree)).
  { induction uris as [|uri uris IH]; intros tree Htree; [exact Htree|].
    simpl. apply IH. destruct (Path.relative rootUri uri); [exact Htree|].
    now apply addPath_unique. }
  apply H. constructor; [constructor|]. intros ? ? [].
Qed.

Lemma badgeOf_tag (p : Policy) : badgeOf (tag p) = badge p.
Proof. destruct p; reflexivity. Qed.

(** C5, as the code has it.  The text is the line of the root followed
    by the lines of the tree, one per line.  At every level the entries
    come in ascending order of their names, compared code unit by code
    unit, directories and files alike (no kind comes first).  Every
    entry has its line: the connector (the corner for the last entry of
    its level, the branch otherwise), the glyph (the folder when the
    entry holds something, the page otherwise), a space, the name, and
    the badge of its effective policy (" [+]" for fullContent, " [S]"
    for signatures, none otherwise); the lines of what it holds follow,
    each behind three spaces for a last entry and behind a bar and two
    spaces otherwise. *)
Theorem markdown_tree_lines (uriString : str -> str) (states : FileStates)
    (workspaceName : option str) (uris : list Uri) (rootUri : Uri) :
  let tree := treeOf uris rootUri in
  let lines := buildLines uriString states tree rootUri in
  (exists rootName,
     generateMarkdownTreeFromUris uriString states workspaceName uris rootUri
     = Js.join ((folder ++ lit " " ++ rootName ++ lit "/") :: lines) newline)
  /\ LevelLines uriString states tree rootUri lines
  /\ (forall p, badgeOf (tag p) = badge p)
  /\ (forall state, state <> fullContent -> state <> signatures -> badgeOf state = []).
Proof.
  intros tree lines. split; [|split; [|split]].
  - eexists. reflexivity.
  - apply buildLines_lines, treeOf_unique.
  - apply badgeOf_tag.
  - intros state H1 H2. unfold badgeOf.
    apply eqb_neq in H1, H2. now rewrite H1, H2.
Qed.

(** C5, as stated, fails: with the files [a.py] and [b/c.js] under the
    root, the file [a.py] is listed before the directory [b]. *)
Lemma markdown_tree_file_first_counterexample :
  let states := [(Demo.key (lit "/w/p/a.py"), fullContent);
                 (Demo.key (lit "/w/p/b/c.js"), signatures)] in
  let uris := [lit "/w/p/b/c.js"; lit "/w/p/a.py"] in
  generateMarkdownTreeFromUris Demo.key states None uris (lit "/w/p")
  = lit "📁 p/
├─ 📄 a.py [+]
└─ 📁 b
   └─ 📄 c.js [S]"
  /\ buildLines Demo.key states (treeOf uris (lit "/w/p")) (lit "/w/p")
     = [branch ++ page ++ lit " a.py [+]";
        corner ++ folder ++ lit " b";
        blank ++ corner ++ page ++ lit " c.js [S]"].
Proof. cbv zeta. split; vm_compute; reflexivity. Qed.

(* ================================================================== *)
(** * Relative paths of the files beneath a root                       *)
(* ================================================================== *)

Module PathFacts.

Open Scope N_scope.

Definition noSlash (s : str) : Prop := ~ In Path.slash s.


Lemma startsWith_nil (s : str) : Js.startsWith s [] = true.
Proof. now destruct s. Qed.

Lemma startsWith_sep (c : N) (s : str) :
  Js.startsWith (c :: s) Path.sep = (c =? Path.slash).
Proof. simpl. rewrite startsWith_nil. apply andb_true_r. Qed.

Lemma split_go_plain (name : str) :
  noSlash name ->
  forall cur, Js.split_go Path.sep name 0 cur = [rev cur ++ name].
Proof.
  induction name as [|c name IH]; intros Hname cur.
  - simpl. now rewrite app_nil_r.
  - cbn [Js.split_go]. rewrite startsWith_sep.
    destruct (c =? Path.slash) eqn:E.
    + apply N.eqb_eq in E. exfalso. apply Hname. now left.
    + rewrite IH.
      * simpl. now rewrite <- app_assoc.
      * intros H. apply Hname. now right.
Qed.

(** Splitting at slashes goes through a slash. *)
Lemma split_go_slash (a b : str) :
  forall cur,
    Js.split_go Path.sep (a ++ Path.slash :: b) 0 cur
    = Js.split_go Path.sep a 0 cur ++ Js.split_go Path.sep b 0 [].
Proof.
  induction a as [|c a IH]; intros cur.
  - cbn [app Js.split_go]. rewrite startsWith_sep. reflexivity.
  - cbn [app Js.split_go]. rewrite !startsWith_sep.
    destruct (c =? Path.slash) eqn:E.
    + cbn [Path.sep length pred]. rewrite IH. reflexivity.
    + apply IH.
Qed.

Lemma split_slash (a b : str) :
  Js.split (a ++ Path.slash :: b) Path.sep
  = Js.split a Path.sep ++ Js.split b Path.sep.
Proof. apply split_go_slash. Qed.

Lemma split_plain (name : str) : noSlash name -> Js.split name Path.sep = [name].
Proof. intros H. apply (split_go_plain H []). Qed.

(** The parts of names joined by slashes are the names. *)
Lemma split_join (names : list str) :
  names <> [] -> Forall noSlash names ->
  Js.split (Js.join names Path.sep) Path.sep = names.
Proof.
  induction names as [|name [|next names] IH]; intros Hne Hall; [contradiction| |].
  - simpl. apply split_plain. now inversion Hall.
  - change (Js.join (name :: next :: names) Path.sep)
      with (name ++ Path.slash :: Js.join (next :: names) Path.sep).
    rewrite split_slash, split_plain by now inversion Hall.
    rewrite IH; [reflexivity|discriminate|now inversion Hall].
Qed.

Definition plain (name : str) : bool :=
  negb (Js.eqb name [] || Js.eqb name (lit ".")) && negb (Js.eqb name (lit "..")).

Lemma validName_plain (name : str) : validName name -> plain name = true.
Proof.
  intros (H1 & _ & H2 & H3). unfold plain.
  apply eqb_neq in H1, H2, H3. now rewrite H1, H2, H3.
Qed.

Lemma normalize_go_end (parts : list str) (name : str) :
  plain name = true ->
  forall acc, Path.normalize_go (parts ++ [name]) acc
              = Path.normalize_go parts acc ++ [name].
Proof.
  intros Hname. unfold plain in Hname. apply andb_true_iff in Hname as [H1 H2].
  apply negb_true_iff in H1, H2.
  induction parts as [|p parts IH]; intros acc; simpl.
  - now rewrite H1, H2.
  - destruct (Js.eqb p [] || Js.eqb p (lit ".")); [apply IH|].
    destruct (Js.eqb p (lit "..")); apply IH.
Qed.

(** Joining a valid name adds one segment. *)
Lemma segments_joinPath (uri name : str) :
  validName name ->
  Path.segments (Path.joinPath uri name) = Path.segments uri ++ [name].
Proof.
  intros Hname. pose proof (validName_plain Hname) as Hplain.
  destruct Hname as (_ & Hslash & _).
  unfold Path.joinPath, Path.segments.
  destruct (Js.eqb uri Path.sep) eqn:E.
  - apply eqb_eq in E. subst uri.
    change (Path.sep ++ name) with ([] ++ Path.slash :: name).
    rewrite split_slash, (@split_plain name Hslash).
    change (Js.split Path.sep Path.sep) with ([[]; []] : list str).
    change (Js.split [] Path.sep) with ([[]] : list str).
    simpl app. cbn [Path.normalize_go Js.eqb orb].
    unfold plain in Hplain. apply andb_true_iff in Hplain as [H1 H2].
    apply negb_true_iff in H1, H2. now rewrite H1, H2.
  - change (uri ++ Path.sep ++ name) with (uri ++ Path.slash :: name).
    rewrite split_slash, (@split_plain name Hslash).
    now apply normalize_go_end.
Qed.

Lemma segments_joinAll (names : list str) :
  Forall validName names ->
  forall uri, Path.segments (joinAll uri names) = Path.segments uri ++ names.
Proof.
  induction names as [|name names IH]; intros Hall uri; simpl.
  - now rewrite app_nil_r.
  - inversion Hall as [|? ? Hname Hnames]; subst.
    unfold joinAll in *. rewrite IH by exact Hnames.
    rewrite segments_joinPath by exact Hname. now rewrite <- app_assoc.
Qed.

Lemma dropCommon_prefix (a b : list str) : Path.dropCommon a (a ++ b) = ([], b).
Proof.
  induction a as [|x a IH]; simpl.
  - now destruct b.
  - now rewrite eqb_refl.
Qed.

(** The relative path of what lies beneath a root: the names from the
    root down, joined by slashes. *)
Lemma relative_joinAll (root : str) (names : list str) :
  Forall validName names ->
  Path.relative root (joinAll root names) = Js.join names Path.sep.
Proof.
  intros Hall. unfold Path.relative.
  rewrite segments_joinAll by exact Hall. now rewrite dropCommon_prefix.
Qed.

(** The names that lead from a URI to a path beneath it are read off
    the path. *)
Lemma joinAll_injective (uri : Uri) (a b : list str) :
  Forall validName a -> Forall validName b ->
  joinAll uri a = joinAll uri b -> a = b.
Proof.
  intros Ha Hb E. apply (f_equal Path.segments) in E.
  rewrite !segments_joinAll in E by assumption.
  now apply app_inv_head in E.
Qed.

End PathFacts.

(* ================================================================== *)
(** * An excluded directory is left out of the document                *)
(* ================================================================== *)

Module OmitFacts.


Lemma member_setMember_same (members : list (str * FileTree)) (part : str)
    (sub : FileTree) :
  member (setMember members part sub) part = Some sub.
Proof.
  induction members as [|[n old] members IH]; simpl.
  - now rewrite eqb_refl.
  - destruct (Js.eqb n part) eqn:E; simpl; now rewrite E.
Qed.

Lemma member_setMember_other (members : list (str * FileTree)) (part name : str)
    (sub : FileTree) :
  name <> part -> member (setMember members part sub) name = member members name.
Proof.
  intros Hne. induction members as [|[n old] members IH]; simpl.
  - assert (E : Js.eqb part name = false) by (apply eqb_neq; congruence).
    now rewrite E.
  - destruct (Js.eqb n part) eqn:E; simpl.
    + apply eqb_eq in E. subst n.
      assert (E : Js.eqb part name = false) by (apply eqb_neq; congruence).
      now rewrite E.
    + now rewrite IH.
Qed.



(** ** Files by the names that lead to them *)

Lemma FileAt_Descends (uri : Uri) (node : Node) (f : Uri) :
  FileAt uri node f ->
  exists names, Descends node names File /\ f = joinAll uri names.
Proof.
  induction 1 as [uri|uri entries name child f Hin Hf [names [Hd ->]]].
  - exists []. split; [constructor|reflexivity].
  - exists (name :: names). split; [econstructor; eassumption|reflexivity].
Qed.


Lemma Descends_valid (node : Node) (names : list str) (node' : Node) :
  Descends node names node' -> WellFormed node ->
  Forall validName names /\ WellFormed node'.
Proof.
  induction 1 as [|entries name child names node' Hin Hd IH]; intros Hwf.
  - now split.
  - inversion Hwf as [| | | |? Hnd Hall]; subst.
    destruct (Hall _ _ Hin) as [Hname Hchild].
    destruct (IH Hchild) as [Hnames Hlast]. split; [now constructor|exact Hlast].
Qed.

End OmitFacts.

Section Omit.

Import OmitFacts.

Variable uriString : str -> str.

(** What [setState] excludes is excluded, whatever stands above it. *)
Lemma setState_excludes (fs : FileSystem) (mgr : Manager) (disk : Disk)
    (uris : list Uri) (f : Uri) :
  In f (getAllFileUris fs uris) ->
  getState uriString
    (fileStates (fst (fst (setState uriString fs mgr disk uris excluded)))) f
  = excluded.
Proof.
  intros Hf. rewrite setState_states. unfold getState.
  assert (H : isExcluded
                (fold_left (applyState uriString excluded)
                   (getAllFileUris fs uris) (fileStates mgr)) (uriString f) = true).
  { apply isExcluded_true. now rewrite forEach_same. }
  now rewrite H.
Qed.

Lemma split_not_empty (s : str) : Js.split s Path.sep <> [].
Proof.
  unfold Js.split. cbn [Path.sep]. generalize (@nil N) as cur.
  generalize 0 as skip.
  induction s as [|c s IH]; intros skip cur; simpl; [discriminate|].
  destruct skip; [|apply IH].
  destruct ((c =? Path.slash)%N && Js.startsWith s []); [discriminate|apply IH].
Qed.

Lemma valid_noSlash (names : list str) :
  Forall validName names -> Forall PathFacts.noSlash names.
Proof.
  intros H. eapply Forall_impl; [|exact H]. intros name (_ & Hs & _). exact Hs.
Qed.

(** The parts of the relative path of a file beneath the root. *)
Lemma relative_parts (rootUri : Uri) (names : list str) :
  Forall validName names ->
  Js.split (Path.relative rootUri (joinAll rootUri names)) Path.sep
  = match names with [] => [[]] | _ :: _ => names end.
Proof.
  intros Hall. rewrite PathFacts.relative_joinAll by exact Hall.
  destruct names as [|name names]; [reflexivity|].
  apply PathFacts.split_join; [discriminate|now apply valid_noSlash].
Qed.

End Omit.

(* ================================================================== *)
(** * What lies beneath an excluded path                               *)
(* ================================================================== *)

Module BeneathFacts.

Open Scope N_scope.



End BeneathFacts.





Section Beneath.

Variable uriString : str -> str.


End Beneath.

(* ================================================================== *)
(** * The lines of the tree and the paths they are about               *)
(* ================================================================== *)

Module DrawnFacts.

Lemma flatMapi_map (A B C : Type) (g : B -> C) (f : A -> nat -> list B) (l : list A) :
  forall start,
    map g (flatMapi f start l) = flatMapi (fun x i => map g (f x i)) start l.
Proof.
  induction l as [|x l IH]; intros start; simpl; [reflexivity|].
  now rewrite map_app, IH.
Qed.

Lemma flatMapi_ext (A B : Type) (f g : A -> nat -> list B) (l : list A) :
  (forall x i, In x l -> f x i = g x i) ->
  forall start, flatMapi f start l = flatMapi g start l.
Proof.
  induction l as [|x l IH]; intros H start; simpl; [reflexivity|].
  rewrite H by now left. f_equal. apply IH. intros y i Hy. apply H. now right.
Qed.


Lemma flatMapi_block (A B : Type) (f : A -> nat -> list B) (l : list A) (x : A) :
  In x l ->
  forall start, exists i, forall y, In y (f x i) -> In y (flatMapi f start l).
Proof.
  induction l as [|x' l IH]; intros Hx start; [destruct Hx|].
  destruct Hx as [->|Hx].
  - exists start. intros y Hy. simpl. apply in_or_app. now left.
  - destruct (IH Hx (S start)) as [i Hi]. exists i. intros y Hy.
    simpl. apply in_or_app. right. now apply Hi.
Qed.

Lemma inTree_members (tree : FileTree) (part : str) (rest : list str) :
  inTree tree (part :: rest) = true -> membersOf tree <> [].
Proof.
  destruct tree as [[|m ms]]; simpl; [discriminate|]. intros _. discriminate.
Qed.

Section Lines.

Variable uriString : str -> str.
Variable states : FileStates.

(** Without the URIs, [drawn] is [buildLines]. *)
Lemma drawn_lines (tree : FileTree) :
  forall path,
    map snd (drawn uriString states tree path) = buildLines uriString states tree path.
Proof.
  induction tree as [members IH] using FileTree_nested_ind. intros path.
  cbn [drawn buildLines]. rewrite flatMapi_map. apply flatMapi_ext.
  intros entry i _. cbv zeta. cbn [map snd]. f_equal.
  rewrite map_map. cbn [fst snd]. rewrite !atMember_member.
  destruct (member members entry) as [sub|] eqn:E; [|reflexivity].
  destruct (negb (Nat.eqb (length (membersOf sub)) 0)); [|reflexivity].
  rewrite Forall_forall in IH.
  pose proof (IH (entry, sub) (member_in _ _ E) (Path.joinPath path entry)) as Hsub.
  cbn [snd] in Hsub. rewrite <- Hsub. now rewrite map_map.
Qed.


(** Every path that the tree holds has its line. *)
Lemma held_drawn (names : list str) :
  forall tree path name,
    inTree tree (names ++ [name]) = true ->
    exists before,
      In (joinAll path (names ++ [name]),
          before ++ lit " " ++ name
            ++ badgeOf (getState uriString states (joinAll path (names ++ [name]))))
        (drawn uriString states tree path).
Proof.
  induction names as [|n names IH]; intros [members] path name Hheld.
  - cbn [app inTree membersOf] in Hheld.
    destruct (member members name) as [sub|] eqn:Hsub; [|discriminate].
    assert (Hentry : In name (Js.sort (map fst members))).
    { apply (Permutation_in _ (Permutation_sym (SortFacts.sort_perm _))).
      apply in_map_iff. exists (name, sub). split; [reflexivity|now apply member_in]. }
    cbn [drawn].
    match goal with
    | |- exists _, In _ (flatMapi ?block 0 _) =>
        destruct (flatMapi_block block _ _ Hentry 0) as [i Hi]
    end.
    eexists. apply Hi. left. unfold entryLine. rewrite app_assoc. reflexivity.
  - cbn [app inTree membersOf] in Hheld.
    destruct (member members n) as [sub|] eqn:Hsub; [|discriminate].
    assert (Hentry : In n (Js.sort (map fst members))).
    { apply (Permutation_in _ (Permutation_sym (SortFacts.sort_perm _))).
      apply in_map_iff. exists (n, sub). split; [reflexivity|now apply member_in]. }
    assert (Hdir : negb (Nat.eqb (length (membersOf sub)) 0) = true).
    { destruct (names ++ [name]) as [|part rest] eqn:E; [now destruct names|].
      apply inTree_members in Hheld. destruct (membersOf sub); [contradiction|reflexivity]. }
    destruct (IH sub (Path.joinPath path n) name Hheld) as [before Hline].
    cbn [drawn].
    match goal with
    | |- exists _, In _ (flatMapi ?block 0 _) =>
        destruct (flatMapi_block block _ _ Hentry 0) as [i Hi]
    end.
    eexists. apply Hi. right. rewrite atMember_member, Hsub, Hdir.
    apply in_map_iff. eexists. split; [|exact Hline]. cbn [fst snd].
    rewrite app_assoc. reflexivity.
Qed.

End Lines.

End DrawnFacts.

(* ================================================================== *)
(** * The tree with the state file                                     *)
(* ================================================================== *)

Module StateFileFacts.

Open Scope N_scope.

Lemma split_go_noSlash (s : str) :
  forall cur, PathFacts.noSlash cur ->
    Forall PathFacts.noSlash (Js.split_go Path.sep s 0 cur).
Proof.
  induction s as [|c s IH]; intros cur Hcur.
  - constructor; [|constructor]. intros Hin. apply Hcur. now apply in_rev.
  - cbn [Js.split_go]. rewrite PathFacts.startsWith_sep.
    destruct (c =? Path.slash) eqn:E.
    + constructor; [intros Hin; apply Hcur; now apply in_rev|].
      apply IH. intros [].
    + apply IH. intros [Hc|Hin]; [|now apply Hcur].
      apply N.eqb_neq in E. congruence.
Qed.

Lemma normalize_go_valid (parts : list str) :
  Forall PathFacts.noSlash parts ->
  forall acc, Forall validName acc -> Forall validName (Path.normalize_go parts acc).
Proof.
  induction parts as [|p parts IH]; intros Hparts acc Hacc.
  - simpl. now apply Forall_rev.
  - inversion Hparts as [|? ? Hp Hrest]; subst. cbn [Path.normalize_go].
    destruct (Js.eqb p []) eqn:E1; [now apply IH|].
    destruct (Js.eqb p (lit ".")) eqn:E2; [now apply IH|].
    cbn [orb]. destruct (Js.eqb p (lit "..")) eqn:E3.
    + apply IH; [exact Hrest|]. destruct acc; [constructor|now inversion Hacc].
    + apply IH; [exact Hrest|]. constructor; [|exact Hacc].
      apply eqb_neq in E1, E2, E3. now repeat split.
Qed.

(** The segments of a path are names that an entry can have. *)
Lemma segments_valid (path : str) : Forall validName (Path.segments path).
Proof.
  unfold Path.segments. apply normalize_go_valid; [|constructor].
  apply split_go_noSlash. intros [].
Qed.

Lemma below_valid (prefix : list str) :
  forall names rest, below prefix names = Some rest ->
    Forall validName names -> Forall validName rest.
Proof.
  induction prefix as [|p prefix IH]; intros names rest H Hvalid.
  - simpl in H. now injection H as <-.
  - destruct names as [|n names]; [discriminate|]. simpl in H.
    destruct (Js.eqb p n); [|discriminate].
    apply (IH _ _ H). now inversion Hvalid.
Qed.

Lemma not_key (entries : list (str * Node)) (name : str) :
  existsb (fun e => Js.eqb (fst e) name) entries = false -> ~ In name (map fst entries).
Proof.
  intros H Hin. apply in_map_iff in Hin as [e [<- Hin]].
  assert (existsb (fun e' => Js.eqb (fst e') (fst e)) entries = true); [|congruence].
  apply existsb_exists. exists e. split; [exact Hin|apply eqb_refl].
Qed.


(** ... and leaves the tree as a file system holds it. *)
Lemma made_WellFormed (isFile : bool) (names : list str) :
  Forall validName names ->
  forall node, WellFormed node -> WellFormed (made isFile names node).
Proof.
  induction names as [|n rest IH]; intros Hvalid node Hwf.
  - destruct node as [|[entries|]| |]; try exact Hwf.
    cbn [made]. destruct isFile; constructor; [constructor|intros ? ? []].
  - inversion Hvalid as [|? ? Hn Hrest]; subst.
    destruct node as [|[entries|]| |]; try exact Hwf; cbn [made].
    + inversion Hwf as [| | | |? Hnd Hall]; subst.
      destruct (existsb (fun e => Js.eqb (fst e) n) entries) eqn:E.
      * constructor.
        -- rewrite map_map.
           rewrite (map_ext _ fst); [exact Hnd|].
           intros e. now destruct (Js.eqb (fst e) n).
        -- intros name child Hin. apply in_map_iff in Hin as [[m c] [Heq Hin]].
           cbn [fst snd] in Heq. destruct (Hall _ _ Hin) as [Hm Hc].
           destruct (Js.eqb m n); injection Heq as <- <-;
             (split; [exact Hm|]); [now apply IH|exact Hc].
      * constructor.
        -- rewrite map_app. cbn [map fst]. apply NoDup_app; [exact Hnd| |].
           ++ constructor; [intros []|constructor].
           ++ intros m Hm [<-|[]]. now apply (not_key _ _ E).
        -- intros name child Hin. apply in_app_or in Hin as [Hin|[Hin|[]]].
           ++ now apply Hall.
           ++ injection Hin as <- <-. split; [exact Hn|]. apply IH; [exact Hrest|constructor].
    + constructor.
      * constructor; [intros []|constructor].
      * intros name child [Hin|[]]. injection Hin as <- <-.
        split; [exact Hn|]. apply IH; [exact Hrest|constructor].
Qed.

End StateFileFacts.


(** ... and the tree stays as a file system holds it. *)
Lemma withStateFile_WellFormed (fs : FileSystem) (mgr : Manager) (disk : Disk) (uri : Uri) :
  WellFormed (fs uri) -> WellFormed (withStateFile fs mgr disk uri).
Proof.
  intros H. unfold withStateFile. destruct (stateFilePath mgr) as [path|]; [|exact H].
  destruct (stateFile disk) as [text|].
  - destruct (below (Path.segments uri) (Path.segments path)) as [names|] eqn:E;
      [|exact H].
    apply StateFileFacts.made_WellFormed; [|exact H].
    apply (@StateFileFacts.below_valid _ _ _ E), StateFileFacts.segments_valid.
  - destruct (dirExists disk); [|exact H].
    destruct (below (Path.segments uri) (Path.segments (Path.dirname path)))
      as [names|] eqn:E; [|exact H].
    apply StateFileFacts.made_WellFormed; [|exact H].
    apply (@StateFileFacts.below_valid _ _ _ E), StateFileFacts.segments_valid.
Qed.

(* ================================================================== *)
(** * The document that is posted                                      *)
(* ================================================================== *)

Module TreeHolds.

Import OmitFacts.

Lemma inTree_addPath_self (parts : list str) :
  forall tree, inTree (addPath parts tree) parts = true.
Proof.
  induction parts as [|part rest IH]; intros tree; [reflexivity|].
  destruct tree as [members]. cbn [addPath membersOf inTree].
  rewrite member_setMember_same. apply IH.
Qed.

Lemma inTree_addPath_kept (parts : list str) :
  forall tree q, inTree tree q = true -> inTree (addPath parts tree) q = true.
Proof.
  induction parts as [|part rest IH]; intros tree q H; [exact H|].
  destruct q as [|name q]; [reflexivity|].
  destruct tree as [members]. cbn [addPath membersOf inTree] in *.
  destruct (Js.eqb name part) eqn:E.
  - apply eqb_eq in E. subst name. rewrite member_setMember_same.
    destruct (member members part) as [sub|]; [|discriminate]. now apply IH.
  - apply eqb_neq in E. now rewrite member_setMember_other.
Qed.

(** The tree holds the relative path of every URI it was built from. *)
Lemma treeOf_holds (uris : list Uri) (rootUri : Uri) (g : Uri) :
  In g uris -> Path.relative rootUri g <> [] ->
  inTree (treeOf uris rootUri) (Js.split (Path.relative rootUri g) Path.sep) = true.
Proof.
  intros Hg Hrel. unfold treeOf.
  set (step := fun (tree : FileTree) (uri : Uri) =>
                 match Path.relative rootUri uri with
                 | [] => tree
                 | _ :: _ => addPath (Js.split (Path.relative rootUri uri) Path.sep) tree
                 end).
  set (q := Js.split (Path.relative rootUri g) Path.sep).
  assert (Hkept : forall l tree, inTree tree q = true ->
                    inTree (fold_left step l tree) q = true).
  { induction l as [|u l IH]; intros tree H; [exact H|]. simpl. apply IH.
    unfold step. destruct (Path.relative rootUri u); [exact H|].
    now apply inTree_addPath_kept. }
  generalize (Level []) as tree.
  induction uris as [|u uris IH]; intros tree; [destruct Hg|].
  simpl. destruct Hg as [->|Hg]; [|now apply IH].
  apply Hkept. unfold step, q. destruct (Path.relative rootUri g); [contradiction|].
  apply inTree_addPath_self.
Qed.

End TreeHolds.


Section Document.

Variable uriString : str -> str.
Variable states : FileStates.
Variable workspaceName : option str.
Variable extractSignatures : str -> str -> str.
Variable extname : str -> str.
Variable readFile : Uri -> list byte + str.

(** The files found beneath the root, by the names that lead to them. *)
Lemma found_names (fs : FileSystem) (rootUri g : Uri) :
  WellFormed (fs rootUri) ->
  In g (getAllFileUris fs [rootUri]) ->
  exists names, g = joinAll rootUri names /\ Forall validName names
                /\ Descends (fs rootUri) names File.
Proof.
  intros Hwf Hg. unfold getAllFileUris in Hg. simpl in Hg. rewrite app_nil_r in Hg.
  apply filesBelow_FileAt, OmitFacts.FileAt_Descends in Hg as [names [Hd ->]].
  exists names. split; [reflexivity|]. split; [|exact Hd].
  now destruct (OmitFacts.Descends_valid Hd Hwf).
Qed.




(** A listed file has its line in the tree. *)
Lemma listed_file_drawn (fs : FileSystem) (rootUri f : Uri) :
  WellFormed (fs rootUri) ->
  fs rootUri <> File ->
  let files := includedFilesInTree uriString states fs rootUri in
  In f files ->
  exists names name before,
    f = joinAll rootUri (names ++ [name])
    /\ Forall validName (names ++ [name])
    /\ In (f, before ++ lit " " ++ name ++ badgeOf (getState uriString states f))
         (drawn uriString states (treeOf files rootUri) rootUri).
Proof.
  intros Hwf Hroot files Hin.
  assert (Hfound : In f (getAllFileUris fs [rootUri])).
  { unfold files, includedFilesInTree in Hin. now apply filter_In in Hin. }
  destruct (found_names fs rootUri f Hwf Hfound) as (all & -> & Hvalid & Hd).
  destruct (@exists_last _ all) as [names [name ->]].
  { intros ->. inversion Hd. contradiction. }
  exists names, name.
  assert (Hheld : inTree (treeOf files rootUri) (names ++ [name]) = true).
  { pose proof (relative_parts rootUri Hvalid) as Hparts.
    destruct (names ++ [name]) as [|n l] eqn:E; [now destruct names|].
    rewrite <- Hparts. apply TreeHolds.treeOf_holds; [exact Hin|].
    intros Hempty. rewrite Hempty in Hparts.
    change (Js.split [] Path.sep) with [@nil N] in Hparts.
    injection Hparts as <- <-. inversion Hvalid as [|? ? [Hne _] _]; subst.
    now apply Hne. }
  destruct (DrawnFacts.held_drawn uriString states names (treeOf files rootUri) rootUri
              name Hheld) as [before Hline].
  exists before. split; [reflexivity|]. split; [exact Hvalid|exact Hline].
Qed.




End Document.

Section Omitted.

Variable uriString : str -> str.
Variable workspaceName : option str.
Variable extractSignatures : str -> str -> str.
Variable extname : str -> str.
Variable readFile : Uri -> list byte + str.


End Omitted.

Lemma demo_tree_wellFormed : WellFormed Demo.tree.
Proof.
  assert (Hname : forall s, In s [lit "a.py"; lit "d"; lit "x.js"; lit "y.js"] ->
                            validName s).
  { intros s Hs. repeat split.
    - intros ->. simpl in Hs. intuition discriminate.
    - intros Hin. simpl in Hs.
      destruct Hs as [<-|[<-|[<-|[<-|[]]]]]; vm_compute in Hin; intuition discriminate.
    - intros ->. vm_compute in Hs. intuition discriminate.
    - intros ->. vm_compute in Hs. intuition discriminate. }
  constructor.
  - repeat constructor; simpl; intuition discriminate.
  - intros name child [H|[H|[]]]; injection H as <- <-.
    + split; [apply Hname; simpl; tauto|constructor].
    + split; [apply Hname; simpl; tauto|]. constructor.
      * repeat constructor; simpl; intuition discriminate.
      * intros name child [H|[H|[]]]; injection H as <- <-;
          (split; [apply Hname; simpl; tauto|constructor]).
Qed.



(* ================================================================== *)
(** * More about the map and the store                             *)
(* ================================================================== *)

Section MapMore.
Variable V : Type.
Implicit Types (m : JsMap.t V) (k : str) (v : V).

Lemma set_same_value m k v : JsMap.get m k = Some v -> JsMap.set m k v = m.
Proof.
  induction m as [|[k' v'] m IH]; simpl; [discriminate|].
  destruct (Js.eqb k' k) eqn:E; intros H.
  - now injection H as ->.
  - now rewrite IH.
Qed.

Lemma delete_absent m k : JsMap.get m k = None -> JsMap.delete m k = m.
Proof.
  unfold JsMap.delete.
  induction m as [|[k' v'] m IH]; simpl; [reflexivity|].
  destruct (Js.eqb k' k) eqn:E; intros H; [discriminate|].
  simpl. now rewrite IH.
Qed.

Lemma get_in_keys m k v : JsMap.get m k = Some v -> In k (JsMap.keys m).
Proof.
  induction m as [|[k' v'] m IH]; simpl; [discriminate|].
  destruct (Js.eqb k' k) eqn:E; intros H.
  - left. now apply eqb_eq.
  - right. now apply IH.
Qed.

Lemma set_keys m k v :
  JsMap.keys (JsMap.set m k v)
  = if existsb (Js.eqb k) (JsMap.keys m) then JsMap.keys m else JsMap.keys m ++ [k].
Proof.
  induction m as [|[k' v'] m IH]; simpl; [reflexivity|].
  rewrite (eqb_sym k k').
  destruct (Js.eqb k' k) eqn:E; simpl; [reflexivity|].
  rewrite IH. now destruct (existsb _ _).
Qed.

Lemma set_NoDup m k v : NoDup (JsMap.keys m) -> NoDup (JsMap.keys (JsMap.set m k v)).
Proof.
  intros H. rewrite set_keys.
  destruct (existsb (Js.eqb k) (JsMap.keys m)) eqn:E; [exact H|].
  apply NoDup_app; [exact H|repeat constructor; intros []|].
  intros x Hx [Hk|[]]. subst x.
  assert (existsb (Js.eqb k) (JsMap.keys m) = true); [|congruence].
  apply existsb_exists. exists k. split; [exact Hx|apply eqb_refl].
Qed.

Lemma delete_NoDup m k : NoDup (JsMap.keys m) -> NoDup (JsMap.keys (JsMap.delete m k)).
Proof.
  unfold JsMap.delete, JsMap.keys.
  induction m as [|[k' v'] m IH]; simpl; intros H; [constructor|].
  inversion H as [|? ? Hk Hm]; subst.
  destruct (Js.eqb k' k); simpl; [now apply IH|].
  constructor; [|now apply IH].
  intros Hin. apply Hk. apply in_map_iff in Hin as [e [He Hin]].
  apply filter_In in Hin as [Hin _]. apply in_map_iff. now exists e.
Qed.

Lemma ofEntries_NoDup (es : list (str * V)) : NoDup (JsMap.keys (JsMap.ofEntries es)).
Proof.
  unfold JsMap.ofEntries.
  assert (G : forall m, NoDup (JsMap.keys m) ->
            NoDup (JsMap.keys (fold_left (fun m e => JsMap.set m (fst e) (snd e)) es m))).
  { induction es as [|e es IH]; intros m H; simpl; [exact H|].
    apply IH. now apply set_NoDup. }
  apply G. constructor.
Qed.

End MapMore.

Section StoreMore.

Variable uriString : str -> str.

Lemma applyState_fixed (state : str) (m : FileStates) (uri : Uri) :
  JsMap.get m (uriString uri) = stored state -> applyState uriString state m uri = m.
Proof.
  unfold applyState, stored. destruct (Js.eqb state treeOnly); intros H.
  - now apply delete_absent.
  - now apply set_same_value.
Qed.

Lemma forEach_fixed (state : str) (files : list Uri) :
  forall m, (forall f, In f files -> JsMap.get m (uriString f) = stored state) ->
    fold_left (applyState uriString state) files m = m.
Proof.
  induction files as [|x files IH]; intros m H; simpl; [reflexivity|].
  rewrite applyState_fixed by (apply H; now left).
  apply IH. intros f Hf. apply H. now right.
Qed.

Lemma saveState_again (mgr : Manager) (disk : Disk) :
  saveState mgr (fst (saveState mgr disk)) = saveState mgr disk.
Proof.
  unfold saveState. destruct (stateFilePath mgr); [|reflexivity].
  destruct disk as [d f mk w r]; simpl.
  destruct d, mk, w; reflexivity.
Qed.

Lemma setState_result (fs : FileSystem) (mgr : Manager) (disk : Disk)
    (uris : list Uri) (state : str) :
  let files := getAllFileUris fs uris in
  let mgr' := withStates mgr
                (fold_left (applyState uriString state) files (fileStates mgr)) in
  setState uriString fs mgr disk uris state
  = (mgr', fst (saveState mgr' disk), snd (saveState mgr' disk) ++ [Fire files]).
Proof.
  intros files mgr'. unfold setState. fold files. fold mgr'.
  now destruct (saveState mgr' disk).
Qed.

(** X1. Repeating a call of [setState] on the same file system changes
    nothing: the second call leaves the map and the state file as the
    first left them, and shows and fires what the first did. *)
Theorem setState_idempotent (fs : FileSystem) (mgr : Manager) (disk : Disk)
    (uris : list Uri) (state : str) :
  let once := setState uriString fs mgr disk uris state in
  setState uriString fs (fst (fst once)) (snd (fst once)) uris state = once.
Proof.
  intros once. unfold once.
  rewrite (setState_result fs mgr disk uris state). cbn [fst snd].
  set (files := getAllFileUris fs uris).
  set (mgr' := withStates mgr _).
  rewrite setState_result. fold files.
  assert (Hm : withStates mgr'
                 (fold_left (applyState uriString state) files (fileStates mgr')) = mgr').
  { rewrite forEach_fixed; [apply withStates_same|].
    intros f Hf. unfold mgr'. simpl. now apply forEach_same. }
  rewrite Hm, saveState_again. reflexivity.
Qed.

End StoreMore.

Section StoreMore2.

Variable uriString : str -> str.

(** Is [k] the key of one of the files? *)
Lemma key_of_file (files : list Uri) (k : str) :
  (exists f, In f files /\ uriString f = k)
  \/ (forall f, In f files -> uriString f <> k).
Proof.
  destruct (existsb (fun f => Js.eqb (uriString f) k) files) eqn:E.
  - left. apply existsb_exists in E as [f [Hf E]]. exists f. split; [exact Hf|].
    now apply eqb_eq.
  - right. intros f Hf Hk.
    assert (existsb (fun f => Js.eqb (uriString f) k) files = true); [|congruence].
    apply existsb_exists. exists f. split; [exact Hf|]. now apply eqb_eq.
Qed.

(** X2. The last call wins: on the same file system, a call of [setState]
    on the same URIs with another state leaves every key as if the
    earlier call had not been made, and fires the same paths. *)
Theorem setState_overrides (fs : FileSystem) (mgr : Manager) (disk : Disk)
    (uris : list Uri) (first second : str) :
  let earlier := setState uriString fs mgr disk uris first in
  let both := setState uriString fs (fst (fst earlier)) (snd (fst earlier)) uris second in
  let alone := setState uriString fs mgr disk uris second in
  (forall k, JsMap.get (fileStates (fst (fst both))) k
             = JsMap.get (fileStates (fst (fst alone))) k)
  /\ fired (snd both) = fired (snd alone).
Proof.
  intros earlier both alone. unfold both, alone, earlier.
  rewrite !setState_result. cbn [fst snd fileStates withStates].
  split.
  - intros k. destruct (key_of_file (getAllFileUris fs uris) k) as [[f [Hf <-]]|H].
    + now rewrite !forEach_same.
    + now rewrite !forEach_other.
  - rewrite !fired_app, !saveState_fired. reflexivity.
Qed.

(** The ancestor walk of a path is decided by the exclusions recorded
    at its ancestors, and by nothing else. *)
Lemma walk_frame (m m' : FileStates) :
  forall p,
    (forall k, isExcluded m (uriString (parents (S k) p))
               = isExcluded m' (uriString (parents (S k) p))) ->
    walk uriString m p = walk uriString m' p.
Proof.
  intros p. remember (Path.climb p) as n eqn:Hn.
  revert p Hn. induction n as [n IH] using lt_wf_ind. intros p Hn H.
  rewrite (walk_unfold uriString m p), (walk_unfold uriString m' p).
  destruct (Js.eqb (Path.dirname p) p) eqn:E; [reflexivity|].
  apply eqb_neq in E.
  pose proof (H 0) as H1. simpl in H1. rewrite H1.
  destruct (isExcluded m' _); [reflexivity|].
  apply (IH (Path.climb (Path.dirname p))); [|reflexivity|].
  - subst n. now apply dirname_climb.
  - intros k. specialize (H (S k)). now rewrite !parents_S in *.
Qed.

(** The effective policy of a path is read off the entries of the
    path and of its ancestors, and off nothing else. *)
Lemma getState_frame (m m' : FileStates) (p : Uri) :
  (forall k, JsMap.get m (uriString (parents k p))
             = JsMap.get m' (uriString (parents k p))) ->
  getState uriString m p = getState uriString m' p.
Proof.
  intros H. unfold getState.
  pose proof (H 0) as H0. simpl in H0.
  rewrite (walk_frame m m' p).
  - unfold isExcluded. now rewrite H0.
  - intros k. unfold isExcluded. now rewrite H.
Qed.

(** X3. [setState] changes the effective policy of no path but the files
    it fires and what lies beneath them: a path keeps its effective
    policy when neither its key nor the key of one of its ancestors is
    the key of a file of the notification. *)
Theorem setState_changes_notified_only (fs : FileSystem) (mgr : Manager) (disk : Disk)
    (uris : list Uri) (state : str) (p : Uri) :
  (forall f k, In f (getAllFileUris fs uris) ->
     uriString f <> uriString (parents k p)) ->
  let result := setState uriString fs mgr disk uris state in
  fired (snd result) = [getAllFileUris fs uris]
  /\ getState uriString (fileStates (fst (fst result))) p
     = getState uriString (fileStates mgr) p.
Proof.
  intros H result. unfold result. rewrite setState_result.
  cbn [fst snd fileStates withStates]. split.
  - now rewrite fired_app, saveState_fired.
  - apply getState_frame. intros k. apply forEach_other.
    intros f Hf. now apply H.
Qed.

(** X4. When the state file cannot be written ([mkdirSync] or [writeFile]
    throws), [setState] still changes the map and fires the
    notification; the failure is shown once and the state file keeps
    its old text, so the file and the map differ from then on. *)
Theorem setState_save_fails (fs : FileSystem) (mgr : Manager) (disk : Disk)
    (uris : list Uri) (state : str) :
  stateFilePath mgr <> None ->
  (dirExists disk = false /\ mkdirThrows disk = true) \/ writeThrows disk = true ->
  let result := setState uriString fs mgr disk uris state in
  (forall f, In f (getAllFileUris fs uris) ->
     JsMap.get (fileStates (fst (fst result))) (uriString f) = stored state)
  /\ stateFile (snd (fst result)) = stateFile disk
  /\ snd result = [ShowError saveFailed; Fire (getAllFileUris fs uris)].
Proof.
  intros Hpath Hfail result. unfold result. rewrite setState_result.
  cbn [fst snd fileStates withStates]. split.
  - intros f Hf. now apply forEach_same.
  - unfold saveState. cbn [stateFilePath withStates].
    destruct (stateFilePath mgr); [|contradiction].
    destruct disk as [d sf mk w r]; simpl in *.
    destruct Hfail as [[-> ->]| ->]; simpl; [now split|].
    destruct (negb d && mk); now split.
Qed.

End StoreMore2.

Lemma set_values (V : Type) (m : JsMap.t V) (k : str) (v x : V) :
  In x (map snd (JsMap.set m k v)) -> x = v \/ In x (map snd m).
Proof.
  induction m as [|[k' v'] m IH]; simpl.
  - intros [H|[]]. now left.
  - destruct (Js.eqb k' k); simpl; intros [H|H]; auto.
    destruct (IH H); auto.
Qed.

Lemma delete_values (V : Type) (m : JsMap.t V) (k : str) (x : V) :
  In x (map snd (JsMap.delete m k)) -> In x (map snd m).
Proof.
  unfold JsMap.delete. intros H. apply in_map_iff in H as [e [He H]].
  apply filter_In in H as [H _]. apply in_map_iff. now exists e.
Qed.

Section Invariant.

Variable uriString : str -> str.

Lemma applyState_wellTyped (state : str) (m : FileStates) (uri : Uri) :
  state = treeOnly \/ knownTag state ->
  wellTyped m -> wellTyped (applyState uriString state m uri).
Proof.
  intros Hs [Hk Hv]. unfold applyState.
  destruct (Js.eqb state treeOnly) eqn:E.
  - split; [now apply delete_NoDup|].
    apply Forall_forall. intros x Hx. apply delete_values in Hx.
    now apply (proj1 (Forall_forall _ _) Hv).
  - split; [now apply set_NoDup|].
    apply Forall_forall. intros x Hx. apply set_values in Hx as [->|Hx].
    + destruct Hs as [->|Hs]; [|exact Hs]. now rewrite eqb_refl in E.
    + now apply (proj1 (Forall_forall _ _) Hv).
Qed.

Lemma setState_wellTyped (fs : FileSystem) (mgr : Manager) (disk : Disk)
    (uris : list Uri) (state : str) :
  state = treeOnly \/ knownTag state ->
  wellTyped (fileStates mgr) ->
  wellTyped (fileStates (fst (fst (setState uriString fs mgr disk uris state)))).
Proof.
  intros Hs. rewrite setState_states.
  generalize (fileStates mgr). induction (getAllFileUris fs uris) as [|f files IH];
    intros m H; simpl; [exact H|].
  apply IH. now apply applyState_wellTyped.
Qed.

Lemma nextState_tag (current : option str) :
  nextState current = treeOnly \/ knownTag (nextState current).
Proof.
  unfold nextState, knownTag. destruct current as [v|]; [|auto].
  destruct (Js.eqb v fullContent); [auto|]. destruct (Js.eqb v signatures); auto.
Qed.

Lemma runCommand_wellTyped (fs : FileSystem) (mgr : Manager) (disk : Disk) (c : Command) :
  wellTyped (fileStates mgr) ->
  wellTyped (fileStates (fst (fst (runCommand uriString fs mgr disk c)))).
Proof.
  intros H. destruct c; simpl; unfold cycleState;
    (apply setState_wellTyped; [|exact H]);
    [apply nextState_tag | unfold knownTag; auto ..].
Qed.

(** One of the three tags, or ['treeOnly']. *)
Definition policyTag (v : str) : Prop := v = treeOnly \/ knownTag v.

Lemma get_in_values (m : FileStates) (k v : str) :
  JsMap.get m k = Some v -> In v (map snd m).
Proof.
  induction m as [|[k' v'] m IH]; simpl; [discriminate|].
  destruct (Js.eqb k' k); intros H.
  - injection H as H. now left.
  - right. now apply IH.
Qed.

(** On a typed map the effective policy of every path is one of the
    four. *)
Lemma getState_policyTag (m : FileStates) (p : Uri) :
  wellTyped m -> policyTag (getState uriString m p).
Proof.
  intros [_ Hv]. unfold getState, policyTag, knownTag.
  destruct (isExcluded m (uriString p)); [auto|].
  destruct (walk uriString m p); [auto|].
  destruct (JsMap.get m (uriString p)) as [v|] eqn:E; [|now left].
  apply get_in_values in E. apply (proj1 (Forall_forall _ _) Hv) in E.
  right. destruct E as [ -> | [ -> | -> ] ]; auto.
Qed.

(** X5. The commands keep the map typed: run from a map with no key twice
    and only the three tags (the empty map is one), whatever the
    commands, their arguments and the file system of the time, the map
    has no key twice and holds only the three tags; ['treeOnly'] is
    never stored, and the effective policy of every path is one of the
    four.  Saved and loaded again, the map comes back as it was. *)
Theorem commands_keep_map_typed (steps : list (FileSystem * Command))
    (mgr : Manager) (disk : Disk) :
  wellTyped (fileStates mgr) ->
  let after := fst (runCommands uriString steps mgr disk) in
  wellTyped (fileStates after)
  /\ ~ In treeOnly (map snd (fileStates after))
  /\ (forall p, policyTag (getState uriString (fileStates after) p))
  /\ (stateFilePath after <> None ->
      forall aDisk,
        mkdirThrows aDisk = false -> writeThrows aDisk = false ->
        readThrows aDisk = false ->
        loadState after (fst (saveState after aDisk)) = Some (after, [Fire []])).
Proof.
  intros H after.
  assert (Hw : wellTyped (fileStates after)).
  { unfold after. clear after. revert mgr disk H.
    induction steps as [|[fs c] steps IH]; intros mgr disk H; simpl; [exact H|].
    pose proof (runCommand_wellTyped fs mgr disk c H) as H'.
    destruct (runCommand uriString fs mgr disk c) as [[mgr' disk'] effects].
    now apply IH. }
  split; [exact Hw|]. split; [|split].
  - intros Hin. destruct Hw as [_ Hv].
    apply (proj1 (Forall_forall _ _) Hv) in Hin.
    destruct Hin as [Hin|[Hin|Hin]]; discriminate Hin.
  - intros p. now apply getState_policyTag.
  - intros Hpath aDisk Hmk Hwr Hrd.
    destruct (saveState_writes after aDisk Hpath Hmk Hwr) as [Hfile [Hread _]].
    rewrite (@loadState_stringified after _ (JsMap.entries (fileStates after)));
      [| exact Hpath | exact Hfile | congruence].
    unfold JsMap.entries. rewrite ofEntries_distinct by apply Hw.
    now rewrite withStates_same.
Qed.

End Invariant.

Lemma commands_keep_map_typed_witness :
  wellTyped (fileStates Demo.manager)
  /\ fileStates (fst (runCommands Demo.key
        [(Demo.fs, setContextExcluded (lit "/w/d") None);
         (Demo.fs, cycleContextState (lit "/w/a.py"));
         (Demo.fs, removeFile (lit "/w/d/x.js"))] Demo.manager Demo.disk))
     = [(Demo.key (lit "/w/d/y.js"), excluded); (Demo.key (lit "/w/a.py"), fullContent)]
  /\ wellTyped (fileStates (fst (runCommands Demo.key
        [(Demo.fs, setContextExcluded (lit "/w/d") None);
         (Demo.fs, cycleContextState (lit "/w/a.py"));
         (Demo.fs, removeFile (lit "/w/d/x.js"))] Demo.manager Demo.disk))).
Proof.
  assert (H : wellTyped (fileStates Demo.manager)).
  { split; simpl; constructor. }
  split; [exact H|]. split; [vm_compute; reflexivity|].
  exact (proj1 (@commands_keep_map_typed Demo.key
        [(Demo.fs, setContextExcluded (lit "/w/d") None);
         (Demo.fs, cycleContextState (lit "/w/a.py"));
         (Demo.fs, removeFile (lit "/w/d/x.js"))] Demo.manager Demo.disk H)).
Defined.

(* ================================================================== *)
(** * The state file, whatever it holds                            *)
(* ================================================================== *)

Section LastPair.

Variable V : Type.

Lemma get_app (a b : JsMap.t V) (k : str) :
  JsMap.get (a ++ b) k
  = match JsMap.get a k with Some v => Some v | None => JsMap.get b k end.
Proof.
  induction a as [|[k' v] a IH]; simpl; [reflexivity|].
  now destruct (Js.eqb k' k).
Qed.

(** [new Map(entries)] reads every key where the last entry with this
    key has it. *)
Lemma ofEntries_last (es : list (str * V)) (k : str) :
  JsMap.get (JsMap.ofEntries es) k = JsMap.get (rev es) k.
Proof.
  unfold JsMap.ofEntries.
  assert (G : forall m,
            JsMap.get (fold_left (fun m e => JsMap.set m (fst e) (snd e)) es m) k
            = match JsMap.get (rev es) k with
              | Some v => Some v
              | None => JsMap.get m k
              end).
  { induction es as [|[k' v] es IH]; intros m; simpl; [reflexivity|].
    rewrite IH, get_app. destruct (JsMap.get (rev es) k); [reflexivity|].
    simpl. destruct (Js.eqb k' k) eqn:E.
    - apply eqb_eq in E. subst k'. apply get_set_same.
    - apply eqb_neq in E. apply get_set_other. congruence. }
  rewrite G. now destruct (JsMap.get (rev es) k).
Qed.

End LastPair.

(** X6. Whatever pairs the state file holds, the map that [loadState]
    builds of them has no key twice, and at every key the value of the
    last pair with this key. *)
Theorem loadState_last_pair_wins (mgr : Manager) (disk : Disk)
    (entries : list (str * str)) :
  stateFilePath mgr <> None ->
  stateFile disk = Some (Json.stringifyEntries entries) ->
  readThrows disk = false ->
  exists loaded,
    loadState mgr disk = Some (loaded, [Fire []])
    /\ NoDup (JsMap.keys (fileStates loaded))
    /\ forall k, JsMap.get (fileStates loaded) k = JsMap.get (rev entries) k.
Proof.
  intros Hpath Hfile Hread.
  rewrite (@loadState_stringified mgr disk entries Hpath Hfile Hread).
  eexists. split; [reflexivity|]. simpl. split.
  - apply ofEntries_NoDup.
  - intros k. apply ofEntries_last.
Qed.

Lemma loadState_last_pair_wins_witness :
  let text := Js.dq "[['file:///w/a.py','fullContent'],['file:///w/a.py','excluded']]" in
  stateFile (diskWith text)
  = Some (Json.stringifyEntries [(Demo.key (lit "/w/a.py"), fullContent);
                                 (Demo.key (lit "/w/a.py"), excluded)])
  /\ loadState Demo.manager (diskWith text)
     = Some (withStates Demo.manager [(Demo.key (lit "/w/a.py"), excluded)], [Fire []])
  /\ exists loaded,
       loadState Demo.manager (diskWith text) = Some (loaded, [Fire []])
       /\ NoDup (JsMap.keys (fileStates loaded)).
Proof.
  intros text.
  assert (Hfile : stateFile (diskWith text)
                  = Some (Json.stringifyEntries [(Demo.key (lit "/w/a.py"), fullContent);
                                                 (Demo.key (lit "/w/a.py"), excluded)]))
    by reflexivity.
  split; [exact Hfile|]. split; [reflexivity|].
  destruct (@loadState_last_pair_wins Demo.manager (diskWith text) _
              ltac:(discriminate) Hfile eq_refl) as (loaded & H1 & H2 & _).
  now exists loaded.
Defined.

(* ================================================================== *)

Module Enumeration.

(** The names that lead from a node to the files beneath it, in the
    order of the enumeration. *)
Fixpoint namesBelow (node : Node) : list (list str) :=
  match node with
  | File => [[]]
  | Directory (Some entries) =>
      flat_map (fun e => map (cons (fst e)) (namesBelow (snd e))) entries
  | Directory None | Other | Missing => []
  end.

Lemma filesBelow_names (node : Node) :
  forall uri, filesBelow uri node = map (joinAll uri) (namesBelow node).
Proof.
  induction node as [| | | |entries IH] using Node_nested_ind; intros uri;
    try reflexivity.
  simpl. induction entries as [|[name child] entries IHe]; [reflexivity|].
  simpl. inversion IH as [|? ? Hchild Hrest]; subst.
  rewrite map_app, IHe by exact Hrest. f_equal.
  simpl in Hchild. rewrite Hchild, map_map. reflexivity.
Qed.

Lemma namesBelow_valid (node : Node) :
  WellFormed node -> forall names, In names (namesBelow node) -> Forall validName names.
Proof.
  induction node as [| | | |entries IH] using Node_nested_ind; intros Hwf names Hin;
    simpl in Hin; try contradiction.
  - destruct Hin as [<-|[]]. constructor.
  - inversion Hwf as [| | | |? Hnd Hall]; subst.
    apply in_flat_map in Hin as [[name child] [He Hin]].
    apply in_map_iff in Hin as [rest [<- Hrest]].
    destruct (Hall _ _ He) as [Hname Hchild].
    rewrite Forall_forall in IH. constructor; [exact Hname|].
    now apply (IH _ He Hchild).
Qed.

Lemma NoDup_map_on (A B : Type) (f : A -> B) (l : list A) :
  (forall a b, In a l -> In b l -> f a = f b -> a = b) ->
  NoDup l -> NoDup (map f l).
Proof.
  intros Hinj Hnd. induction Hnd as [|x l Hx Hnd IH]; simpl; constructor.
  - intros Hin. apply in_map_iff in Hin as [y [Hy Hin]].
    assert (y = x) by (apply Hinj; [now right|now left|exact Hy]).
    subst y. contradiction.
  - apply IH. intros a b Ha Hb. apply Hinj; now right.
Qed.

Lemma namesBelow_NoDup (node : Node) : WellFormed node -> NoDup (namesBelow node).
Proof.
  induction node as [| | | |entries IH] using Node_nested_ind; intros Hwf; simpl;
    try constructor; [intros []|constructor|].
  inversion Hwf as [| | | |? Hnd Hall]; subst.
  assert (Hsub : forall name child, In (name, child) entries -> WellFormed child).
  { intros name child Hin. now destruct (Hall _ _ Hin). }
  clear Hwf Hall.
  induction entries as [|[name child] entries IHe]; simpl; [constructor|].
  inversion IH as [|? ? Hchild Hrest]; subst.
  inversion Hnd as [|? ? Hnotin Hnd']; subst.
  apply NoDup_app.
  - apply NoDup_map_on; [intros a b _ _ E; now injection E|].
    apply Hchild. apply (Hsub name). now left.
  - apply IHe; [exact Hrest|exact Hnd'|]. intros n c Hin. apply (Hsub n). now right.
  - intros names Hin Hin'.
    apply in_map_iff in Hin as [rest [<- _]].
    apply in_flat_map in Hin' as [[n c] [He Hin']].
    apply in_map_iff in Hin' as [rest' [E _]]. injection E as -> _.
    apply Hnotin. apply in_map_iff. now exists (name, c).
Qed.

(** In a tree as a file system holds it, no file is found twice. *)
Lemma filesBelow_NoDup (uri : Uri) (node : Node) :
  WellFormed node -> NoDup (filesBelow uri node).
Proof.
  intros Hwf. rewrite filesBelow_names. apply NoDup_map_on.
  - intros a b Ha Hb. apply PathFacts.joinAll_injective;
      now apply (namesBelow_valid Hwf).
  - now apply namesBelow_NoDup.
Qed.

End Enumeration.

Section ListedOnce.

Variable uriString : str -> str.
Variable states : FileStates.

(** X7. Every file is listed, and listed once: beneath a root whose tree
    is as a file system holds it, [getAllFileUris] finds every file
    that lies beneath the root through directories that can be listed,
    finds nothing else, and finds no file twice.  So the notification
    of [setState] names each of these files once, and the generated
    context lists, each once, those of them that are not effectively
    excluded. *)
Theorem files_listed_once (fs : FileSystem) (mgr : Manager) (disk : Disk)
    (rootUri : Uri) (state : str) :
  WellFormed (fs rootUri) ->
  (forall f, FileAt rootUri (fs rootUri) f ->
     exists before after,
       getAllFileUris fs [rootUri] = before ++ f :: after
       /\ ~ In f before /\ ~ In f after)
  /\ (forall f, In f (getAllFileUris fs [rootUri]) -> FileAt rootUri (fs rootUri) f)
  /\ NoDup (getAllFileUris fs [rootUri])
  /\ fired (snd (setState uriString fs mgr disk [rootUri] state))
     = [getAllFileUris fs [rootUri]]
  /\ (forall f, In f (includedFilesInTree uriString states fs rootUri)
                <-> FileAt rootUri (fs rootUri) f
                    /\ getState uriString states f <> excluded)
  /\ NoDup (includedFilesInTree uriString states fs rootUri)
  /\ NoDup (sectionFiles uriString states fs rootUri).
Proof.
  intros Hwf.
  assert (H : NoDup (getAllFileUris fs [rootUri])).
  { unfold getAllFileUris. simpl. rewrite app_nil_r.
    now apply Enumeration.filesBelow_NoDup. }
  assert (Hfound : forall f, In f (getAllFileUris fs [rootUri])
                             <-> FileAt rootUri (fs rootUri) f).
  { intros f. rewrite getAllFileUris_FileAt. split.
    - now intros [uri [[<-|[]] Hf]].
    - intros Hf. exists rootUri. split; [now left|exact Hf]. }
  split; [|split; [|split; [exact H|split; [|split; [|split]]]]].
  - intros f Hf. apply Hfound in Hf.
    destruct (in_split _ _ Hf) as (before & after & E).
    exists before, after. split; [exact E|].
    rewrite E in H. apply NoDup_remove_2 in H.
    split; intros Hin; apply H, in_or_app; [now left|now right].
  - intros f. apply Hfound.
  - rewrite setState_result. cbn [snd]. now rewrite fired_app, saveState_fired.
  - intros f. unfold includedFilesInTree. rewrite filter_In, Hfound.
    rewrite negb_true_iff, eqb_neq. reflexivity.
  - unfold includedFilesInTree. now apply NoDup_filter.
  - unfold sectionFiles, includedFilesInTree. now apply NoDup_filter, NoDup_filter.
Qed.

End ListedOnce.

Lemma files_listed_once_witness :
  WellFormed (Demo.fs (lit "/w"))
  /\ FileAt (lit "/w") (Demo.fs (lit "/w")) (lit "/w/d/y.js")
  /\ getAllFileUris Demo.fs [lit "/w"]
     = [lit "/w/a.py"; lit "/w/d/x.js"; lit "/w/d/y.js"]
  /\ exists before after,
       getAllFileUris Demo.fs [lit "/w"] = before ++ lit "/w/d/y.js" :: after
       /\ ~ In (lit "/w/d/y.js") before /\ ~ In (lit "/w/d/y.js") after.
Proof.
  assert (Hwf : WellFormed (Demo.fs (lit "/w"))) by exact demo_tree_wellFormed.
  assert (Hy : FileAt (lit "/w") (Demo.fs (lit "/w")) (lit "/w/d/y.js")).
  { apply filesBelow_FileAt. vm_compute. tauto. }
  split; [exact Hwf|]. split; [exact Hy|]. split; [reflexivity|].
  exact (proj1 (@files_listed_once Demo.key [] Demo.fs Demo.manager Demo.disk
                  (lit "/w") excluded Hwf) _ Hy).
Defined.

(* ================================================================== *)
(** * The decorations and the sidebar                              *)
(* ================================================================== *)

Section SidebarFacts.

Variable uriString : str -> str.
Variable states : FileStates.
Variable localeCompare : str -> str -> comparison.

Let insertItem := insertItem localeCompare.
Let sortItems := sortItems localeCompare.

Lemma insertItem_perm (x : TreeItem) (l : list TreeItem) :
  Permutation (insertItem x l) (x :: l).
Proof.
  induction l as [|y l IH]; simpl; [reflexivity|].
  destruct (compareItems localeCompare x y); try reflexivity.
  rewrite perm_swap. now constructor.
Qed.

Lemma sortItems_perm (l : list TreeItem) : Permutation (sortItems l) l.
Proof.
  induction l as [|x l IH]; simpl; [constructor|].
  etransitivity; [apply insertItem_perm|]. now constructor.
Qed.

(** A directory may stand before anything, a file before files only. *)
Definition kindOrder (a b : TreeItem) : Prop :=
  collapsible b = true -> collapsible a = true.

Lemma insertItem_kinds (x : TreeItem) (l : list TreeItem) :
  StronglySorted kindOrder l -> StronglySorted kindOrder (insertItem x l).
Proof.
  induction l as [|y l IH]; intros H; simpl.
  - repeat constructor.
  - inversion H as [|? ? Hl Hy]; subst.
    assert (Hcase : compareItems localeCompare x y <> Gt ->
                    StronglySorted kindOrder (x :: y :: l)).
    { intros Hc. constructor; [exact H|].
      assert (Hxy : kindOrder x y).
      { unfold kindOrder, compareItems in *. intros Hb.
        destruct (collapsible x); [reflexivity|]. rewrite Hb in Hc. now elim Hc. }
      constructor; [exact Hxy|].
      apply Forall_forall. intros z Hz Hb. apply Hxy.
      now apply (proj1 (Forall_forall _ _) Hy z Hz). }
    destruct (compareItems localeCompare x y) eqn:E;
      [apply Hcase; discriminate | apply Hcase; discriminate |].
    constructor; [now apply IH|].
    apply Forall_forall. intros z Hz.
    apply (Permutation_in _ (insertItem_perm x l)) in Hz as [<-|Hz].
    + unfold kindOrder, compareItems in *. intros Hb.
      destruct (collapsible y); [reflexivity|]. now rewrite Hb in E.
    + now apply (proj1 (Forall_forall _ _) Hy z Hz).
Qed.

Lemma sortItems_kinds (l : list TreeItem) : StronglySorted kindOrder (sortItems l).
Proof.
  induction l as [|x l IH]; simpl; [constructor|]. now apply insertItem_kinds.
Qed.

(** Every two neighbours are in the order of the comparator. *)
Definition inOrder (a b : TreeItem) : Prop := compareItems localeCompare a b <> Gt.

Hypothesis localeCompare_sign :
  forall a b, localeCompare a b = Gt -> localeCompare b a <> Gt.

Lemma compareItems_sign (a b : TreeItem) :
  compareItems localeCompare a b = Gt -> compareItems localeCompare b a <> Gt.
Proof.
  unfold compareItems.
  destruct (collapsible a), (collapsible b); simpl;
    try apply localeCompare_sign; congruence.
Qed.

Lemma insertItem_sorted (x : TreeItem) (l : list TreeItem) :
  Sorted inOrder l -> Sorted inOrder (insertItem x l).
Proof.
  induction l as [|y l IH]; intros H; simpl.
  - repeat constructor.
  - inversion H as [|? ? Hl Hy]; subst.
    destruct (compareItems localeCompare x y) eqn:E.
    + constructor; [exact H|]. constructor. unfold inOrder. now rewrite E.
    + constructor; [exact H|]. constructor. unfold inOrder. now rewrite E.
    + constructor; [now apply IH|].
      destruct l as [|z l]; simpl.
      * constructor. now apply compareItems_sign.
      * destruct (compareItems localeCompare x z).
        -- constructor. now apply compareItems_sign.
        -- constructor. now apply compareItems_sign.
        -- inversion Hy; subst. now constructor.
Qed.

Lemma sortItems_sorted (l : list TreeItem) : Sorted inOrder (sortItems l).
Proof.
  induction l as [|x l IH]; simpl; [constructor|]. now apply insertItem_sorted.
Qed.

End SidebarFacts.

(** [dirname] gives a path that is not empty and, but for the empty
    path, not longer than the one it is given. *)
Lemma dirname_length (p : str) :
  Path.dirname p <> [] /\ (p <> [] -> length (Path.dirname p) <= length p).
Proof.
  destruct p as [|c0 rest]; [split; [discriminate|congruence]|].
  unfold Path.dirname.
  destruct (Path.scanEnd true (rev rest)) as [before|] eqn:Hscan.
  - apply scanEnd_shorter in Hscan as [Hlt Hge]. specialize (Hge eq_refl).
    rewrite length_rev in Hlt, Hge.
    destruct before as [|x before].
    + destruct (N.eqb c0 Path.slash); (split; [discriminate|]); intros _; simpl in *; lia.
    + split; [discriminate|]. intros _.
      change (length (c0 :: rev (x :: before))) with (S (length (rev (x :: before)))).
      rewrite length_rev. simpl in *. lia.
  - destruct (N.eqb c0 Path.slash); (split; [discriminate|]); intros _; simpl; lia.
Qed.

Lemma parents_length (k : nat) (p : str) :
  p <> [] -> parents k p <> [] /\ length (parents k p) <= length p.
Proof.
  intros Hp. induction k as [|k [IH1 IH2]]; simpl; [split; [exact Hp|lia]|].
  destruct (dirname_length (parents k p)) as [H1 H2]. split; [exact H1|].
  specialize (H2 IH1). unfold parents in *. lia.
Qed.

Section DirectoryKept.

Variable uriString : str -> str.
Hypothesis uriString_injective : forall a b, uriString a = uriString b -> a = b.

(** A directory that is handed to [setState] keeps its effective
    policy: the entries written are those of the files beneath, and
    none of them is the directory or stands above it. *)
Lemma setState_keeps_directory (fs : FileSystem) (mgr : Manager) (disk : Disk)
    (d : Uri) (entries : list (str * Node)) (state : str) :
  d <> [] ->
  fs d = Directory (Some entries) ->
  WellFormed (fs d) ->
  getState uriString
    (fileStates (fst (fst (setState uriString fs mgr disk [d] state)))) d
  = getState uriString (fileStates mgr) d.
Proof.
  intros Hd Hfs Hwf. rewrite setState_states.
  apply getState_frame. intros k. apply forEach_other.
  intros f Hf Hk. apply uriString_injective in Hk.
  unfold getAllFileUris in Hf. simpl in Hf. rewrite app_nil_r in Hf.
  apply filesBelow_FileAt in Hf. rewrite Hfs in Hf, Hwf.
  apply FileAt_directory_longer in Hf.
  - destruct (parents_length k Hd) as [_ Hlen]. rewrite <- Hk in Hlen. lia.
  - inversion Hwf as [| | | |? Hnd Hall]; subst.
    intros name child Hin. now destruct (Hall _ _ Hin) as [[Hne _] _].
Qed.

End DirectoryKept.

Section Decorations.

Variable uriString : str -> str.

(** X8. Handing a directory to [setState] decorates its files, not the
    directory: the directory keeps the decoration it had (its own
    entry is not written), every file found beneath gets the cross when
    the state is ['excluded'], and the provider asks for the
    decorations of these files to be refreshed, or of all files when
    none was found. *)
Theorem directory_decoration_kept (fs : FileSystem) (mgr : Manager) (disk : Disk)
    (d : Uri) (entries : list (str * Node)) (state : str) :
  (forall a b, uriString a = uriString b -> a = b) ->
  d <> [] ->
  fs d = Directory (Some entries) ->
  WellFormed (fs d) ->
  let result := setState uriString fs mgr disk [d] state in
  let states := fileStates (fst (fst result)) in
  provideFileDecoration uriString states d
  = provideFileDecoration uriString (fileStates mgr) d
  /\ (state = excluded ->
      forall f, In f (getAllFileUris fs [d]) ->
        exists decoration,
          provideFileDecoration uriString states f = Some decoration
          /\ decorationBadge decoration = lit "✗")
  /\ map onDidChangeFileDecorations (fired (snd result))
     = [match getAllFileUris fs [d] with
        | [] => None
        | files => Some files
        end].
Proof.
  intros Hinj Hd Hfs Hwf result states. split; [|split].
  - unfold provideFileDecoration, states, result.
    now rewrite (@setState_keeps_directory uriString Hinj fs mgr disk d entries state Hd Hfs Hwf).
  - intros -> f Hf. unfold provideFileDecoration, states, result.
    rewrite (setState_excludes uriString fs mgr disk [d] f Hf).
    eexists. split; reflexivity.
  - unfold result. rewrite setState_result. cbn [snd].
    rewrite fired_app, saveState_fired.
    change (fired [Fire (getAllFileUris fs [d])]) with [getAllFileUris fs [d]].
    cbn [app map]. unfold onDidChangeFileDecorations.
    now destruct (getAllFileUris fs [d]).
Qed.

End Decorations.

Lemma directory_decoration_kept_witness :
  let states := fileStates (fst (fst (setState Demo.key Demo.fs Demo.manager Demo.disk
                                        [lit "/w/d"] excluded))) in
  (forall a b, Demo.key a = Demo.key b -> a = b)
  /\ WellFormed (Demo.fs (lit "/w/d"))
  /\ provideFileDecoration Demo.key states (lit "/w/d") = None
  /\ map onDidChangeFileDecorations
       (fired (snd (setState Demo.key Demo.fs Demo.manager Demo.disk
                      [lit "/w/d"] excluded)))
     = [Some [lit "/w/d/x.js"; lit "/w/d/y.js"]].
Proof.
  intros states. unfold states.
  assert (Hinj : forall a b, Demo.key a = Demo.key b -> a = b).
  { intros a b H. unfold Demo.key in H. now apply app_inv_head in H. }
  assert (Hwf : WellFormed (Demo.fs (lit "/w/d"))).
  { change (Demo.fs (lit "/w/d"))
      with (Directory (Some [(lit "x.js", File); (lit "y.js", File)])).
    constructor.
    - simpl. repeat constructor; simpl; intuition discriminate.
    - intros name child [H|[H|[]]]; injection H as <- <-;
        (split; [|constructor]); unfold validName;
        repeat split; try discriminate;
        vm_compute; intuition discriminate. }
  pose proof (@directory_decoration_kept Demo.key Demo.fs Demo.manager Demo.disk
                (lit "/w/d") [(lit "x.js", File); (lit "y.js", File)] excluded
                Hinj ltac:(discriminate) eq_refl Hwf) as [H1 [_ H3]].
  split; [exact Hinj|]. split; [exact Hwf|]. split.
  - exact (eq_trans H1 eq_refl).
  - exact H3.
Defined.

Section SidebarTheorems.

Variable uriString : str -> str.
Variable states : FileStates.
Variable localeCompare : str -> str -> comparison.

Lemma itemOf_item (dirUri : Uri) (e : str * Node) (item : TreeItem) :
  In item (itemOf uriString states dirUri e) ->
  getState uriString states (Path.joinPath dirUri (fst e)) <> excluded
  /\ label item = fst e
  /\ resourceUri item = Some (Path.joinPath dirUri (fst e))
  /\ command item = Some (Path.joinPath dirUri (fst e))
  /\ collapsible item = match snd e with Directory _ => true | _ => false end.
Proof.
  unfold itemOf.
  destruct (Js.eqb (getState uriString states (Path.joinPath dirUri (fst e))) excluded) eqn:E;
    [intros []|].
  intros [<-|[]]. apply eqb_neq in E. repeat split; auto.
Qed.

Lemma itemOf_shown (dirUri : Uri) (e : str * Node) :
  getState uriString states (Path.joinPath dirUri (fst e)) <> excluded ->
  exists item, itemOf uriString states dirUri e = [item].
Proof.
  intros H. apply eqb_neq in H. unfold itemOf. rewrite H. eexists. reflexivity.
Qed.

(** X9. The sidebar lists, under a directory, the entries that are not
    effectively excluded, each once: an item stands for an entry that
    is not excluded, with its name as label and its URI as resource and
    as argument of the cycle command, and every entry that is not
    excluded has its item.  When the directory cannot be listed the
    call fails; with no folder open the only item is the invitation to
    open one. *)
Theorem sidebar_lists_included (fs : FileSystem) (dirUri : Uri) :
  (forall element, getChildren uriString states localeCompare fs None element
                   = Some [openFolderItem])
  /\ (forall folders, getChildren uriString states localeCompare fs
                        (Some (dirUri :: folders)) None
                      = getDirectoryContents uriString states localeCompare fs dirUri)
  /\ (readDirectory fs dirUri = None ->
      getDirectoryContents uriString states localeCompare fs dirUri = None)
  /\ (forall entries, readDirectory fs dirUri = Some entries ->
      exists items,
        getDirectoryContents uriString states localeCompare fs dirUri = Some items
        /\ length items
           = length (filter (fun e => negb (Js.eqb (getState uriString states
                                                      (Path.joinPath dirUri (fst e)))
                                              excluded)) entries)
        /\ (forall item, In item items ->
              exists name child,
                In (name, child) entries
                /\ getState uriString states (Path.joinPath dirUri name) <> excluded
                /\ label item = name
                /\ resourceUri item = Some (Path.joinPath dirUri name)
                /\ command item = Some (Path.joinPath dirUri name))
        /\ (forall name child,
              In (name, child) entries ->
              getState uriString states (Path.joinPath dirUri name) <> excluded ->
              exists item, In item items /\ label item = name
                           /\ resourceUri item = Some (Path.joinPath dirUri name))).
Proof.
  split; [reflexivity|]. split; [reflexivity|]. split.
  - intros H. unfold getDirectoryContents. now rewrite H.
  - intros entries H. unfold getDirectoryContents. rewrite H.
    eexists. split; [reflexivity|].
    pose proof (sortItems_perm localeCompare
                  (flat_map (itemOf uriString states dirUri) entries)) as Hperm.
    split; [|split].
    + rewrite (Permutation_length Hperm). clear.
      induction entries as [|e entries IH]; [reflexivity|].
      simpl. rewrite length_app, IH. unfold itemOf.
      now destruct (Js.eqb _ excluded).
    + intros item Hin. apply (Permutation_in _ Hperm) in Hin.
      apply in_flat_map in Hin as [[name child] [He Hin]].
      apply itemOf_item in Hin as (H1 & H2 & H3 & H4 & _).
      exists name, child. auto.
    + intros name child Hin Hstate.
      destruct (@itemOf_shown dirUri (name, child) Hstate) as [item Hitem].
      exists item.
      assert (Hi : In item (itemOf uriString states dirUri (name, child))).
      { rewrite Hitem. now left. }
      split.
      * apply (Permutation_in _ (Permutation_sym Hperm)).
        apply in_flat_map. now exists (name, child).
      * apply itemOf_item in Hi as (_ & H2 & H3 & _). auto.
Qed.

(** X10. In the sidebar's list the directories come first: no item that is
    not a directory stands before a directory.  When [localeCompare]
    never puts two labels each behind the other, every item stands
    before its neighbour in the order of the comparator, so that within
    the directories, and within the rest, the labels are in the order
    of the locale. *)
Theorem sidebar_directories_first (fs : FileSystem) (dirUri : Uri)
    (items : list TreeItem) :
  getDirectoryContents uriString states localeCompare fs dirUri = Some items ->
  (forall before a between b after,
     items = before ++ a :: between ++ b :: after ->
     collapsible b = true -> collapsible a = true)
  /\ ((forall a b, localeCompare a b = Gt -> localeCompare b a <> Gt) ->
      forall before a b after,
        items = before ++ a :: b :: after ->
        compareItems localeCompare a b <> Gt
        /\ (collapsible a = collapsible b -> localeCompare (label a) (label b) <> Gt)).
Proof.
  unfold getDirectoryContents.
  destruct (readDirectory fs dirUri) as [entries|]; [|discriminate].
  intros H. injection H as <-.
  set (l := flat_map (itemOf uriString states dirUri) entries). split.
  - pose proof (sortItems_kinds localeCompare l) as Hs.
    intros before a between b after E. rewrite E in Hs. clear E.
    induction before as [|x before IH]; simpl in Hs.
    + inversion Hs as [|? ? _ Hall]; subst.
      apply (proj1 (Forall_forall _ _) Hall). apply in_or_app. right. now left.
    + inversion Hs; subst. now apply IH.
  - intros Hsign before a b after E.
    pose proof (@sortItems_sorted localeCompare Hsign l) as Hs. rewrite E in Hs. clear E.
    assert (Hab : compareItems localeCompare a b <> Gt).
    { induction before as [|x before IH]; simpl in Hs.
      - inversion Hs as [|? ? _ Hhd]; subst. now inversion Hhd; subst.
      - inversion Hs; subst. now apply IH. }
    split; [exact Hab|]. intros Hk. unfold compareItems in Hab.
    rewrite Hk in Hab. now rewrite Bool.eqb_reflx in Hab.
Qed.

End SidebarTheorems.

Section SidebarExcluded.

Variable uriString : str -> str.
Variable localeCompare : str -> str -> comparison.

(** X11. A directory that was excluded stays in the sidebar: after
    [setState([dir], 'excluded')] the listing of the directory above
    still has the item of [dir], as a directory (the exclusion is
    recorded at the files, and [dir] has no entry of its own); the
    listing of [dir] itself has no item for any of its files. *)
Theorem excluded_directory_stays_in_sidebar (fs : FileSystem) (mgr : Manager)
    (disk : Disk) (rootUri : Uri) (rootEntries : list (str * Node)) (name : str)
    (entries : list (str * Node)) :
  (forall a b, uriString a = uriString b -> a = b) ->
  WellFormed (fs rootUri) ->
  fs rootUri = Directory (Some rootEntries) ->
  In (name, Directory (Some entries)) rootEntries ->
  let dir : Uri := Path.joinPath rootUri name in
  fs dir = Directory (Some entries) ->
  getState uriString (fileStates mgr) dir <> excluded ->
  let states := fileStates (fst (fst (setState uriString fs mgr disk [dir] excluded))) in
  (exists items item,
     getDirectoryContents uriString states localeCompare fs rootUri = Some items
     /\ In item items /\ resourceUri item = Some dir /\ collapsible item = true)
  /\ (exists items,
        getDirectoryContents uriString states localeCompare fs dir = Some items
        /\ forall item file, In item items -> In (file, File) entries ->
             resourceUri item <> Some (Path.joinPath dir file)).
Proof.
  intros Hinj Hwf Hroot Hin dir Hdir Hbefore states.
  rewrite Hroot in Hwf. inversion Hwf as [| | | |? Hnd Hall]; subst.
  destruct (Hall _ _ Hin) as [[Hname _] Hchild].
  assert (Hd : dir <> []).
  { intros E. pose proof (joinPath_length rootUri name) as Hl. fold dir in Hl.
    rewrite E in Hl. destruct name; [contradiction|]. simpl in Hl. lia. }
  assert (Hkept : getState uriString states dir <> excluded).
  { unfold states.
    assert (Hwd : WellFormed (fs dir)) by now rewrite Hdir.
    pose proof (@setState_keeps_directory uriString Hinj fs mgr disk dir entries
                  excluded Hd Hdir Hwd) as Hk.
    congruence. }
  split.
  - unfold getDirectoryContents, readDirectory. rewrite Hroot.
    destruct (@itemOf_shown uriString states rootUri (name, Directory (Some entries)) Hkept)
      as [item Hitem].
    assert (Hi : In item (itemOf uriString states rootUri (name, Directory (Some entries)))).
    { rewrite Hitem. now left. }
    eexists. exists item. split; [reflexivity|]. split.
    + apply (Permutation_in _ (Permutation_sym (sortItems_perm localeCompare _))).
      apply in_flat_map. now exists (name, Directory (Some entries)).
    + apply itemOf_item in Hi as (_ & _ & H3 & _ & H5). auto.
  - unfold getDirectoryContents, readDirectory. rewrite Hdir.
    eexists. split; [reflexivity|].
    intros item file Hi Hfile Huri.
    apply (Permutation_in _ (sortItems_perm localeCompare _)) in Hi.
    apply in_flat_map in Hi as [e [He Hi]].
    apply itemOf_item in Hi as (H1 & _ & H3 & _).
    rewrite Huri in H3. injection H3 as H3. apply H1. rewrite <- H3.
    apply setState_excludes.
    unfold getAllFileUris. simpl. rewrite app_nil_r, Hdir.
    apply filesBelow_FileAt.
    apply file_inside with (name := file) (child := File); [exact Hfile|constructor].
Qed.

End SidebarExcluded.

(** The order of the code units, for the examples. *)
Definition byCodeUnits (a b : str) : comparison :=
  if Js.ltb a b then Lt else if Js.ltb b a then Gt else Eq.

Lemma key_injective (a b : str) : Demo.key a = Demo.key b -> a = b.
Proof. intros H. unfold Demo.key in H. now apply app_inv_head in H. Qed.

Lemma sidebar_directories_first_witness :
  getDirectoryContents Demo.key [] byCodeUnits Demo.fs (lit "/w")
  = Some [{| label := lit "d"; collapsible := true;
             resourceUri := Some (lit "/w/d"); command := Some (lit "/w/d");
             description := None; iconPath := Some FolderIcon |};
          {| label := lit "a.py"; collapsible := false;
             resourceUri := Some (lit "/w/a.py"); command := Some (lit "/w/a.py");
             description := None; iconPath := Some FileIcon |}]
  /\ forall before a between b after,
       [{| label := lit "d"; collapsible := true;
           resourceUri := Some (lit "/w/d"); command := Some (lit "/w/d");
           description := None; iconPath := Some FolderIcon |};
        {| label := lit "a.py"; collapsible := false;
           resourceUri := Some (lit "/w/a.py"); command := Some (lit "/w/a.py");
           description := None; iconPath := Some FileIcon |}]
       = before ++ a :: between ++ b :: after ->
       collapsible b = true -> collapsible a = true.
Proof.
  split; [reflexivity|].
  exact (proj1 (@sidebar_directories_first Demo.key [] byCodeUnits Demo.fs (lit "/w")
                  _ eq_refl)).
Defined.

Lemma excluded_directory_stays_in_sidebar_witness :
  let states := fileStates (fst (fst (setState Demo.key Demo.fs Demo.manager Demo.disk
                                        [lit "/w/d"] excluded))) in
  WellFormed (Demo.fs (lit "/w"))
  /\ getState Demo.key (fileStates Demo.manager) (lit "/w/d") <> excluded
  /\ getDirectoryContents Demo.key states byCodeUnits Demo.fs (lit "/w/d") = Some []
  /\ exists items item,
       getDirectoryContents Demo.key states byCodeUnits Demo.fs (lit "/w") = Some items
       /\ In item items /\ resourceUri item = Some (lit "/w/d")
       /\ collapsible item = true.
Proof.
  intros states.
  assert (Hwf : WellFormed (Demo.fs (lit "/w"))) by exact demo_tree_wellFormed.
  assert (Hne : getState Demo.key (fileStates Demo.manager) (lit "/w/d") <> excluded)
    by discriminate.
  split; [exact Hwf|]. split; [exact Hne|]. split; [reflexivity|].
  exact (proj1 (@excluded_directory_stays_in_sidebar Demo.key byCodeUnits
                  Demo.fs Demo.manager Demo.disk (lit "/w") _ (lit "d")
                  [(lit "x.js", File); (lit "y.js", File)]
                  key_injective Hwf eq_refl (or_intror (or_introl eq_refl)) eq_refl Hne)).
Defined.

Lemma setState_changes_notified_only_witness :
  let mgr := withStates Demo.manager [(Demo.key (lit "/w/a.py"), signatures)] in
  let result := setState Demo.key Demo.fs mgr Demo.disk [lit "/w/d"] excluded in
  (forall f k, In f (getAllFileUris Demo.fs [lit "/w/d"]) ->
     Demo.key f <> Demo.key (parents k (lit "/w/a.py")))
  /\ fired (snd result) = [[lit "/w/d/x.js"; lit "/w/d/y.js"]]
  /\ getState Demo.key (fileStates (fst (fst result))) (lit "/w/a.py") = signatures.
Proof.
  intros mgr result.
  assert (H : forall f k, In f (getAllFileUris Demo.fs [lit "/w/d"]) ->
                Demo.key f <> Demo.key (parents k (lit "/w/a.py"))).
  { intros f k Hf Hk. apply key_injective in Hk.
    assert (Hp : lit "/w/a.py" <> []) by discriminate.
    destruct (parents_length k Hp) as [_ Hlen]. rewrite <- Hk in Hlen.
    destruct Hf as [<-|[<-|[]]]; vm_compute in Hlen; lia. }
  destruct (@setState_changes_notified_only Demo.key Demo.fs mgr Demo.disk
              [lit "/w/d"] excluded (lit "/w/a.py") H) as [H1 H2].
  split; [exact H|]. split; [exact H1|]. exact (eq_trans H2 eq_refl).
Defined.

Lemma setState_save_fails_witness :
  let disk := {| dirExists := true; stateFile := Some (lit "[]");
                 mkdirThrows := false; writeThrows := true; readThrows := false |} in
  let result := setState Demo.key Demo.fs Demo.manager disk [lit "/w/a.py"] fullContent in
  stateFilePath Demo.manager <> None
  /\ writeThrows disk = true
  /\ fileStates (fst (fst result)) = [(Demo.key (lit "/w/a.py"), fullContent)]
  /\ stateFile (snd (fst result)) = Some (lit "[]")
  /\ snd result = [ShowError saveFailed; Fire [lit "/w/a.py"]].
Proof.
  intros disk result.
  assert (Hpath : stateFilePath Demo.manager <> None) by discriminate.
  destruct (@setState_save_fails Demo.key Demo.fs Demo.manager disk [lit "/w/a.py"]
              fullContent Hpath (or_intror eq_refl)) as (_ & H2 & H3).
  split; [exact Hpath|]. split; [reflexivity|]. split; [reflexivity|].
  split; [exact H2|exact H3].
Defined.

Section CycleDirectory.

Variable uriString : str -> str.
Hypothesis uriString_injective : forall a b, uriString a = uriString b -> a = b.

(** A directory without an entry has none after a cycle on it. *)
Lemma cycleState_directory_none (fs : FileSystem) (mgr : Manager) (disk : Disk)
    (d : Uri) (entries : list (str * Node)) :
  fs d = Directory (Some entries) ->
  WellFormed (fs d) ->
  JsMap.get (fileStates mgr) (uriString d) = None ->
  cycleState uriString fs mgr disk d = setState uriString fs mgr disk [d] fullContent
  /\ JsMap.get (fileStates (fst (fst (cycleState uriString fs mgr disk d)))) (uriString d)
     = None.
Proof.
  intros Hfs Hwf Hnone.
  assert (E : cycleState uriString fs mgr disk d
              = setState uriString fs mgr disk [d] fullContent).
  { unfold cycleState. now rewrite Hnone. }
  split; [exact E|].
  rewrite E, setState_states, forEach_other; [exact Hnone|].
  intros f Hf Hk. apply uriString_injective in Hk. subst f.
  now apply (@directory_not_found fs d entries Hfs Hwf).
Qed.

Lemma cyclesOn_none (d : Uri) (trees : list FileSystem) :
  (forall tree, In tree trees ->
     (exists entries, tree d = Directory (Some entries)) /\ WellFormed (tree d)) ->
  forall mgr disk,
    JsMap.get (fileStates mgr) (uriString d) = None ->
    JsMap.get (fileStates (fst (runCommands uriString (cyclesOn d trees) mgr disk)))
      (uriString d) = None.
Proof.
  induction trees as [|tree trees IH]; intros Hall mgr disk Hnone; [exact Hnone|].
  cbn [cyclesOn map runCommands runCommand].
  destruct (Hall tree (or_introl eq_refl)) as [[entries Hd] Hwf].
  pose proof (proj2 (@cycleState_directory_none tree mgr disk d entries Hd Hwf Hnone))
    as Hnext.
  destruct (cycleState uriString tree mgr disk d) as [[mgr' disk'] effects].
  apply IH; [|exact Hnext]. intros t Ht. apply Hall. now right.
Qed.

End CycleDirectory.

Section CycleDirectoryFills.

Variable uriString : str -> str.

(** X12. Cycling a directory is no cycle.  [setState] never writes at a
    directory, so a directory that has no entry keeps none, whatever
    cycles were run on it before and on whatever trees: every call of
    [cycleState] on it, the command of a click in the sidebar, is
    [setState] with ['fullContent'].  It sets every file then found
    beneath the directory to ['fullContent'], also those that an
    earlier cycle had set so, and fires these files; and a further
    cycle that finds the same files changes nothing and returns the
    same. *)
Theorem cycleState_directory_fills (earlier : list FileSystem) (fs : FileSystem)
    (mgr : Manager) (disk : Disk) (d : Uri) :
  (forall a b, uriString a = uriString b -> a = b) ->
  (forall tree, In tree (earlier ++ [fs]) ->
     (exists entries, tree d = Directory (Some entries)) /\ WellFormed (tree d)) ->
  JsMap.get (fileStates mgr) (uriString d) = None ->
  let before := runCommands uriString (cyclesOn d earlier) mgr disk in
  let result := runCommand uriString fs (fst before) (snd before) (cycleContextState d) in
  result = setState uriString fs (fst before) (snd before) [d] fullContent
  /\ (forall f, FileAt d (fs d) f ->
        JsMap.get (fileStates (fst (fst result))) (uriString f) = Some fullContent)
  /\ JsMap.get (fileStates (fst (fst result))) (uriString d) = None
  /\ fired (snd result) = [getAllFileUris fs [d]]
  /\ (forall next,
        getAllFileUris next [d] = getAllFileUris fs [d] ->
        runCommand uriString next (fst (fst result)) (snd (fst result))
          (cycleContextState d) = result).
Proof.
  intros Hinj Hall Hnone before result.
  assert (Hbefore : JsMap.get (fileStates (fst before)) (uriString d) = None).
  { apply (@cyclesOn_none uriString Hinj); [|exact Hnone].
    intros tree Ht. apply Hall, in_or_app. now left. }
  destruct (Hall fs) as [[entries Hd] Hwf]; [apply in_or_app; right; now left|].
  destruct (@cycleState_directory_none uriString Hinj fs (fst before) (snd before) d
              entries Hd Hwf Hbefore)
    as [Hcycle Hafter].
  change (cycleState uriString fs (fst before) (snd before) d) with result in *.
  split; [exact Hcycle|]. split; [|split; [exact Hafter|split]].
  - intros f Hf. rewrite Hcycle, setState_states. apply forEach_same.
    apply getAllFileUris_FileAt. exists d. split; [now left|exact Hf].
  - rewrite Hcycle, setState_result. cbn [snd].
    now rewrite fired_app, saveState_fired.
  - intros next Hnext. cbn [runCommand]. unfold cycleState. rewrite Hafter.
    cbn [nextState]. rewrite Hcycle.
    rewrite (setState_result uriString fs (fst before) (snd before) [d] fullContent).
    cbn [fst snd].
    set (files := getAllFileUris fs [d]).
    set (mgr' := withStates (fst before) _).
    rewrite setState_result, Hnext. fold files.
    assert (Hm : withStates mgr'
                   (fold_left (applyState uriString fullContent) files (fileStates mgr'))
                 = mgr').
    { rewrite forEach_fixed; [apply withStates_same|].
      intros f Hf. unfold mgr'. simpl. now apply forEach_same. }
    rewrite Hm, saveState_again. reflexivity.
Qed.

End CycleDirectoryFills.

Lemma cycleState_directory_fills_witness :
  let stateFile := lit "/w/.lollms/context_state.json" in
  let d := lit "/w" in
  let once := runCommand Demo.key Demo.fs Demo.manager Demo.disk (cycleContextState d) in
  let later := withStateFile Demo.fs Demo.manager (snd (fst once)) in
  let twice := runCommand Demo.key later (fst (fst once)) (snd (fst once))
                 (cycleContextState d) in
  (forall tree, In tree [Demo.fs; later] ->
     (exists entries, tree d = Directory (Some entries)) /\ WellFormed (tree d))
  /\ JsMap.get (fileStates Demo.manager) (Demo.key d) = None
  /\ fired (snd once) = [[lit "/w/a.py"; lit "/w/d/x.js"; lit "/w/d/y.js"]]
  /\ FileAt d (later d) stateFile
  /\ JsMap.get (fileStates (fst (fst twice))) (Demo.key stateFile) = Some fullContent
  /\ JsMap.get (fileStates (fst (fst twice))) (Demo.key d) = None
  /\ fired (snd twice)
     = [[lit "/w/a.py"; lit "/w/d/x.js"; lit "/w/d/y.js"; stateFile]].
Proof.
  intros stateFile d once later twice.
  assert (Hinj : forall a b, Demo.key a = Demo.key b -> a = b).
  { intros a b H. unfold Demo.key in H. now apply app_inv_head in H. }
  assert (Hall : forall tree, In tree ([Demo.fs] ++ [later]) ->
            (exists entries, tree d = Directory (Some entries)) /\ WellFormed (tree d)).
  { intros tree [<-|[<-|[]]].
    - split; [eexists; reflexivity|exact demo_tree_wellFormed].
    - split; [eexists; reflexivity|].
      apply withStateFile_WellFormed. exact demo_tree_wellFormed. }
  assert (Hnone : JsMap.get (fileStates Demo.manager) (Demo.key d) = None)
    by reflexivity.
  assert (Hfile : FileAt d (later d) stateFile).
  { apply filesBelow_FileAt. vm_compute. tauto. }
  destruct (@cycleState_directory_fills Demo.key [Demo.fs] later Demo.manager Demo.disk
              d Hinj Hall Hnone) as (_ & H2 & H3 & H4 & _).
  split; [exact Hall|]. split; [exact Hnone|]. split; [reflexivity|].
  split; [exact Hfile|]. split; [exact (H2 _ Hfile)|]. split; [exact H3|].
  exact (eq_trans H4 eq_refl).
Defined.

(* ================================================================== *)
(** * The common base path and the nonce                           *)
(* ================================================================== *)

Module BasePathFacts.

Open Scope N_scope.

(** [join] by its first part. *)
Lemma join_cons (p : str) (rest : list str) (sep : str) :
  Js.join (p :: rest) sep
  = p ++ match rest with [] => [] | _ :: _ => sep ++ Js.join rest sep end.
Proof. destruct rest; simpl; [now rewrite app_nil_r|reflexivity]. Qed.

Lemma split_go_not_empty (s : str) :
  forall cur, Js.split_go Path.sep s 0 cur <> [].
Proof.
  induction s as [|c s IH]; intros cur; [discriminate|].
  cbn [Js.split_go]. destruct (Js.startsWith (c :: s) Path.sep); [discriminate|apply IH].
Qed.

(** Joining what [split] gives restores the string. *)
Lemma join_split_go (s : str) :
  forall cur, Js.join (Js.split_go Path.sep s 0 cur) Path.sep = rev cur ++ s.
Proof.
  induction s as [|c s IH]; intros cur.
  - simpl. now rewrite app_nil_r.
  - cbn [Js.split_go]. rewrite PathFacts.startsWith_sep.
    destruct (c =? Path.slash) eqn:E.
    + apply N.eqb_eq in E. subst c. cbn [Path.sep length pred].
      rewrite join_cons.
      destruct (Js.split_go Path.sep s 0 []) eqn:Es;
        [now apply split_go_not_empty in Es|].
      rewrite <- Es, IH. reflexivity.
    + rewrite IH. simpl. now rewrite <- app_assoc.
Qed.

Lemma join_split (s : str) : Js.join (Js.split s Path.sep) Path.sep = s.
Proof. apply (join_split_go s []). Qed.

(** [a] starts with [r]. *)
Lemma startsWith_app (r a : str) : Js.startsWith (r ++ a) r = true.
Proof.
  induction r as [|c r IH]; simpl; [apply PathFacts.startsWith_nil|].
  now rewrite N.eqb_refl.
Qed.

Lemma startsWith_prefix (a r : str) :
  Js.startsWith a r = true -> exists rest, a = r ++ rest.
Proof.
  revert a. induction r as [|c r IH]; intros a H; [now exists a|].
  destruct a as [|x a]; [discriminate|]. simpl in H.
  apply andb_true_iff in H as [Hx H]. apply N.eqb_eq in Hx. subst x.
  destruct (IH a H) as [rest ->]. now exists rest.
Qed.

(** The join of the first parts of a list starts the join of the list. *)
Lemma join_prefix (p rest : list str) :
  Js.startsWith (Js.join (p ++ rest) Path.sep) (Js.join p Path.sep) = true.
Proof.
  induction p as [|x p IH]; [apply PathFacts.startsWith_nil|].
  change ((x :: p) ++ rest) with (x :: (p ++ rest)). rewrite !join_cons.
  destruct p as [|y p].
  - rewrite app_nil_r. apply startsWith_app.
  - change ((y :: p) ++ rest) with (y :: (p ++ rest)) in *.
    apply startsWith_prefix in IH as [tail IH]. rewrite IH.
    rewrite !app_assoc. apply startsWith_app.
Qed.

Lemma commonParts_first (a b : list str) : exists rest, a = commonParts a b ++ rest.
Proof.
  revert b. induction a as [|x a IH]; intros b; [now exists []|].
  destruct b as [|y b]; [now exists (x :: a)|]. simpl.
  destruct (Js.eqb x y); [|now exists (x :: a)].
  destruct (IH b) as [rest Hrest]. exists rest. simpl. now rewrite <- Hrest.
Qed.

Lemma commonParts_sym (a b : list str) : commonParts a b = commonParts b a.
Proof.
  revert b. induction a as [|x a IH]; intros [|y b]; simpl; try reflexivity.
  rewrite (eqb_sym y x). destruct (Js.eqb x y) eqn:E; [|reflexivity].
  apply eqb_eq in E. subst y. now rewrite IH.
Qed.

Lemma commonParts_app (p a b : list str) :
  commonParts (p ++ a) (p ++ b) = p ++ commonParts a b.
Proof.
  induction p as [|x p IH]; simpl; [reflexivity|]. now rewrite eqb_refl, IH.
Qed.

(** What starts two strings starts every string between them. *)
Lemma between_prefix (r : str) :
  forall a b f,
    Js.startsWith a r = true -> Js.startsWith b r = true ->
    Js.leb a f = true -> Js.leb f b = true ->
    Js.startsWith f r = true.
Proof.
  induction r as [|c r IH]; intros a b f Ha Hb Haf Hfb;
    [apply PathFacts.startsWith_nil|].
  destruct a as [|x a]; [discriminate|]. destruct b as [|y b]; [discriminate|].
  simpl in Ha, Hb.
  apply andb_true_iff in Ha as [Hx Ha]. apply andb_true_iff in Hb as [Hy Hb].
  apply N.eqb_eq in Hx, Hy. subst x y.
  unfold Js.leb in *. apply negb_true_iff in Haf, Hfb.
  destruct f as [|z f]; [discriminate|]. simpl in *.
  apply orb_false_iff in Haf as [H1 H2]. apply orb_false_iff in Hfb as [H3 H4].
  apply N.ltb_ge in H1, H3.
  assert (z = c) by lia. subst z. rewrite N.eqb_refl in *. simpl in *.
  apply (IH a b f); auto; now apply negb_true_iff.
Qed.

Lemma leb_refl (a : str) : Js.leb a a = true.
Proof. unfold Js.leb. now rewrite SortFacts.ltb_irrefl. Qed.

(** In a sorted list the first stands before all and the last after
    all. *)
Lemma sorted_ends (l : list str) :
  SortFacts.sortedLe l ->
  forall f, In f l -> Js.leb (hd [] l) f = true /\ Js.leb f (last l []) = true.
Proof.
  induction 1 as [|x l Hl IH Hx]; intros f Hf; [destruct Hf|].
  rewrite Forall_forall in Hx. cbn [hd].
  destruct Hf as [<-|Hf].
  - split; [apply leb_refl|].
    destruct l as [|y l]; [apply leb_refl|].
    apply Hx. change (last (x :: y :: l) []) with (last (y :: l) []).
    clear. revert y. induction l as [|z l IH]; intros y; [now left|].
    right. apply IH.
  - split; [now apply Hx|].
    destruct l as [|y l]; [destruct Hf|].
    change (last (x :: y :: l) []) with (last (y :: l) []). now apply IH.
Qed.

End BasePathFacts.

(** X13. The common base path of two files or more starts every one of the
    files, code unit for code unit, and every directory that stands at
    the start of the parts of all the files stands at its start: it is
    the longest path common to the first and the last file in sorted
    order.  (It need not end where a part of a file ends: of [a/b] and
    [a/b!] it is [a/b].) *)
Theorem findCommonBasePath_common (workspaceFolders : option (list Uri))
    (files : list str) :
  2 <= length files ->
  let base := findCommonBasePath workspaceFolders files in
  (forall f, In f files -> Js.startsWith f base = true)
  /\ (forall parts,
        (forall f, In f files -> exists rest, Js.split f Path.sep = parts ++ rest) ->
        Js.startsWith base (Js.join parts Path.sep) = true).
Proof.
  intros Hlen base.
  destruct files as [|f1 [|f2 files]]; [simpl in Hlen; lia|simpl in Hlen; lia|].
  set (all := f1 :: f2 :: files) in *.
  assert (Hbase : base = Js.join (commonParts (Js.split (hd [] (Js.sort all)) Path.sep)
                                    (Js.split (last (Js.sort all) []) Path.sep)) Path.sep)
    by reflexivity.
  pose proof (SortFacts.sort_sorted all) as Hsorted.
  pose proof (SortFacts.sort_perm all) as Hperm.
  set (sorted := Js.sort all) in *.
  assert (Hne : sorted <> []).
  { intros E. rewrite E in Hperm. apply Permutation_nil in Hperm. discriminate. }
  assert (Hfirst : In (hd [] sorted) all).
  { apply (Permutation_in _ Hperm). destruct sorted; [contradiction|now left]. }
  assert (Hlast : In (last sorted []) all).
  { apply (Permutation_in _ Hperm). destruct sorted as [|x s]; [contradiction|].
    clear. revert x. induction s as [|y s IH]; intros x; [now left|].
    right. apply IH. }
  split.
  - intros f Hf.
    apply (Permutation_in _ (Permutation_sym Hperm)) in Hf.
    destruct (BasePathFacts.sorted_ends Hsorted f Hf) as [H1 H2].
    apply (@BasePathFacts.between_prefix base (hd [] sorted) (last sorted []) f);
      auto; rewrite Hbase.
    + destruct (BasePathFacts.commonParts_first (Js.split (hd [] sorted) Path.sep)
                  (Js.split (last sorted []) Path.sep)) as [rest Hrest].
      rewrite <- (BasePathFacts.join_split (hd [] sorted)) at 1.
      rewrite Hrest at 1. apply BasePathFacts.join_prefix.
    + rewrite BasePathFacts.commonParts_sym.
      destruct (BasePathFacts.commonParts_first (Js.split (last sorted []) Path.sep)
                  (Js.split (hd [] sorted) Path.sep)) as [rest Hrest].
      rewrite <- (BasePathFacts.join_split (last sorted [])) at 1.
      rewrite Hrest at 1. apply BasePathFacts.join_prefix.
  - intros parts Hparts. rewrite Hbase.
    destruct (Hparts _ Hfirst) as [r1 ->]. destruct (Hparts _ Hlast) as [r2 ->].
    rewrite BasePathFacts.commonParts_app. apply BasePathFacts.join_prefix.
Qed.

Lemma findCommonBasePath_common_witness :
  2 <= length [lit "/w/src/b.ts"; lit "/w/src/a/c.ts"; lit "/w/srd/x.ts"]
  /\ findCommonBasePath None [lit "/w/src/b.ts"; lit "/w/src/a/c.ts"; lit "/w/srd/x.ts"]
     = lit "/w"
  /\ forall f, In f [lit "/w/src/b.ts"; lit "/w/src/a/c.ts"; lit "/w/srd/x.ts"] ->
       Js.startsWith f
         (findCommonBasePath None
            [lit "/w/src/b.ts"; lit "/w/src/a/c.ts"; lit "/w/srd/x.ts"]) = true.
Proof.
  split; [simpl; lia|]. split; [reflexivity|].
  exact (proj1 (@findCommonBasePath_common None
                  [lit "/w/src/b.ts"; lit "/w/src/a/c.ts"; lit "/w/srd/x.ts"]
                  ltac:(simpl; lia))).
Defined.

Lemma getNonce_turns (random : nat -> nat) (turns : list nat) :
  forall t,
    fold_left (fun t i => t ++ charAt nonceAlphabet (random i)) turns t
    = t ++ flat_map (fun i => charAt nonceAlphabet (random i)) turns.
Proof.
  induction turns as [|i turns IH]; intros t; simpl; [now rewrite app_nil_r|].
  now rewrite IH, app_assoc.
Qed.

Lemma charAt_length (s : str) (i : nat) :
  i < length s -> length (charAt s i) = 1.
Proof.
  intros H. unfold charAt. destruct (nth_error s i) eqn:E; [reflexivity|].
  apply nth_error_None in E. lia.
Qed.

Lemma charAt_short (s : str) (i : nat) : length (charAt s i) <= 1.
Proof. unfold charAt. destruct (nth_error s i); simpl; lia. Qed.

Lemma nonce_length (random : nat -> nat) (turns : list nat) :
  length (flat_map (fun i => charAt nonceAlphabet (random i)) turns) <= length turns
  /\ ((forall i, In i turns -> random i < 62) ->
      length (flat_map (fun i => charAt nonceAlphabet (random i)) turns) = length turns).
Proof.
  induction turns as [|i turns [IH1 IH2]]; simpl; [split; [lia|reflexivity]|].
  rewrite length_app. split.
  - pose proof (charAt_short nonceAlphabet (random i)). lia.
  - intros H. rewrite charAt_length by (apply H; now left).
    rewrite IH2; [reflexivity|]. intros j Hj. apply H. now right.
Qed.

(** X14. The nonce holds letters and digits only, whatever the random
    numbers are, and no more than 32 of them; it holds 32 when every
    draw is an index of the alphabet (below 62). *)
Theorem getNonce_alphanumeric (random : nat -> nat) :
  forallb isAlphanumeric (getNonce random) = true
  /\ length (getNonce random) <= 32
  /\ ((forall i, i < 32 -> random i < 62) -> length (getNonce random) = 32).
Proof.
  unfold getNonce. rewrite getNonce_turns. cbn [app].
  destruct (nonce_length random (seq 0 32)) as [H1 H2]. rewrite length_seq in *.
  split; [|split].
  - apply forallb_forall. intros c Hc.
    apply in_flat_map in Hc as [i [_ Hc]]. unfold charAt in Hc.
    destruct (nth_error nonceAlphabet (random i)) as [x|] eqn:E; [|destruct Hc].
    destruct Hc as [<-|[]]. apply nth_error_In in E.
    assert (Hall : forallb isAlphanumeric nonceAlphabet = true) by reflexivity.
    now apply (proj1 (forallb_forall _ _) Hall).
  - exact H1.
  - intros H. apply H2. intros i Hi. apply H. apply in_seq in Hi. lia.
Qed.

(* ================================================================== *)
(** * The generated context, file by file                          *)
(* ================================================================== *)

Section IncludedFiles.

Variable uriString : str -> str.
Variable states : FileStates.
Variable workspaceName : option str.

(** X15. Every file that the generated context lists has its line in the
    project tree: for a file beneath the root that is not effectively
    excluded, one line of the tree text is the line of the file, and it
    ends with the name of the file and the badge of its effective
    policy.  (The parts of the listed paths are taken to be own
    members of the tree the source builds.) *)
Theorem included_file_has_line (fs : FileSystem) (rootUri f : Uri) :
  WellFormed (fs rootUri) ->
  fs rootUri <> File ->
  let files := includedFilesInTree uriString states fs rootUri in
  ownParts rootUri files ->
  In f files ->
  exists names name before,
    f = joinAll rootUri (names ++ [name])
    /\ In (f, before ++ lit " " ++ name ++ badgeOf (getState uriString states f))
         (drawn uriString states (treeOf files rootUri) rootUri)
    /\ map snd (drawn uriString states (treeOf files rootUri) rootUri)
       = buildLines uriString states (treeOf files rootUri) rootUri
    /\ In (before ++ lit " " ++ name ++ badgeOf (getState uriString states f))
         (buildLines uriString states (treeOf files rootUri) rootUri)
    /\ exists rootLine,
         generateMarkdownTreeFromUris uriString states workspaceName files rootUri
         = Js.join
             (rootLine :: buildLines uriString states (treeOf files rootUri) rootUri)
             newline.
Proof.
  intros Hwf Hroot files _ Hin.
  destruct (listed_file_drawn uriString states fs rootUri f Hwf Hroot Hin)
    as (names & name & before & Hf & _ & Hline).
  exists names, name, before. split; [exact Hf|]. split; [exact Hline|].
  split; [apply DrawnFacts.drawn_lines|]. split.
  - rewrite <- DrawnFacts.drawn_lines. apply in_map_iff.
    eexists. split; [|exact Hline]. reflexivity.
  - eexists. reflexivity.
Qed.

End IncludedFiles.

Lemma included_file_has_line_witness :
  let states := [(Demo.key (lit "/w/d/x.js"), signatures)] in
  let files := includedFilesInTree Demo.key states Demo.fs (lit "/w") in
  WellFormed (Demo.fs (lit "/w"))
  /\ Demo.fs (lit "/w") <> File
  /\ ownParts (lit "/w") files
  /\ In (lit "/w/d/x.js") files
  /\ In (lit "/w/d/x.js", blank ++ branch ++ page ++ lit " x.js [S]")
       (drawn Demo.key states (treeOf files (lit "/w")) (lit "/w"))
  /\ exists names name before,
       lit "/w/d/x.js" = joinAll (lit "/w") (names ++ [name])
       /\ In (lit "/w/d/x.js",
              before ++ lit " " ++ name
                ++ badgeOf (getState Demo.key states (lit "/w/d/x.js")))
            (drawn Demo.key states (treeOf files (lit "/w")) (lit "/w")).
Proof.
  intros states files.
  assert (Hwf : WellFormed (Demo.fs (lit "/w"))) by exact demo_tree_wellFormed.
  assert (Hroot : Demo.fs (lit "/w") <> File) by discriminate.
  assert (Hown : ownParts (lit "/w") files) by reflexivity.
  assert (Hin : In (lit "/w/d/x.js") files).
  { vm_compute. auto. }
  split; [exact Hwf|]. split; [exact Hroot|]. split; [exact Hown|].
  split; [exact Hin|]. split; [vm_compute; tauto|].
  destruct (@included_file_has_line Demo.key states None Demo.fs (lit "/w")
              (lit "/w/d/x.js") Hwf Hroot Hown Hin)
    as [names [name [before [H1 [H2 _]]]]].
  exists names, name, before. split; [exact H1|exact H2].
Defined.

Section RemoveFile.

Variable uriString : str -> str.
Variable workspaceName : option str.
Variable extractSignatures : str -> str -> str.
Variable extname : str -> str.
Variable readFile : Uri -> list byte + str.


End RemoveFile.


Module ButtonFacts.

Lemma find_first (A : Type) (p : A -> bool) (l : list A) (x : A) :
  find p l = Some x ->
  exists before after,
    l = before ++ x :: after /\ p x = true
    /\ forall g, In g before -> p g = false.
Proof.
  induction l as [|y l IH]; simpl; [discriminate|].
  destruct (p y) eqn:E; intros H.
  - injection H as ->. exists [], l. split; [reflexivity|]. split; [exact E|].
    intros g [].
  - destruct (IH H) as (before & after & -> & Hx & Hb).
    exists (y :: before), after. split; [reflexivity|]. split; [exact Hx|].
    intros g [<-|Hg]; [exact E|now apply Hb].
Qed.

Lemma find_some (A : Type) (p : A -> bool) (l : list A) (y : A) :
  In y l -> p y = true -> exists x, find p l = Some x.
Proof.
  intros Hin Hp. destruct (find p l) as [x|] eqn:E; [now exists x|].
  pose proof (find_none _ _ E _ Hin). congruence.
Qed.

Lemma endsWith_app (a b : str) : endsWith (a ++ b) b = true.
Proof. unfold endsWith. rewrite rev_app_distr. apply BasePathFacts.startsWith_app. Qed.

Lemma join_snoc (names : list str) (name : str) :
  names <> [] ->
  Js.join (names ++ [name]) Path.sep = Js.join names Path.sep ++ Path.sep ++ name.
Proof.
  induction names as [|n names IH]; intros Hne; [contradiction|].
  destruct names as [|m names]; [reflexivity|].
  change ((n :: m :: names) ++ [name]) with (n :: ((m :: names) ++ [name])).
  rewrite BasePathFacts.join_cons, IH by discriminate.
  rewrite (BasePathFacts.join_cons n (m :: names)).
  destruct ((m :: names) ++ [name]) eqn:E; [now destruct names|].
  now rewrite <- !app_assoc.
Qed.

(** The path of a file beneath the root ends with its relative path. *)
Lemma joinAll_suffix (rootUri : Uri) (names : list str) :
  names <> [] -> Forall validName names ->
  exists before, joinAll rootUri names = before ++ Js.join names Path.sep.
Proof.
  induction names as [|name names IH] using rev_ind; intros Hne Hall; [contradiction|].
  apply Forall_app in Hall as [Hnames Hname].
  unfold joinAll in *. rewrite fold_left_app.
  change (fold_left Path.joinPath [name] (fold_left Path.joinPath names rootUri))
    with (Path.joinPath (fold_left Path.joinPath names rootUri) name).
  destruct names as [|n names].
  - simpl. unfold Path.joinPath. destruct (Js.eqb rootUri Path.sep).
    + now exists rootUri.
    + exists (rootUri ++ Path.sep). now rewrite <- app_assoc.
  - destruct (IH ltac:(discriminate) Hnames) as [before Hbefore].
    assert (Hnot : Js.eqb (fold_left Path.joinPath (n :: names) rootUri) Path.sep = false).
    { apply eqb_neq. intros E. apply (f_equal Path.segments) in E.
      change (fold_left Path.joinPath (n :: names) rootUri)
        with (joinAll rootUri (n :: names)) in E.
      rewrite PathFacts.segments_joinAll in E by exact Hnames.
      change (Path.segments Path.sep) with (@nil str) in E.
      now apply app_eq_nil in E as [_ E]. }
    unfold Path.joinPath at 1. rewrite Hnot, Hbefore.
    exists before. rewrite join_snoc by discriminate. now rewrite <- !app_assoc.
Qed.

End ButtonFacts.

Section RemoveButton.

Variable uriString : str -> str.
Variable states : FileStates.

(** X17. The target of a remove button.  For a heading whose code
    element has the text [textContent], [renderLiveContext] gives the
    button the first listed file whose path, with its backslashes
    turned into slashes, ends with this text, and makes no button when
    it finds none.  So a button stands for a listed file that ends
    with the text of its heading, but not always for the file of the
    heading: when the text is the relative path of a listed file, as
    [handleGenerateContext] wrote it in the heading, the button is
    there, and its target is this file unless a file listed before it
    ends the same way.  (The text that [marked] makes of a heading is a
    premise here.) *)
Theorem remove_button_target (fs : FileSystem) (rootUri : Uri) (textContent : str) :
  let files := includedFilesInTree uriString states fs rootUri in
  (forall target,
     removeTarget files textContent = Some target ->
     exists before after,
       files = before ++ target :: after
       /\ target <> []
       /\ endsWith (forwardSlashes target) textContent = true
       /\ forall g, In g before -> endsWith (forwardSlashes g) textContent = false)
  /\ (forall f,
        WellFormed (fs rootUri) ->
        fs rootUri <> File ->
        In f files ->
        textContent = forwardSlashes (Path.relative rootUri f) ->
        exists before target after,
          files = before ++ target :: after
          /\ removeTarget files textContent = Some target
          /\ endsWith (forwardSlashes target) textContent = true
          /\ (forall g, In g before -> endsWith (forwardSlashes g) textContent = false)
          /\ (target = f \/ In f after)).
Proof.
  intros files. split.
  - intros target Htarget. unfold removeTarget in Htarget.
    destruct (find (fun g => endsWith (forwardSlashes g) textContent) files)
      as [[|c t]|] eqn:Hfind; try discriminate.
    injection Htarget as <-.
    destruct (ButtonFacts.find_first _ _ Hfind) as (before & after & Hsplit & Ht & Hb).
    exists before, after. split; [exact Hsplit|]. split; [discriminate|].
    split; [exact Ht|exact Hb].
  - intros f Hwf Hroot Hin Htext.
    assert (Hfound : In f (getAllFileUris fs [rootUri])).
    { unfold files, includedFilesInTree in Hin. now apply filter_In in Hin. }
    destruct (found_names fs rootUri f Hwf Hfound) as (names & Hf & Hvalid & Hd).
    assert (Hne : names <> []).
    { intros ->. inversion Hd. contradiction. }
    assert (Hheading : textContent = forwardSlashes (Js.join names Path.sep)).
    { rewrite Htext, Hf. now rewrite PathFacts.relative_joinAll. }
    assert (Hends : endsWith (forwardSlashes f) textContent = true).
    { destruct (ButtonFacts.joinAll_suffix rootUri Hne Hvalid) as [pre Hpre].
      rewrite Hheading, Hf, Hpre. unfold forwardSlashes. rewrite map_app.
      apply ButtonFacts.endsWith_app. }
    destruct (ButtonFacts.find_some
                (fun g => endsWith (forwardSlashes g) textContent) files f Hin Hends)
      as [target Hfind].
    destruct (ButtonFacts.find_first _ _ Hfind) as (before & after & Hsplit & Ht & Hb).
    exists before, target, after. split; [exact Hsplit|].
    assert (Hsome : textContent <> []).
    { rewrite Hheading. unfold forwardSlashes. intros E. apply map_eq_nil in E.
      destruct names as [|n names]; [contradiction|].
      inversion Hvalid as [|? ? [Hn _] _]; subst.
      rewrite BasePathFacts.join_cons in E. apply app_eq_nil in E as [E _].
      now apply Hn. }
    split; [|split; [exact Ht|split; [exact Hb|]]].
    + unfold removeTarget. rewrite Hfind. destruct target as [|c t]; [|reflexivity].
      exfalso. unfold endsWith in Ht. simpl in Ht.
      destruct (rev textContent) eqn:E; [|discriminate].
      apply Hsome. rewrite <- (rev_involutive textContent), E. reflexivity.
    + rewrite Hsplit in Hin.
      apply in_app_or in Hin as [Hin|[Hin|Hin]]; auto.
      apply Hb in Hin. congruence.
Qed.

End RemoveButton.

Lemma remove_button_target_witness :
  let files := includedFilesInTree Demo.key [] Demo.fs (lit "/w") in
  WellFormed (Demo.fs (lit "/w"))
  /\ Demo.fs (lit "/w") <> File
  /\ In (lit "/w/d/x.js") files
  /\ lit "d/x.js" = forwardSlashes (Path.relative (lit "/w") (lit "/w/d/x.js"))
  /\ removeTarget files (lit "d/x.js") = Some (lit "/w/d/x.js")
  /\ removeTarget files (lit "x.js") = Some (lit "/w/d/x.js")
  /\ exists before target after,
       files = before ++ target :: after
       /\ removeTarget files (lit "d/x.js") = Some target.
Proof.
  intros files.
  assert (Hwf : WellFormed (Demo.fs (lit "/w"))) by exact demo_tree_wellFormed.
  assert (Hroot : Demo.fs (lit "/w") <> File) by discriminate.
  assert (Hin : In (lit "/w/d/x.js") files) by (vm_compute; auto).
  split; [exact Hwf|]. split; [exact Hroot|]. split; [exact Hin|].
  split; [reflexivity|]. split; [reflexivity|]. split; [reflexivity|].
  destruct (proj2 (@remove_button_target Demo.key [] Demo.fs (lit "/w") (lit "d/x.js"))
              (lit "/w/d/x.js") Hwf Hroot Hin eq_refl)
    as (before & target & after & H1 & H2 & _).
  now exists before, target, after.
Defined.

(* ================================================================== *)
(** * The frames of a read                                         *)
(* ================================================================== *)

Module FrameFacts.

Open Scope N_scope.

(** A frame of one or more lines with no empty line: no line feed in it. *)
Definition oneLine (l : str) : Prop := ~ In 10 l.

Lemma startsWith_blank_other (c : N) (s : str) :
  c <> 10 -> Js.startsWith (c :: s) blankLine = false.
Proof. intros H. simpl. apply N.eqb_neq in H. now rewrite H. Qed.

Lemma startsWith_blank (s : str) : Js.startsWith (blankLine ++ s) blankLine = true.
Proof. simpl. apply PathFacts.startsWith_nil. Qed.

Lemma split_go_line (l : str) :
  oneLine l -> forall cur, Js.split_go blankLine l 0 cur = [rev cur ++ l].
Proof.
  induction l as [|c l IH]; intros Hl cur.
  - simpl. now rewrite app_nil_r.
  - cbn [Js.split_go]. rewrite startsWith_blank_other.
    + rewrite IH; [simpl; now rewrite <- app_assoc|].
      intros H. apply Hl. now right.
    + intros ->. apply Hl. now left.
Qed.

Lemma split_go_frame (l rest : str) :
  oneLine l ->
  forall cur,
    Js.split_go blankLine (l ++ blankLine ++ rest) 0 cur
    = (rev cur ++ l) :: Js.split_go blankLine rest 0 [].
Proof.
  induction l as [|c l IH]; intros Hl cur.
  - cbn [app]. rewrite app_nil_r.
    change (blankLine ++ rest) with (10 :: 10 :: rest) at 1.
    cbn [Js.split_go].
    change (10 :: 10 :: rest) with (blankLine ++ rest). rewrite startsWith_blank.
    reflexivity.
  - cbn [app Js.split_go]. rewrite startsWith_blank_other.
    + rewrite IH; [simpl; now rewrite <- app_assoc|].
      intros H. apply Hl. now right.
    + intros ->. apply Hl. now left.
Qed.

(** Frames set apart by empty lines are what [split] gives back. *)
Lemma split_frames (frames : list str) :
  frames <> [] -> Forall oneLine frames ->
  Js.split (Js.join frames blankLine) blankLine = frames.
Proof.
  induction frames as [|l [|next frames] IH]; intros Hne Hall; [contradiction| |].
  - simpl. inversion Hall; subst. now apply (@split_go_line l).
  - change (Js.join (l :: next :: frames) blankLine)
      with (l ++ blankLine ++ Js.join (next :: frames) blankLine).
    inversion Hall; subst.
    change (Js.split (l ++ blankLine ++ Js.join (next :: frames) blankLine) blankLine)
      with (Js.split_go blankLine (l ++ blankLine ++ Js.join (next :: frames) blankLine)
              0 []).
    rewrite split_go_frame by assumption. simpl rev. cbn [app].
    f_equal. apply IH; [discriminate|assumption].
Qed.

End FrameFacts.

(** What the frames of a read post, one after the other. *)
Definition relayFrames (frames : list str) : list Message :=
  flat_map relayFrame (filter (fun l => Js.startsWith l dataPrefix) frames).

(** X18. A read that holds whole frames, set apart by empty lines, relays
    every one of them, in order: each frame that starts with [data: ]
    posts what it carries, the others nothing.  The frame [data: [DONE]]
    posts nothing and ends nothing: the frames behind it are relayed
    like those before it. *)
Theorem relayRead_frames (value : list byte) (frames : list str) :
  frames <> [] ->
  Forall FrameFacts.oneLine frames ->
  Js.decode value = Js.join frames blankLine ->
  relayRead value = relayFrames frames
  /\ (forall before after, relayFrames (before ++ after)
                           = relayFrames before ++ relayFrames after)
  /\ (forall before after,
        frames = before ++ (dataPrefix ++ doneMark) :: after ->
        relayRead value = relayFrames before ++ relayFrames after).
Proof.
  intros Hne Hall Hvalue.
  assert (Hread : relayRead value = relayFrames frames).
  { unfold relayRead, relayFrames. rewrite Hvalue.
    now rewrite FrameFacts.split_frames. }
  assert (Happ : forall before after,
            relayFrames (before ++ after) = relayFrames before ++ relayFrames after).
  { intros before after. unfold relayFrames. now rewrite filter_app, flat_map_app. }
  split; [exact Hread|]. split; [exact Happ|].
  intros before after E. rewrite Hread, E, Happ. reflexivity.
Qed.

Lemma relayRead_frames_witness :
  let frames := [dataPrefix ++ doneMark;
                 Js.dq "data: {'choices':[{'delta':{'content':'Hi'}}]}"] in
  let value := Sse.frameDone ++ Sse.blankLine ++ Sse.frameHi in
  frames <> []
  /\ Forall FrameFacts.oneLine frames
  /\ Js.decode value = Js.join frames blankLine
  /\ relayRead value = [Sse.hi].
Proof.
  intros frames value.
  assert (H1 : frames <> []) by discriminate.
  assert (H2 : Forall FrameFacts.oneLine frames).
  { constructor; [|constructor; [|constructor]];
      unfold FrameFacts.oneLine; vm_compute; intuition discriminate. }
  assert (H3 : Js.decode value = Js.join frames blankLine) by reflexivity.
  split; [exact H1|]. split; [exact H2|]. split; [exact H3|].
  exact (eq_trans (proj1 (@relayRead_frames value frames H1 H2 H3)) eq_refl).
Defined.

(* ================================================================== *)
(** * The controls of the chat                                     *)
(* ================================================================== *)

Section ChatControls.

Variable chatMessagesContainer : bool.

Lemma received_app (chat : Chat) (a b : list Message) :
  received chatMessagesContainer chat (a ++ b)
  = received chatMessagesContainer (received chatMessagesContainer chat a) b.
Proof. apply fold_left_app. Qed.

Lemma setDisabled_again (element : option bool) (a b : bool) :
  setDisabled (setDisabled element a) b = setDisabled element b.
Proof. now destruct element. Qed.

(** No message adds or removes a control: setting a control after the
    messages is setting it before them. *)
Lemma received_controls (messages : list Message) (value : bool) :
  forall chat,
    setDisabled (chatSendBtn (received chatMessagesContainer chat messages)) value
    = setDisabled (chatSendBtn chat) value
    /\ setDisabled (chatInput (received chatMessagesContainer chat messages)) value
       = setDisabled (chatInput chat) value.
Proof.
  induction messages as [|m messages IH]; intros chat; [now split|].
  simpl. destruct (IH (onMessage chatMessagesContainer chat m)) as [H1 H2].
  rewrite H1, H2. destruct m; simpl; rewrite ?setDisabled_again; now split.
Qed.

(** The controls stay as they are while fragments arrive. *)
Lemma received_chunks (messages : list Message) :
  forallb isChatChunk messages = true ->
  forall chat,
    chatSendBtn (received chatMessagesContainer chat messages) = chatSendBtn chat
    /\ chatInput (received chatMessagesContainer chat messages) = chatInput chat.
Proof.
  induction messages as [|m messages IH]; intros H chat; [now split|].
  simpl in H. apply andb_true_iff in H as [Hm H].
  destruct m; try discriminate.
  destruct (IH H (onMessage chatMessagesContainer chat (ChatChunk chunk))) as [H1 H2].
  simpl in *. now split.
Qed.

Lemma reads_chunks (values : list (list byte)) :
  forallb isChatChunk (relayStream (fold_right Chunk Finished values)) = true.
Proof.
  induction values as [|value values IH]; [reflexivity|].
  simpl. rewrite forallb_app, IH, relayRead_chunks. reflexivity.
Qed.

(** X19. Every chat request gives the controls back: whatever the host,
    the answer of [fetch] and the reads of the body, once the webview
    has received the messages of [handleChatRequest] the send button
    and the input are enabled and no answer is left open, also when no
    host is configured and no end-of-turn signal was posted.  While
    the fragments of the reads arrive, the send button stays disabled. *)
Theorem chat_request_gives_controls_back (host : option str) (fetch : str -> Fetched)
    (chat : Chat) :
  let after := received chatMessagesContainer (submitted chat)
                 (handleChatRequest host fetch) in
  chatSendBtn after = setDisabled (chatSendBtn chat) false
  /\ chatInput after = setDisabled (chatInput chat) false
  /\ currentAiBubble after = false
  /\ (forall values,
        chatSendBtn (received chatMessagesContainer (submitted chat)
                       (relayStream (fold_right Chunk Finished values)))
        = setDisabled (chatSendBtn chat) true).
Proof.
  intros after.
  assert (Hlast : exists before,
            after = finalizeAiMessage
                      (received chatMessagesContainer (submitted chat) before)).
  { unfold after, handleChatRequest. destruct host as [[|c h]|].
    - now exists [].
    - exists (attempt fetch (completionsUrl (c :: h))). now rewrite received_app.
    - now exists []. }
  destruct Hlast as [before ->].
  destruct (received_controls before false (submitted chat)) as [H1 H2].
  split; [|split; [|split]].
  - simpl. rewrite H1. simpl. apply setDisabled_again.
  - simpl. rewrite H2. reflexivity.
  - reflexivity.
  - intros values.
    destruct (received_chunks _ (reads_chunks values) (submitted chat)) as [H _].
    now rewrite H.
Qed.

End ChatControls.

(* ================================================================== *)
(** * The signatures                                               *)
(* ================================================================== *)

(* ================================================================== *)
(** * What a pattern reads                                             *)
(* ================================================================== *)

Module RegExpFacts.

Import RegExp.

Open Scope N_scope.

(** [y] is the place reached from [x] by reading [seg]. *)
Definition follows (x y : state) (seg : str) : Prop :=
  ahead x = seg ++ ahead y /\ passed y = rev seg ++ passed x.

Section Reads.

Variable multiline : bool.

(** [reads r x y]: the pattern [r] can be read from the place [x] to
    the place [y] (in some way; the order in which the matcher tries
    the ways is left out). *)
Fixpoint reads (r : regex) (x y : state) : Prop :=
  match r with
  | Chr c => follows x y [c] /\ captures y = captures x
  | Class member =>
      exists c, member c = true /\ follows x y [c] /\ captures y = captures x
  | Seq a b => exists z, reads a x z /\ reads b z y
  | Alt a b => reads a x y \/ reads b x y
  | Opt a => reads a x y \/ y = x
  | Many _ member =>
      exists seg, forallb member seg = true /\ follows x y seg
                  /\ captures y = captures x
  | Group n a =>
      exists z, reads a x z
        /\ y = {| passed := passed z; ahead := ahead z;
                  captures := (n, between x z) :: captures z |}
  | Bol => y = x /\ atLineStart multiline x = true
  | Eol => y = x /\ atLineEnd multiline x = true
  | Empty => y = x
  end.

Lemma manyGreedy_reads (member : N -> bool) (k : state -> option state)
    (res : state) (caps : list (nat * str)) :
  forall input before,
    manyGreedy member before input caps k = Some res ->
    exists seg rest,
      input = seg ++ rest /\ forallb member seg = true
      /\ k {| passed := rev seg ++ before; ahead := rest; captures := caps |} = Some res.
Proof.
  induction input as [|c s IH]; intros passed H; simpl in H.
  - exists [], []. auto.
  - destruct (member c) eqn:Hc.
    + destruct (manyGreedy member (c :: passed) s caps k) eqn:E.
      * injection H as <-. apply IH in E as (seg & rest & -> & Hseg & Hk).
        exists (c :: seg), rest. simpl. rewrite Hc, Hseg.
        rewrite <- app_assoc. auto.
      * exists [], (c :: s). auto.
    + exists [], (c :: s). auto.
Qed.

Lemma manyLazy_reads (member : N -> bool) (k : state -> option state)
    (res : state) (caps : list (nat * str)) :
  forall input before,
    manyLazy member before input caps k = Some res ->
    exists seg rest,
      input = seg ++ rest /\ forallb member seg = true
      /\ k {| passed := rev seg ++ before; ahead := rest; captures := caps |} = Some res.
Proof.
  induction input as [|c s IH]; intros passed H; simpl in H.
  - destruct (k _) eqn:E; [|discriminate]. exists [], []. injection H as <-. auto.
  - destruct (k {| passed := passed; ahead := c :: s; captures := caps |}) eqn:E.
    + injection H as <-. exists [], (c :: s). auto.
    + destruct (member c) eqn:Hc; [|discriminate].
      apply IH in H as (seg & rest & -> & Hseg & Hk).
      exists (c :: seg), rest. simpl. rewrite Hc, Hseg.
      rewrite <- app_assoc. auto.
Qed.

(** What the matcher finds, the pattern reads: when the matcher
    succeeds, the continuation has accepted a place that the pattern
    reads from the start. *)
Lemma matcher_reads (r : regex) :
  forall x k res,
    matcher multiline r x k = Some res ->
    exists y, reads r x y /\ k y = Some res.
Proof.
  induction r as [c|member|a IHa b IHb|a IHa b IHb|a IHa|greedy member|n a IHa| | |];
    intros x k res H; simpl in H.
  - destruct x as [p [|c0 s] caps]; simpl in H; [discriminate|].
    destruct (c0 =? c) eqn:E; [|discriminate]. apply N.eqb_eq in E. subst c0.
    eexists. split; [|exact H]. simpl. unfold follows. simpl. auto.
  - destruct x as [p [|c0 s] caps]; simpl in H; [discriminate|].
    destruct (member c0) eqn:E; [|discriminate].
    eexists. split; [|exact H]. simpl. exists c0. unfold follows. simpl. auto.
  - apply IHa in H as [z [Ha H]]. apply IHb in H as [y [Hb H]].
    exists y. split; [|exact H]. simpl. now exists z.
  - destruct (matcher multiline a x k) eqn:E.
    + injection H as <-. apply IHa in E as [y [Ha E]]. exists y. simpl. auto.
    + apply IHb in H as [y [Hb H]]. exists y. simpl. auto.
  - destruct (matcher multiline a x _) eqn:E.
    + injection H as <-. apply IHa in E as [y [Ha E]].
      destruct (Nat.eqb _ _); [discriminate|]. exists y. simpl. auto.
    + exists x. simpl. auto.
  - destruct x as [p s caps]. simpl in H.
    assert (G : exists seg rest,
              s = seg ++ rest /\ forallb member seg = true
              /\ k {| passed := rev seg ++ p; ahead := rest; captures := caps |}
                 = Some res).
    { destruct greedy; [now apply manyGreedy_reads|now apply manyLazy_reads]. }
    destruct G as (seg & rest & -> & Hseg & Hk).
    eexists. split; [|exact Hk]. simpl. exists seg. unfold follows. simpl. auto.
  - apply IHa in H as [z [Ha H]]. eexists. split; [|exact H]. simpl. now exists z.
  - destruct (atLineStart multiline x) eqn:E; [|discriminate]. exists x. simpl. auto.
  - destruct (atLineEnd multiline x) eqn:E; [|discriminate]. exists x. simpl. auto.
  - exists x. simpl. auto.
Qed.

(** Must the pattern read a character? *)
Fixpoint advances (r : regex) : bool :=
  match r with
  | Chr _ | Class _ => true
  | Seq a b => advances a || advances b
  | Alt a b => advances a && advances b
  | Group _ a => advances a
  | Opt _ | Many _ _ | Bol | Eol | Empty => false
  end.

Lemma follows_app (x z y : state) (s t : str) :
  follows x z s -> follows z y t -> follows x y (s ++ t).
Proof.
  unfold follows. intros [H1 H2] [H3 H4]. split.
  - now rewrite H1, H3, app_assoc.
  - now rewrite H4, H2, rev_app_distr, app_assoc.
Qed.

Lemma follows_here (x : state) : follows x x [].
Proof. now split. Qed.

(** A pattern reads a piece of the input, onwards, and one that is not
    empty when it must read a character. *)
Lemma reads_follows (r : regex) :
  forall x y, reads r x y ->
    exists seg, follows x y seg /\ (advances r = true -> seg <> []).
Proof.
  induction r as [c|member|a IHa b IHb|a IHa b IHb|a IHa|greedy member|n a IHa| | |];
    intros x y H; simpl in H.
  - destruct H as [H _]. exists [c]. split; [exact H|discriminate].
  - destruct H as (c & _ & H & _). exists [c]. split; [exact H|discriminate].
  - destruct H as (z & Ha & Hb).
    apply IHa in Ha as (s & Hs & Hsa). apply IHb in Hb as (t & Ht & Htb).
    exists (s ++ t). split; [now apply (follows_app Hs)|].
    simpl. intros Hadv E. apply app_eq_nil in E as [-> ->].
    apply orb_true_iff in Hadv as [Hadv|Hadv]; [now apply Hsa|now apply Htb].
  - simpl. destruct H as [H|H].
    + apply IHa in H as (s & Hs & Hsa). exists s. split; [exact Hs|].
      intros Hadv. apply andb_true_iff in Hadv as [Hadv _]. now apply Hsa.
    + apply IHb in H as (s & Hs & Hsb). exists s. split; [exact Hs|].
      intros Hadv. apply andb_true_iff in Hadv as [_ Hadv]. now apply Hsb.
  - destruct H as [H| ->].
    + apply IHa in H as (s & Hs & _). exists s. split; [exact Hs|discriminate].
    + exists []. split; [apply follows_here|discriminate].
  - destruct H as (seg & _ & H & _). exists seg. split; [exact H|discriminate].
  - destruct H as (z & Ha & ->). apply IHa in Ha as (s & Hs & Hsa).
    exists s. split; [exact Hs|exact Hsa].
  - destruct H as [-> _]. exists []. split; [apply follows_here|discriminate].
  - destruct H as [-> _]. exists []. split; [apply follows_here|discriminate].
  - subst y. exists []. split; [apply follows_here|discriminate].
Qed.

(** What stands between two places is what was read. *)
Lemma between_follows (x y : state) (seg : str) :
  follows x y seg -> between x y = seg.
Proof.
  intros [_ H]. unfold between. rewrite H, length_app, length_rev.
  replace (length seg + length (passed x) - length (passed x))%nat
    with (length seg + 0)%nat by lia.
  rewrite <- (length_rev seg) at 1.
  rewrite firstn_app_2. simpl. rewrite app_nil_r. apply rev_involutive.
Qed.

(** [exec] finds a place further on from which the pattern reads. *)
Lemma search_reads (r : regex) :
  forall input before x y,
    search multiline r before input = Some (x, y) ->
    exists skipped,
      input = skipped ++ ahead x
      /\ passed x = rev skipped ++ before
      /\ captures x = []
      /\ reads r x y.
Proof.
  induction input as [|c s IH]; intros before x y H; simpl in H.
  - destruct (matcher multiline r _ Some) eqn:E; [|discriminate].
    injection H as <- <-. apply matcher_reads in E as [y [Hr E]].
    injection E as <-. exists []. auto.
  - destruct (matcher multiline r _ Some) eqn:E.
    + injection H as <- <-. apply matcher_reads in E as [y [Hr E]].
      injection E as <-. exists []. auto.
    + apply IH in H as (skipped & H1 & H2 & H3 & H4).
      exists (c :: skipped). simpl. rewrite H1 at 1. rewrite H2, <- app_assoc. auto.
Qed.

End Reads.

End RegExpFacts.

Module SignatureFacts.

Import RegExp RegExpFacts Signatures.

Open Scope N_scope.

(** What follows the first part of a pattern. *)
Definition tl_of (r : regex) : regex :=
  match r with
  | Seq _ b => b
  | _ => Empty
  end.

(** The start of a line: nothing before it, or a line terminator. *)
Definition lineStart (before : str) : Prop :=
  before = [] \/ exists b c, before = b ++ [c] /\ isLineTerminator c = true.

Lemma atLineStart_lineStart (x : state) :
  atLineStart true x = true -> lineStart (rev (passed x)).
Proof.
  unfold atLineStart, lineStart. destruct (passed x) as [|c p]; [now left|].
  simpl. intros H. right. now exists (rev p), c.
Qed.

(** The loop over the matches of a pattern that starts with [^] and
    must read a character ends, and every match is a piece of the
    input that is not empty and starts a line. *)
Lemma matches_found (r : regex) :
  advances r = true ->
  forall fuel input before,
    (length input < fuel)%nat ->
    exists found,
      matches fuel (Seq Bol r) before input = Some found
      /\ Forall (fun w => w <> []
                   /\ exists a b, rev before ++ input = a ++ w ++ b /\ lineStart a)
           found.
Proof.
  intros Hadv. induction fuel as [|fuel IH]; intros input before Hlen; [lia|].
  cbn [matches].
  destruct (search true (Seq Bol r) before input) as [[x y]|] eqn:E;
    [|exists []; split; [reflexivity|constructor]].
  apply search_reads in E as (skipped & Hin & Hpassed & _ & Hr).
  destruct Hr as (z & [-> Hstart] & Hr).
  destruct (reads_follows _ _ _ _ Hr) as (seg & [Hahead Hp] & Hne).
  specialize (Hne Hadv).
  assert (Hshort : (length (ahead y) < length input)%nat).
  { rewrite Hin, Hahead, !length_app. destruct seg; [contradiction|]. simpl. lia. }
  apply Nat.ltb_lt in Hshort. rewrite Hshort. apply Nat.ltb_lt in Hshort.
  destruct (IH (ahead y) (passed y)) as (found & Hfound & Hall); [lia|].
  rewrite Hfound. eexists. split; [reflexivity|].
  assert (Hwhole : rev (passed y) ++ ahead y = rev before ++ input).
  { rewrite Hp, Hpassed, Hin, Hahead, !rev_app_distr, !rev_involutive.
    now rewrite <- !app_assoc. }
  constructor.
  - rewrite (between_follows (conj Hahead Hp)). split; [exact Hne|].
    exists (rev before ++ skipped), (ahead y). split.
    + rewrite Hin, Hahead. now rewrite <- !app_assoc.
    + apply atLineStart_lineStart in Hstart.
      now rewrite Hpassed, rev_app_distr, rev_involutive in Hstart.
  - eapply Forall_impl; [|exact Hall]. intros w [Hw (a & b & Hab & Ha)].
    split; [exact Hw|]. exists a, b. split; [|exact Ha]. now rewrite <- Hwhole.
Qed.

(** What [replace] leaves of a match of the JavaScript branch is a
    start of the match: the pattern of the [replace] reads to the end. *)
Lemma remove_fromEquals (w : str) : exists cut, w = remove fromEquals w ++ cut.
Proof.
  unfold remove. destruct (search false fromEquals [] w) as [[x y]|] eqn:E;
    [|exists []; now rewrite app_nil_r].
  apply search_reads in E as (skipped & Hin & Hpassed & _ & Hr).
  simpl in Hr.
  destruct Hr as (z1 & _ & z2 & _ & z3 & _ & z4 & _ & z5 & [E1 Hend] & E2).
  subst z5. subst z4. unfold atLineEnd in Hend. destruct (ahead y); [|discriminate].
  rewrite Hpassed, !app_nil_r, rev_involutive. now exists (ahead x).
Qed.

Lemma patternSignatures_found (r : regex) (code : str) :
  advances r = true ->
  exists signatures,
    patternSignatures (Seq Bol r) code = Some signatures
    /\ forall sig, In sig signatures ->
         exists a b, code = a ++ sig ++ b /\ lineStart a.
Proof.
  intros Hadv. unfold patternSignatures.
  destruct (@matches_found r Hadv (S (length code)) code []) as (found & -> & Hall);
    [lia|].
  eexists. split; [reflexivity|]. intros sig Hsig.
  apply in_map_iff in Hsig as (w & <- & Hw).
  apply (proj1 (Forall_forall _ _) Hall) in Hw as (_ & a & b & Hab & Ha).
  destruct (remove_fromEquals w) as [cut Hcut].
  exists a, (cut ++ b). split; [|exact Ha].
  simpl in Hab. rewrite Hab. rewrite Hcut at 1. now rewrite <- !app_assoc.
Qed.

Lemma scriptSignatures_found (code : str) :
  exists signatures,
    scriptSignatures code = Some signatures
    /\ forall sig, In sig signatures ->
         exists a b, code = a ++ sig ++ b /\ lineStart a.
Proof.
  unfold scriptSignatures.
  destruct (@patternSignatures_found (tl_of functionPattern) code eq_refl)
    as (s1 & H1 & A1).
  destruct (@patternSignatures_found (tl_of classPattern) code eq_refl)
    as (s2 & H2 & A2).
  destruct (@patternSignatures_found (tl_of arrowPattern) code eq_refl)
    as (s3 & H3 & A3).
  change (Seq Bol (tl_of functionPattern)) with functionPattern in H1.
  change (Seq Bol (tl_of classPattern)) with classPattern in H2.
  change (Seq Bol (tl_of arrowPattern)) with arrowPattern in H3.
  rewrite H1, H2, H3. eexists. split; [reflexivity|].
  intros sig Hsig. apply in_app_or in Hsig as [Hsig|Hsig]; [now apply A1|].
  apply in_app_or in Hsig as [Hsig|Hsig]; [now apply A2|now apply A3].
Qed.

End SignatureFacts.

Module PythonFacts.

Import RegExp RegExpFacts Signatures SignatureFacts.

Open Scope N_scope.

Lemma reads_text (multiline : bool) (s : str) :
  forall x y, reads multiline (text s) x y ->
    follows x y s /\ captures y = captures x.
Proof.
  induction s as [|c s IH]; intros x y H; simpl in H.
  - subst y. split; [apply follows_here|reflexivity].
  - destruct H as (z & [Hc Hcap] & H). apply IH in H as [Hs Hcap'].
    split; [apply (follows_app Hc Hs)|congruence].
Qed.

Lemma reads_some (multiline : bool) (member : N -> bool) (x y : state) :
  reads multiline (some member) x y ->
  exists seg, seg <> [] /\ forallb member seg = true /\ follows x y seg
              /\ captures y = captures x.
Proof.
  simpl. intros (z & (c & Hc & Hf & Hcap) & seg & Hseg & Hf' & Hcap').
  exists (c :: seg). split; [discriminate|]. simpl. rewrite Hc, Hseg.
  split; [reflexivity|]. split; [apply (follows_app Hf Hf')|congruence].
Qed.

(** Without the flag [m], [^] stands at the start of the input only. *)
Lemma atLineStart_start (x : state) : atLineStart false x = true -> passed x = [].
Proof. unfold atLineStart. now destruct (passed x). Qed.

Lemma atLineEnd_end (x : state) : atLineEnd false x = true -> ahead x = [].
Proof. unfold atLineEnd. now destruct (ahead x). Qed.

Lemma rev_nil (l : str) : [] = rev l -> l = [].
Proof.
  destruct l as [|c l]; [reflexivity|]. simpl. intros H.
  now apply app_cons_not_nil in H.
Qed.

(** A name, as both patterns of the Python branch read it. *)
Definition identifier (name : str) : Prop :=
  exists c rest, name = c :: rest /\ letter c = true /\ forallb word rest = true.

Lemma reads_name (multiline : bool) (n : nat) (x y : state) :
  reads multiline (Group n (Seq (Class letter) (Many true word))) x y ->
  exists name, identifier name /\ follows x y name
               /\ captures y = (n, name) :: captures x.
Proof.
  simpl. intros (z & (z1 & (c & Hc & Hf & Hcap) & seg & Hseg & Hf' & Hcap') & ->).
  pose proof (follows_app Hf Hf') as Hname. simpl in Hname.
  exists (c :: seg). split; [now exists c, seg|]. split.
  - destruct Hname as [H1 H2]. now split.
  - simpl. rewrite (between_follows Hname). congruence.
Qed.

(** The first colon behind which only white space stands up to the end
    of a text that ends with a colon is the last one. *)
Lemma search_colon (h : str) :
  forall before,
    search false colonAtEnd before (h ++ [58])
    = Some ({| passed := rev h ++ before; ahead := [58]; captures := [] |},
            {| passed := 58 :: rev h ++ before; ahead := []; captures := [] |}).
Proof.
  induction h as [|c h IH]; intros before; [reflexivity|].
  cbn [app search].
  destruct (matcher false colonAtEnd _ Some) as [res|] eqn:E.
  - exfalso. apply matcher_reads in E as [y [Hr _]]. simpl in Hr.
    destruct Hr as (z1 & [[H1 _] _] & z2 & (seg & Hseg & [H2 _] & _)
                    & z3 & [E3 Hend] & E4).
    subst z3. subst z2. apply atLineEnd_end in Hend.
    simpl in H1. rewrite H2, Hend, app_nil_r in H1.
    injection H1 as _ H1.
    assert (Hin : In 58 seg). { rewrite <- H1. apply in_or_app. right. now left. }
    apply (proj1 (forallb_forall _ _) Hseg) in Hin. discriminate Hin.
  - rewrite IH. simpl. now rewrite <- !app_assoc.
Qed.

Lemma remove_colon (h : str) : remove colonAtEnd (h ++ [58]) = h.
Proof.
  unfold remove. rewrite search_colon. simpl.
  now rewrite !app_nil_r, rev_involutive.
Qed.

(** What a line of Python pushes, when it pushes something. *)
Lemma pythonLine_head (line sig : str) :
  In sig (pythonLine line) ->
  (exists indent gap name rest,
     line = indent ++ lit "class" ++ gap ++ name ++ rest
     /\ forallb space indent = true
     /\ gap <> [] /\ forallb space gap = true
     /\ identifier name
     /\ sig = lit "class " ++ name ++ lit ": ...")
  \/ (exists indent body rest,
        line = indent ++ body ++ lit "):" ++ rest
        /\ forallb space indent = true
        /\ (Js.startsWith body (lit "def") = true
            \/ Js.startsWith body (lit "async") = true)
        /\ sig = indent ++ body ++ lit ")").
Proof.
  unfold pythonLine, exec.
  destruct (search false classRegex [] line) as [[x y]|] eqn:Eclass.
  - intros [<-|[]]. left.
    apply search_reads in Eclass as (skipped & Hin & Hpassed & Hcaps & Hr).
    simpl reads in Hr.
    destruct Hr as (z0 & [E0 Hstart] & z1 & (indent & Hindent & Hf1 & Hc1)
                    & z2 & Hr).
    subst z0. apply atLineStart_start in Hstart.
    rewrite Hstart in Hpassed. rewrite app_nil_r in Hpassed.
    apply rev_nil in Hpassed. subst skipped. simpl in Hin.
    change (reads false (text (lit "class")) z1 z2
            /\ exists z3, reads false (some space) z2 z3
                 /\ exists z4, reads false (Group 1 (Seq (Class letter) (Many true word)))
                                 z3 z4 /\ y = z4) in Hr.
    destruct Hr as (Hclass & z3 & Hgap & z4 & Hname & ->).
    apply reads_text in Hclass as [Hf2 Hc2].
    apply reads_some in Hgap as (gap & Hgap & Hspace & Hf3 & Hc3).
    apply reads_name in Hname as (name & Hid & Hf4 & Hc4).
    exists indent, gap, name, (ahead z4).
    split.
    { rewrite Hin. destruct Hf1 as [-> _], Hf2 as [-> _], Hf3 as [-> _], Hf4 as [-> _].
      reflexivity. }
    split; [exact Hindent|]. split; [exact Hgap|]. split; [exact Hspace|].
    split; [exact Hid|]. rewrite Hc4. simpl. reflexivity.
  - destruct (search false funcRegex [] line) as [[x y]|] eqn:Efunc; [|intros []].
    intros [<-|[]]. right.
    apply search_reads in Efunc as (skipped & Hin & Hpassed & Hcaps & Hr).
    pose proof Hr as Hwhole.
    simpl reads in Hr.
    destruct Hr as (z0 & [E0 Hstart] & z1 & (indent & Hindent & Hf1 & Hc1)
                    & z2 & Hopt & Hr).
    subst z0. apply atLineStart_start in Hstart.
    rewrite Hstart in Hpassed. rewrite app_nil_r in Hpassed.
    apply rev_nil in Hpassed. subst skipped. simpl in Hin.
    change (exists z3, reads false (text (lit "def")) z2 z3
              /\ exists z4, reads false (some space) z3 z4
              /\ exists z5, reads false (Group 1 (Seq (Class letter) (Many true word)))
                              z4 z5
              /\ exists z6, reads false (Many true space) z5 z6
              /\ exists z7, reads false (Chr 40) z6 z7
              /\ exists z8, reads false (Group 2 (Many false dot)) z7 z8
              /\ exists z9, reads false (Chr 41) z8 z9
              /\ exists z10, reads false (Chr 58) z9 z10 /\ y = z10) in Hr.
    destruct Hr as (z3 & Hdef & z4 & H4 & z5 & H5 & z6 & H6 & z7 & H7 & z8 & H8
                    & z9 & [H9 _] & z10 & [H10 _] & ->).
    apply reads_text in Hdef as [Hfdef _].
    apply reads_follows in H4 as (s4 & Hf4 & _).
    apply reads_follows in H5 as (s5 & Hf5 & _).
    apply reads_follows in H6 as (s6 & Hf6 & _).
    apply reads_follows in H7 as (s7 & Hf7 & _).
    apply reads_follows in H8 as (s8 & Hf8 & _).
    pose proof (follows_app Hfdef (follows_app Hf4 (follows_app Hf5
                 (follows_app Hf6 (follows_app Hf7 Hf8))))) as Hmid.
    set (tail := lit "def" ++ s4 ++ s5 ++ s6 ++ s7 ++ s8) in *.
    assert (Hopt' : exists pre, follows z1 z2 pre
                      /\ (pre = [] \/ Js.startsWith pre (lit "async") = true)).
    { destruct Hopt as [Hopt| ->]; [|exists []; split; [apply follows_here|now left]].
      change (exists z, reads false (text (lit "async")) z1 z
                /\ reads false (some space) z z2) in Hopt.
      destruct Hopt as (z & Ha & Hs). apply reads_text in Ha as [Ha _].
      apply reads_follows in Hs as (ws & Hws & _).
      exists (lit "async" ++ ws). split; [apply (follows_app Ha Hws)|].
      right. apply BasePathFacts.startsWith_app. }
    destruct Hopt' as (pre & Hpre & Hkind).
    pose proof (follows_app Hf1 (follows_app Hpre (follows_app Hmid
                 (follows_app H9 H10)))) as Hall.
    exists indent, (pre ++ tail), (ahead z10). split; [|split; [exact Hindent|split]].
    + rewrite Hin. destruct Hall as [-> _]. now rewrite <- !app_assoc.
    + destruct Hkind as [->|Hkind].
      * left. change ([] ++ tail) with tail. apply BasePathFacts.startsWith_app.
      * right. apply BasePathFacts.startsWith_prefix in Hkind as [more ->].
        rewrite <- app_assoc. apply BasePathFacts.startsWith_app.
    + rewrite (between_follows Hall).
      replace (indent ++ pre ++ tail ++ [41] ++ [58])
        with ((indent ++ pre ++ tail ++ [41]) ++ [58]) by now rewrite <- !app_assoc.
      rewrite remove_colon. now rewrite <- !app_assoc.
Qed.

End PythonFacts.

Lemma orElse_not_empty (a b : str) : b <> [] -> orElse a b <> [].
Proof. intros H. destruct a; [exact H|discriminate]. Qed.

(** X20. [extractSignatures] returns for every text and every extension,
    and what it returns is never the empty string: each loop over the
    matches of a pattern ends, because a match is never empty, and
    where no signature is found a sentence says so. *)
Theorem extractSignatures_returns (code extension : str) :
  exists result,
    Signatures.extractSignatures code extension = Some result /\ result <> [].
Proof.
  unfold Signatures.extractSignatures.
  destruct (Js.eqb extension (lit ".py")).
  - eexists. split; [reflexivity|]. now apply orElse_not_empty.
  - destruct (Signatures.isScript extension).
    + destruct (SignatureFacts.scriptSignatures_found code) as (sigs & -> & _).
      eexists. split; [reflexivity|]. now apply orElse_not_empty.
    + eexists. split; [reflexivity|discriminate].
Qed.

(** X21. The signatures of a Python file are heads of its lines.  Each one
    comes from a line that starts, behind white space, with [class],
    white space and a name, and is then [class], the name and [: ...]
    (the indentation and the bases are dropped); or from a line that
    starts, behind white space, with [def] or [async] and holds a
    closing parenthesis with a colon right behind it, and is then the
    line up to this parenthesis, indentation included.  So a [def]
    whose parenthesis is not followed at once by the colon (a return
    annotation stands between) gives no signature. *)
Theorem python_signatures_are_heads (code sig : str) :
  In sig (Signatures.pythonSignatures code) ->
  Signatures.extractSignatures code (lit ".py")
  = Some (orElse (Js.join (Signatures.pythonSignatures code) newline)
            (lit "No Python signatures found."))
  /\ exists line,
       In line (Js.split code newline)
       /\ ((exists indent gap name rest,
              line = indent ++ lit "class" ++ gap ++ name ++ rest
              /\ forallb RegExp.space indent = true
              /\ gap <> [] /\ forallb RegExp.space gap = true
              /\ PythonFacts.identifier name
              /\ sig = lit "class " ++ name ++ lit ": ...")
           \/ (exists indent body rest,
                 line = indent ++ body ++ lit "):" ++ rest
                 /\ forallb RegExp.space indent = true
                 /\ (Js.startsWith body (lit "def") = true
                     \/ Js.startsWith body (lit "async") = true)
                 /\ sig = indent ++ body ++ lit ")")).
Proof.
  intros H. split; [reflexivity|].
  unfold Signatures.pythonSignatures in H.
  apply in_flat_map in H as (line & Hline & Hsig).
  exists line. split; [exact Hline|]. now apply PythonFacts.pythonLine_head.
Qed.

(** X22. The signatures of a JavaScript or TypeScript file are pieces of
    its text, each starting at the start of a line: what is cut off a
    match, from the first equals sign that the rest of the match
    follows on one line, is its end. *)
Theorem script_signatures_start_lines (code extension : str) :
  Signatures.isScript extension = true ->
  exists signatures,
    Signatures.extractSignatures code extension
    = Some (orElse (Js.join signatures newline)
              (lit "No JavaScript/TypeScript signatures found."))
    /\ forall sig, In sig signatures ->
         exists before after,
           code = before ++ sig ++ after /\ SignatureFacts.lineStart before.
Proof.
  intros Hscript.
  destruct (SignatureFacts.scriptSignatures_found code) as (sigs & Hsigs & Hall).
  exists sigs. split; [|exact Hall].
  unfold Signatures.extractSignatures. rewrite Hscript, Hsigs.
  destruct (Js.eqb extension (lit ".py")) eqn:E; [|reflexivity].
  apply eqb_eq in E. subst extension. discriminate Hscript.
Qed.

(** A text with a newline where the literal has a bar. *)
Definition withNewlines (s : string) : str :=
  map (fun c => if N.eqb c 124 then 10%N else c) (lit s).

Lemma python_signatures_are_heads_witness :
  In (lit "    def area(self, scale: float)")
    (Signatures.pythonSignatures
       (withNewlines "class Shape(Base):|    def area(self, scale: float):|        return 0|    def name(self) -> str:"))
  /\ Signatures.extractSignatures
       (withNewlines "class Shape(Base):|    def area(self, scale: float):|        return 0|    def name(self) -> str:")
       (lit ".py")
     = Some (withNewlines "class Shape: ...|    def area(self, scale: float)").
Proof.
  assert (H : In (lit "    def area(self, scale: float)")
                (Signatures.pythonSignatures
                   (withNewlines "class Shape(Base):|    def area(self, scale: float):|        return 0|    def name(self) -> str:"))).
  { vm_compute. auto. }
  split; [exact H|].
  exact (eq_trans (proj1 (python_signatures_are_heads _ _ H)) eq_refl).
Defined.

Lemma script_signatures_start_lines_witness :
  Signatures.isScript (lit ".ts") = true
  /\ Signatures.extractSignatures
       (withNewlines "export async function load(a, b) {|}|class Panel {}|const add = (x) => x + 1;|  function inner() {}")
       (lit ".ts")
     = Some (withNewlines "export async function load(a, b)|class Panel|const add")
  /\ exists signatures,
       Signatures.extractSignatures
         (withNewlines "export async function load(a, b) {|}|class Panel {}|const add = (x) => x + 1;|  function inner() {}")
         (lit ".ts")
       = Some (orElse (Js.join signatures newline)
                 (lit "No JavaScript/TypeScript signatures found.")).
Proof.
  split; [reflexivity|]. split; [vm_compute; reflexivity|].
  destruct (@script_signatures_start_lines
              (withNewlines "export async function load(a, b) {|}|class Panel {}|const add = (x) => x + 1;|  function inner() {}")
              (lit ".ts") eq_refl) as (signatures & H & _).
  now exists signatures.
Defined.
